(** * s2delaunay / s2voronoi: spherical Delaunay triangulation and its Voronoi dual

    A shallow embedding of the Go packages [s2delaunay] (triangulation
    builder) and [s2voronoi] (diagram builder), and of the helper
    [cyclicEqual] of the tests of [s2delaunay].

    - Go [int] is modelled as [Z]; slices are lists indexed by [Z], and an
      index outside the slice is the Go run-time panic.  Where the code
      adds to an [int] that its caller chooses ([vIdx+1] in
      [IncidentTriangles]), the sum wraps around at 64 bits.
    - Go [float64] is the kernel's binary64 type [float]; every arithmetic
      operation rounds on its own, as in [golang/geo/r3].
    - A function returning [(T, error)] returns a [result T]; a [panic] is
      the third outcome [Panic].
    - Norms are measured exactly where a bound on them is stated: over the
      rational values of the binary64 numbers.
    - The convex hull routine ([quickhull.ConvexHull]) is an external
      collaborator: it is a parameter of the builders. *)

From Stdlib Require Import ZArith QArith Qabs Lia Lqa.
From Stdlib Require Import Floats.PrimFloat Floats.FloatOps Floats.SpecFloat.
From stdpp Require Import base list.

Open Scope Z_scope.

(** Decimal constants such as [1e-12] denote the nearest binary64 value, as
    they do in Go. *)
Set Warnings "-inexact-float".

(** ** Outcomes of Go functions *)

(** The error values the two packages create, one constructor per message. *)
Inductive error : Type :=
| ErrWithEps              (* "WithEps: eps must be positive got %v" *)
| ErrInsufficientVertices (* "NewTriangulation: insufficient vertices ..." *)
| ErrInconsistentIndices  (* "NewTriangulation: inconsistent number of indices ..." *)
| ErrIncidentTriangles    (* "IncidentTriangles: vIdx %d out of range [0 %d)" *)
| ErrTriangleVertices     (* "TriangleVertices: tIdx %d out of bounds [0 %d)" *)
| ErrPrevVertex           (* "PrevVertex: vIdx %d not in triangle" *)
| ErrNextVertex.          (* "NextVertex: vIdx %d not in triangle" *)

(** The error kinds of the specification's taxonomy. *)
Inductive ErrorKind : Type :=
| InsufficientInput
| InvalidTolerance
| InconsistentHullOutput
| IndexOutOfRange
| NotInTriangle.

Definition kindOf (e : error) : ErrorKind :=
  match e with
  | ErrWithEps => InvalidTolerance
  | ErrInsufficientVertices => InsufficientInput
  | ErrInconsistentIndices => InconsistentHullOutput
  | ErrIncidentTriangles | ErrTriangleVertices => IndexOutOfRange
  | ErrPrevVertex | ErrNextVertex => NotInTriangle
  end.

Inductive result (A : Type) : Type :=
| Ok (a : A)
| Err (e : error)
| Panic.
Arguments Ok {A} a.
Arguments Err {A} e.
Arguments Panic {A}.

Definition bind {A B} (r : result A) (k : A -> result B) : result B :=
  match r with
  | Ok a => k a
  | Err e => Err e
  | Panic => Panic
  end.

Notation "'let*' x ':=' r 'in' k" := (bind r (fun x => k))
  (at level 10, x name, r at level 100, k at level 200).

(** [v, err := f(); if err != nil { panic(err) }] *)
Definition orPanic {A} (r : result A) : result A :=
  match r with
  | Ok a => Ok a
  | _ => Panic
  end.

(** [failsWith r k]: the call returned a nil value and an error of kind [k]. *)
Definition failsWith {A} (r : result A) (k : ErrorKind) : Prop :=
  exists e, r = Err e /\ kindOf e = k.

(** ** Integers *)

(** Go's [int] on the 64-bit platforms: the values from [minInt] to
    [maxInt], and sums that wrap around (two's complement). *)
Definition minInt : Z := - 2 ^ 63.
Definition maxInt : Z := 2 ^ 63 - 1.

Definition wrap (z : Z) : Z := (z + 2 ^ 63) mod 2 ^ 64 - 2 ^ 63.

(** [x + y] on [int]. *)
Definition addInt (x y : Z) : Z := wrap (x + y).

(** ** Slices *)

(** [a[i]], panicking outside [0 <= i < len(a)]. *)
Definition index {A} (a : list A) (i : Z) : result A :=
  if i <? 0 then Panic
  else match a !! Z.to_nat i with
       | Some x => Ok x
       | None => Panic
       end.

(** [a[i] = x], panicking outside [0 <= i < len(a)]. *)
Definition store {A} (a : list A) (i : Z) (x : A) : result (list A) :=
  if (0 <=? i) && (i <? Z.of_nat (length a)) then Ok (<[Z.to_nat i := x]> a)
  else Panic.

(** [make([]T, n)] for [n >= 0], filled with the zero value. *)
Definition make {A} (zero : A) (n : Z) : list A := replicate (Z.to_nat n) zero.

Definition len {A} (a : list A) : Z := Z.of_nat (length a).

(** [a[lo:hi]] on a slice whose capacity is its length; Go panics unless
    [0 <= lo <= hi <= len(a)]. *)
Definition slice {A} (a : list A) (lo hi : Z) : result (list A) :=
  if (0 <=? lo) && (lo <=? hi) && (hi <=? len a)
  then Ok (take (Z.to_nat (hi - lo)) (drop (Z.to_nat lo) a))
  else Panic.

(** Writing a sub-slice [s] obtained as [a[lo:lo+len(s)]] back into its
    backing array: the slice aliases the array, so what is written through
    the slice is seen in the array. *)
Definition writeBack {A} (a : list A) (lo : Z) (s : list A) : list A :=
  take (Z.to_nat lo) a ++ s ++ drop (Z.to_nat lo + length s)%nat a.

(** [for i := from; i < from + n; i++ { s = body(i, s) }] *)
Fixpoint forFrom {St} (from : Z) (n : nat) (body : Z -> St -> result St) (s : St)
  : result St :=
  match n with
  | O => Ok s
  | S n' => let* s' := body from s in forFrom (from + 1) n' body s'
  end.

(** [for i := range n { ... }] *)
Definition forRange {St} (n : Z) (body : Z -> St -> result St) (s : St) : result St :=
  forFrom 0 (Z.to_nat n) body s.

(** [for i, x := range a { ... }], the index counted from [from]. *)
Fixpoint forEachFrom {A St} (from : Z) (a : list A) (body : Z -> A -> St -> result St)
  (s : St) : result St :=
  match a with
  | [] => Ok s
  | x :: a' => let* s' := body from x s in forEachFrom (from + 1) a' body s'
  end.

Definition forEach {A St} (a : list A) (body : Z -> A -> St -> result St) (s : St)
  : result St :=
  forEachFrom 0 a body s.

(** [copy(dst, src)]: the first [min(len(dst), len(src))] elements of [src]
    overwrite those of [dst]. *)
Definition copy {A} (dst src : list A) : list A :=
  take (length dst) src ++ drop (length src) dst.

(** ** [golang/geo]: the vector operations the packages call

    [r3.Vector] and [s2.Point] belong to a dependency of the packages; the
    methods that the packages call are written out here, component by
    component, over binary64. *)

Module r3.

Local Open Scope float_scope.

Record Vector : Type := mkVector { X : float; Y : float; Z : float }.

Definition Add (v ov : Vector) : Vector :=
  mkVector (X v + X ov) (Y v + Y ov) (Z v + Z ov).

Definition Sub (v ov : Vector) : Vector :=
  mkVector (X v - X ov) (Y v - Y ov) (Z v - Z ov).

Definition Mul (v : Vector) (m : float) : Vector :=
  mkVector (m * X v) (m * Y v) (m * Z v).

Definition Dot (v ov : Vector) : float :=
  X v * X ov + Y v * Y ov + Z v * Z ov.

Definition Cross (v ov : Vector) : Vector :=
  mkVector (Y v * Z ov - Z v * Y ov)
           (Z v * X ov - X v * Z ov)
           (X v * Y ov - Y v * X ov).

Definition Norm2 (v : Vector) : float := Dot v v.

Definition Norm (v : Vector) : float := sqrt (Dot v v).

(** A unit vector in the direction of [v]; the zero vector stays zero. *)
Definition Normalize (v : Vector) : Vector :=
  let n2 := Norm2 v in
  if (n2 =? 0)%float then mkVector 0 0 0
  else Mul v (1 / sqrt n2).

End r3.

Module s2.

(** [type Point struct { r3.Vector }] *)
Record Point : Type := mkPoint { Vector : r3.Vector }.

Definition PointVector : Type := list Point.

End s2.

(** ** Package [s2delaunay] *)

Module s2delaunay.

(** [1e-12] as a binary64 constant. *)
Definition defaultEps : float := 0x1.19799812dea11p-40%float.

(** A triangle, [[3]int]: three site indices. *)
Record int3 : Type := mkInt3 { at0 : Z; at1 : Z; at2 : Z }.

(** [t[j] = v] for the constant indices [j = 0, 1, 2] of [range 3]. *)
Definition set3 (t : int3) (j : Z) (v : Z) : int3 :=
  if j =? 0 then mkInt3 v (at1 t) (at2 t)
  else if j =? 1 then mkInt3 (at0 t) v (at2 t)
  else mkInt3 (at0 t) (at1 t) v.

Record Triangulation : Type := mkTriangulation {
  Vertices : s2.PointVector;
  Triangles : list int3;
  IncidentTriangleIndices : list Z;
  IncidentTriangleOffsets : list Z
}.

Record TriangulationOptions : Type := mkOptions { Eps : float }.

(** A function from a pointer to the options to an [error]: it yields
    the options after the call, or the error. *)
Definition TriangulationOption : Type :=
  TriangulationOptions -> result TriangulationOptions.

Definition WithEps (eps : float) : TriangulationOption :=
  fun o =>
    if (eps <=? 0)%float then Err ErrWithEps
    else Ok (mkOptions eps).

(** [for _, set := range setters { err := set(&opts); ... }] *)
Fixpoint applySetters (setters : list TriangulationOption)
  (opts : TriangulationOptions) : result TriangulationOptions :=
  match setters with
  | [] => Ok opts
  | set :: rest => let* opts' := set opts in applySetters rest opts'
  end.

Definition PrevVertex (t : int3) (vIdx : Z) : result Z :=
  if vIdx =? at0 t then Ok (at2 t)
  else if vIdx =? at1 t then Ok (at0 t)
  else if vIdx =? at2 t then Ok (at1 t)
  else Err ErrPrevVertex.

Definition NextVertex (t : int3) (vIdx : Z) : result Z :=
  if vIdx =? at0 t then Ok (at1 t)
  else if vIdx =? at1 t then Ok (at2 t)
  else if vIdx =? at2 t then Ok (at0 t)
  else Err ErrNextVertex.

(** The sign test of [sortTriangleVerticesCCW]: [norm.Dot(p0.Vector) < 0]
    for [norm = (p1 - p0) x (p2 - p0)]. *)
Definition facesInward (p0 p1 p2 : s2.Point) : bool :=
  let norm := r3.Cross (r3.Sub (s2.Vector p1) (s2.Vector p0))
                       (r3.Sub (s2.Vector p2) (s2.Vector p0)) in
  (r3.Dot norm (s2.Vector p0) <? 0)%float.

(** The triangle is updated through the pointer: the result is its new
    value. *)
Definition sortTriangleVerticesCCW (t : int3) (v : s2.PointVector)
  : result int3 :=
  let* p0 := index v (at0 t) in
  let* p1 := index v (at1 t) in
  let* p2 := index v (at2 t) in
  if facesInward p0 p1 p2 then Ok (mkInt3 (at0 t) (at2 t) (at1 t))
  else Ok t.

(** [a[i], a[j] = a[j], a[i]] *)
Definition swap (a : list Z) (i j : Z) : result (list Z) :=
  let* x := index a i in
  let* y := index a j in
  let* a' := store a i y in
  store a' j x.

(** The inner loop [for j := ...; j < n; j++] of the incidence sort, with
    [k = n - j] iterations left; it stops at the first match. *)
Fixpoint findAndSwap (vIdx : Z) (tris : list int3) (nxt i j : Z) (k : nat)
  (incidentTris : list Z) : result (list Z) :=
  match k with
  | O => Ok incidentTris
  | S k' =>
      let* tj := index incidentTris j in
      let* tr := index tris tj in
      let* prv := orPanic (PrevVertex tr vIdx) in
      if nxt =? prv then swap incidentTris i j
      else findAndSwap vIdx tris nxt i (j + 1) k' incidentTris
  end.

(** One iteration of the outer loop, at position [i]. *)
Definition sortStep (vIdx : Z) (tris : list int3) (n i : Z)
  (incidentTris : list Z) : result (list Z) :=
  let* tp := index incidentTris (i - 1) in
  let* tr := index tris tp in
  let* nxt := orPanic (NextVertex tr vIdx) in
  findAndSwap vIdx tris nxt i (i + 1) (Z.to_nat (n - (i + 1))) incidentTris.

(** The slice is sorted in place: the result is its new contents. *)
Definition sortIncidentTriangleIndicesCCW (vIdx : Z) (incidentTris : list Z)
  (tris : list int3) : result (list Z) :=
  let n := len incidentTris in
  forFrom 1 (Z.to_nat (n - 1)) (sortStep vIdx tris n) incidentTris.

(** [vIdx+1] is a sum of [int]s: at [vIdx = maxInt] it is [minInt], the
    guard lets it pass, and the index expressions panic. *)
Definition IncidentTriangles (t : Triangulation) (vIdx : Z) : result (list Z) :=
  if (vIdx <? 0) || (addInt vIdx 1 >=? len (IncidentTriangleOffsets t))
  then Err ErrIncidentTriangles
  else
    let* start := index (IncidentTriangleOffsets t) vIdx in
    let* end_ := index (IncidentTriangleOffsets t) (addInt vIdx 1) in
    slice (IncidentTriangleIndices t) start end_.

Definition TriangleVertices (t : Triangulation) (tIdx : Z)
  : result (s2.Point * s2.Point * s2.Point) :=
  if (tIdx <? 0) || (tIdx >=? len (Triangles t))
  then Err ErrTriangleVertices
  else
    let* tri := index (Triangles t) tIdx in
    let* p0 := index (Vertices t) (at0 tri) in
    let* p1 := index (Vertices t) (at1 tri) in
    let* p2 := index (Vertices t) (at2 tri) in
    Ok (p0, p1, p2).

Definition withTriangles (t : Triangulation) (tris : list int3) : Triangulation :=
  mkTriangulation (Vertices t) tris (IncidentTriangleIndices t)
                  (IncidentTriangleOffsets t).

Definition withIndices (t : Triangulation) (inds : list Z) : Triangulation :=
  mkTriangulation (Vertices t) (Triangles t) inds (IncidentTriangleOffsets t).

Definition withOffsets (t : Triangulation) (offs : list Z) : Triangulation :=
  mkTriangulation (Vertices t) (Triangles t) (IncidentTriangleIndices t) offs.

(** Counting pass: [t.IncidentTriangleOffsets[idx+1]++]. *)
Definition countStep (_ : Z) (idx : Z) (offs : list Z) : result (list Z) :=
  let* c := index offs (idx + 1) in
  store offs (idx + 1) (c + 1).

(** Prefix sums: [t.IncidentTriangleOffsets[i+1] += t.IncidentTriangleOffsets[i]]. *)
Definition prefixStep (i : Z) (offs : list Z) : result (list Z) :=
  let* a := index offs (i + 1) in
  let* b := index offs i in
  store offs (i + 1) (a + b).

(** Placement of one corner: the body of [for j := range 3]. *)
Definition placeStep (indices : list Z) (i : Z) (j : Z)
  (st : Triangulation * list Z) : result (Triangulation * list Z) :=
  let '(t, nxt) := st in
  let base := i * 3 in
  let* v := index indices (base + j) in
  let* tri := index (Triangles t) i in
  let* tris := store (Triangles t) i (set3 tri j v) in
  let* pos := index nxt v in
  let* inds := store (IncidentTriangleIndices t) pos i in
  let* nxt' := store nxt v (pos + 1) in
  Ok (withIndices (withTriangles t tris) inds, nxt').

(** The body of [for i := range numTriangles]. *)
Definition placeTriangle (indices : list Z) (i : Z)
  (st : Triangulation * list Z) : result (Triangulation * list Z) :=
  let* st' := forRange 3 (placeStep indices i) st in
  let '(t, nxt) := st' in
  let* tri := index (Triangles t) i in
  let* tri' := sortTriangleVerticesCCW tri (Vertices t) in
  let* tris := store (Triangles t) i tri' in
  Ok (withTriangles t tris, nxt).

(** The body of the last loop: the slice returned by [IncidentTriangles]
    aliases [t.IncidentTriangleIndices] from position
    [t.IncidentTriangleOffsets[i]] on, and is sorted in place. *)
Definition sortSite (i : Z) (t : Triangulation) : result Triangulation :=
  let* incidentTriangles := IncidentTriangles t i in
  let* sorted := sortIncidentTriangleIndicesCCW i incidentTriangles (Triangles t) in
  let* start := index (IncidentTriangleOffsets t) i in
  Ok (withIndices t (writeBack (IncidentTriangleIndices t) start sorted)).

Section Builder.

(** The external hull routine, called as
    [qh.ConvexHull(r3vertices, true, true, opts.Eps)] and reduced to the
    [Indices] of the hull it returns. *)
Variable ConvexHull : list r3.Vector -> bool -> bool -> float -> list Z.

Definition NewTriangulation (vertices : s2.PointVector)
  (setters : list TriangulationOption) : result Triangulation :=
  let* opts := applySetters setters (mkOptions defaultEps) in
  let numVertices := len vertices in
  if numVertices <? 4 then Err ErrInsufficientVertices
  else
    let numTriangles := 2 * (numVertices - 2) in
    let t := mkTriangulation vertices
               (make (mkInt3 0 0 0) numTriangles)
               (make 0 (numTriangles * 3))
               (make 0 (numVertices + 1)) in
    let r3vertices := map s2.Vector vertices in
    let ch := ConvexHull r3vertices true true (Eps opts) in
    if negb (len ch =? numTriangles * 3) then Err ErrInconsistentIndices
    else
      let* offs := forEach ch countStep (IncidentTriangleOffsets t) in
      let* offs := forRange numVertices prefixStep offs in
      let t := withOffsets t offs in
      let* head := slice (IncidentTriangleOffsets t) 0 numVertices in
      let nxt := copy (make 0 numVertices) head in
      let* st := forRange numTriangles (placeTriangle ch) (t, nxt) in
      forRange numVertices sortSite (fst st).

End Builder.

End s2delaunay.

(** ** Package [s2voronoi] *)

Module s2voronoi.

Import s2delaunay.

Definition defaultEps : float := 0x1.19799812dea11p-40%float.

Record Diagram : Type := mkDiagram {
  Sites : s2.PointVector;
  Vertices : s2.PointVector;
  CellVertices : list Z;
  CellNeighbors : list Z;
  CellOffsets : list Z
}.

Definition triangleCircumcenter (p1 p2 p3 : s2.Point) : s2.Point :=
  let v1 := r3.Sub (s2.Vector p1) (s2.Vector p2) in
  let v2 := r3.Sub (s2.Vector p2) (s2.Vector p3) in
  let circumcenter := r3.Cross v1 v2 in
  let circumcenter :=
    if (r3.Dot circumcenter
          (r3.Add (r3.Add (s2.Vector p1) (s2.Vector p2)) (s2.Vector p3)) <? 0)%float
    then r3.Mul circumcenter (-1)%float
    else circumcenter in
  s2.mkPoint circumcenter.

(** [d.Vertices[i] = s2.Point{Vector: triangleCircumcenter(p0, p1, p2).Normalize()}].
    [NewDiagram] takes the values of [TriangleVertices], [IncidentTriangles]
    and [NextVertex] as they come; with the two-valued accessors of
    [s2delaunay] an error of theirs ends the construction. *)
Definition vertexStep (dt : Triangulation) (i : Z) (vertices : s2.PointVector)
  : result s2.PointVector :=
  let* ps := TriangleVertices dt i in
  let '(p0, p1, p2) := ps in
  store vertices i
    (s2.mkPoint (r3.Normalize (s2.Vector (triangleCircumcenter p0 p1 p2)))).

(** [d.CellNeighbors[offset+i] = s2delaunay.NextVertex(dt.Triangles[tIdx], vIdx)] *)
Definition neighborStep (dt : Triangulation) (vIdx offset : Z) (i : Z) (tIdx : Z)
  (neighbors : list Z) : result (list Z) :=
  let* tri := index (Triangles dt) tIdx in
  let* n := NextVertex tri vIdx in
  store neighbors (offset + i) n.

(** The body of [for vIdx := range dt.Vertices]. *)
Definition cellStep (dt : Triangulation) (vIdx : Z) (neighbors : list Z)
  : result (list Z) :=
  let* offset := index (IncidentTriangleOffsets dt) vIdx in
  let* it := IncidentTriangles dt vIdx in
  forEach it (neighborStep dt vIdx offset) neighbors.

Section Builder.

Variable ConvexHull : list r3.Vector -> bool -> bool -> float -> list Z.

Definition NewDiagram (sites : s2.PointVector) (eps : float) : result Diagram :=
  let eps := if (eps =? 0)%float then defaultEps else eps in
  let* dt := NewTriangulation ConvexHull sites [WithEps eps] in
  let numTriangles := len (Triangles dt) in
  let numNeighbors := len (IncidentTriangleIndices dt) in
  let* vertices :=
    forRange numTriangles (vertexStep dt)
      (make (s2.mkPoint (r3.mkVector 0 0 0)) numTriangles) in
  let* neighbors :=
    forRange (len (s2delaunay.Vertices dt)) (cellStep dt)
      (make 0 numNeighbors) in
  Ok (mkDiagram (s2delaunay.Vertices dt) vertices
        (IncidentTriangleIndices dt) neighbors
        (IncidentTriangleOffsets dt)).

End Builder.

Definition NumCells (d : Diagram) : Z := len (Sites d).

End s2voronoi.

(** ** The helper [cyclicEqual] of the package's tests *)

Module s2delaunay_test.

(** The inner loop [for j := range n], from [j] on with [k] iterations
    left: [false] at the first [j] with [a[(i+j)%n] != b[j]].  Go's [%]
    truncates, as [Z.rem] does. *)
Fixpoint matchFrom (a b : list Z) (n i j : Z) (k : nat) : result bool :=
  match k with
  | O => Ok true
  | S k' =>
      let* x := index a (Z.rem (i + j) n) in
      let* y := index b j in
      if negb (x =? y) then Ok false
      else matchFrom a b n i (j + 1) k'
  end.

(** The outer loop [for i := range n], from [i] on with [k] iterations
    left. *)
Fixpoint scanFrom (a b : list Z) (n i : Z) (k : nat) : result bool :=
  match k with
  | O => Ok false
  | S k' =>
      let* b0 := index b 0 in
      let* ai := index a i in
      if negb (b0 =? ai) then scanFrom a b n (i + 1) k'
      else
        let* equal := matchFrom a b n i 0 (Z.to_nat n) in
        if equal then Ok true else scanFrom a b n (i + 1) k'
  end.

Definition cyclicEqual (a b : list Z) : result bool :=
  if negb (len a =? len b) then Ok false
  else scanFrom a b (len a) 0 (Z.to_nat (len a)).

End s2delaunay_test.

(** ** Vocabulary of the properties *)

Section Vocabulary.

Import s2delaunay.

(** [vIdx] is one of the three entries of [t]. *)
Definition vertexOf (t : int3) (vIdx : Z) : Prop :=
  vIdx = at0 t \/ vIdx = at1 t \/ vIdx = at2 t.

(** The three entries of [t] are pairwise different. *)
Definition distinct3 (t : int3) : Prop :=
  at0 t <> at1 t /\ at1 t <> at2 t /\ at0 t <> at2 t.

(** [NextVertex] and [PrevVertex] succeed at [vIdx] and undo each other. *)
Definition mutuallyInverse (t : int3) (vIdx : Z) : Prop :=
  exists n p,
    NextVertex t vIdx = Ok n /\ PrevVertex t vIdx = Ok p /\
    PrevVertex t n = Ok vIdx /\ NextVertex t p = Ok vIdx.

(** What a successful run of [NewTriangulation] went through: the
    accepted options, the counts of the counting pass, the offsets after
    the prefix sums, the state after the placement pass, and the sorts. *)
Definition phases
  (ConvexHull : list r3.Vector -> bool -> bool -> float -> list Z)
  (vertices : s2.PointVector) (setters : list TriangulationOption)
  (t : Triangulation) (opts : TriangulationOptions) (counts offsets : list Z)
  (placed : Triangulation * list Z) : Prop :=
  let ch := ConvexHull (map s2.Vector vertices) true true (Eps opts) in
  let N := len vertices in
  let T := 2 * (len vertices - 2) in
  applySetters setters (mkOptions defaultEps) = Ok opts /\
  4 <= N /\
  len ch = T * 3 /\
  forEach ch countStep (make 0 (N + 1)) = Ok counts /\
  forRange N prefixStep counts = Ok offsets /\
  forRange T (placeTriangle ch)
    (mkTriangulation vertices (make (mkInt3 0 0 0) T) (make 0 (T * 3)) offsets,
     copy (make 0 N) (take (Z.to_nat N) offsets)) = Ok placed /\
  forRange N sortSite (fst placed) = Ok t.

(** How many entries of a hull output satisfy a test. *)
Fixpoint countIf (f : Z -> bool) (l : list Z) : Z :=
  match l with
  | [] => 0
  | x :: l' => (if f x then 1 else 0) + countIf f l'
  end.

(** The number of corners of the hull output at site [v], and at sites
    below [k]. *)
Definition occ (ch : list Z) (v : Z) : Z := countIf (Z.eqb v) ch.
Definition below (ch : list Z) (k : Z) : Z := countIf (fun x => x <? k) ch.

(** The [i]-th triple of the hull output, as the placement pass reads it. *)
Definition rawTriangle (ch : list Z) (i : Z) : option int3 :=
  match ch !! Z.to_nat (i * 3), ch !! Z.to_nat (i * 3 + 1),
        ch !! Z.to_nat (i * 3 + 2) with
  | Some a, Some b, Some c => Some (mkInt3 a b c)
  | _, _, _ => None
  end.

(** The facts about a triangulation built from the hull output [ch] of
    [N] sites that the later proofs start from: sizes, the offsets as
    counts of corners at lower sites, the triangles as the oriented
    triples of the hull output, and a number of sites that is an [int]. *)
Definition builtFrom (ch : list Z) (vertices : s2.PointVector)
  (t : Triangulation) : Prop :=
  let N := len vertices in
  let T := 2 * (N - 2) in
  4 <= N /\
  len ch = T * 3 /\
  Vertices t = vertices /\
  len (Triangles t) = T /\
  len (IncidentTriangleIndices t) = T * 3 /\
  len (IncidentTriangleOffsets t) = N + 1 /\
  Forall (fun x => 0 <= x < N) ch /\
  (forall k, 0 <= k <= N ->
             IncidentTriangleOffsets t !! Z.to_nat k = Some (below ch k)) /\
  (forall k, 0 <= k < T ->
             exists raw tri,
               rawTriangle ch k = Some raw /\
               Triangles t !! Z.to_nat k = Some tri /\
               sortTriangleVerticesCCW raw vertices = Ok tri) /\
  N <= maxInt.

(** Modelled from the spec: the cell views [Cell.VertexIndices] and
    [Cell.NeighborIndices], whose source file is missing: slice views into
    the diagram's shared arrays over [[CellOffsets[i], CellOffsets[i+1])],
    as the tests of the cell views read them. *)
Definition VertexIndices (d : s2voronoi.Diagram) (i : Z) : result (list Z) :=
  let* lo := index (s2voronoi.CellOffsets d) i in
  let* hi := index (s2voronoi.CellOffsets d) (i + 1) in
  slice (s2voronoi.CellVertices d) lo hi.

Definition NeighborIndices (d : s2voronoi.Diagram) (i : Z) : result (list Z) :=
  let* lo := index (s2voronoi.CellOffsets d) i in
  let* hi := index (s2voronoi.CellOffsets d) (i + 1) in
  slice (s2voronoi.CellNeighbors d) lo hi.

(** The tolerance [NewDiagram] hands to the triangulation builder. *)
Definition effectiveEps (eps : float) : float :=
  if (eps =? 0)%float then s2voronoi.defaultEps else eps.

(** The Voronoi vertex of a triangle in the words of the specification:
    two edge vectors, their cross product, its sign flipped when its dot
    product with the sum of the three sites is negative, normalized. *)
Definition outwardNormal (p0 p1 p2 : s2.Point) : r3.Vector :=
  let e1 := r3.Sub (s2.Vector p0) (s2.Vector p1) in
  let e2 := r3.Sub (s2.Vector p1) (s2.Vector p2) in
  let n := r3.Cross e1 e2 in
  let sum := r3.Add (r3.Add (s2.Vector p0) (s2.Vector p1)) (s2.Vector p2) in
  if (r3.Dot n sum <? 0)%float then r3.Mul n (-1)%float else n.

Definition dualVertex (p0 p1 p2 : s2.Point) : s2.Point :=
  s2.mkPoint (r3.Normalize (outwardNormal p0 p1 p2)).

(** The exact value of a finite binary64 number, a rational. *)
Definition exact (x : float) : option Q :=
  match Prim2SF x with
  | S754_zero _ => Some 0%Q
  | S754_finite s m e =>
      let n := if s then Z.neg m else Z.pos m in
      Some (if 0 <=? e then inject_Z (n * 2 ^ e)
            else (n # Pos.pow 2 (Z.to_pos (- e)))%Q)
  | _ => None
  end.

(** The unit roundoff of binary64, [2^-53]. *)
Definition u53 : Q := (1 # 9007199254740992)%Q.

(** [r] is [e] with a relative error of at most [2^-53], as a binary64
    operation with the exact result [e] gives when nothing underflows or
    overflows. *)
Definition near (e r : Q) : bool := Qle_bool (Qabs (r - e)) (u53 * Qabs e).

(** [a * b] and [a + b] in binary64 have rounded accurately to [r]. *)
Definition mulAccurate (a b r : float) : bool :=
  match exact a, exact b, exact r with
  | Some a, Some b, Some r => near (a * b)%Q r
  | _, _, _ => false
  end.

Definition addAccurate (a b r : float) : bool :=
  match exact a, exact b, exact r with
  | Some a, Some b, Some r => near (a + b)%Q r
  | _, _, _ => false
  end.

(** [q] is positive and is the square root of [n] with a relative error of
    at most [2^-53]: [(1 - 2^-53)^2 * n <= q^2 <= (1 + 2^-53)^2 * n]. *)
Definition sqrtAccurate (n q : float) : bool :=
  match exact n, exact q with
  | Some n, Some q =>
      negb (Qle_bool q 0) &&
      Qle_bool ((1 - u53) * (1 - u53) * n) (q * q) &&
      Qle_bool (q * q) ((1 + u53) * (1 + u53) * n)
  | _, _ => false
  end.

(** [s] is [1 / q] with a relative error of at most [2^-53]:
    [|s * q - 1| <= 2^-53]. *)
Definition invAccurate (q s : float) : bool :=
  match exact q, exact s with
  | Some q, Some s => Qle_bool (Qabs (s * q - 1)) u53
  | _, _ => false
  end.

(** Every binary64 operation of [Normalize] on [v] has rounded
    accurately, and the squared norm it computed is not zero. *)
Definition roundsAccurately (v : r3.Vector) : bool :=
  let xx := (r3.X v * r3.X v)%float in
  let yy := (r3.Y v * r3.Y v)%float in
  let zz := (r3.Z v * r3.Z v)%float in
  let n2 := (xx + yy + zz)%float in
  let q := sqrt n2 in
  let s := (1 / q)%float in
  negb (n2 =? 0)%float &&
  mulAccurate (r3.X v) (r3.X v) xx && mulAccurate (r3.Y v) (r3.Y v) yy &&
  mulAccurate (r3.Z v) (r3.Z v) zz &&
  addAccurate xx yy (xx + yy)%float && addAccurate (xx + yy)%float zz n2 &&
  sqrtAccurate n2 q && invAccurate q s &&
  mulAccurate s (r3.X v) (s * r3.X v)%float &&
  mulAccurate s (r3.Y v) (s * r3.Y v)%float &&
  mulAccurate s (r3.Z v) (s * r3.Z v)%float.

(** The exact squared norm of a vector of finite binary64 numbers. *)
Definition norm2Q (v : r3.Vector) : option Q :=
  match exact (r3.X v), exact (r3.Y v), exact (r3.Z v) with
  | Some x, Some y, Some z => Some (x * x + y * y + z * z)%Q
  | _, _, _ => None
  end.

(** [p] has unit norm within [eps], measured exactly:
    [(1 - eps)^2 <= |p|^2 <= (1 + eps)^2], for [0 <= eps < 1]. *)
Definition unitWithinExactly (eps : float) (p : s2.Point) : bool :=
  match norm2Q (s2.Vector p), exact eps with
  | Some n2, Some e =>
      Qle_bool ((1 - e) * (1 - e)) n2 && Qle_bool n2 ((1 + e) * (1 + e))
  | _, _ => false
  end.

(** [p] has unit norm within [eps]: [|p.Norm() - 1| <= eps]. *)
Definition unitWithin (eps : float) (p : s2.Point) : bool :=
  (abs (r3.Norm (s2.Vector p) - 1) <=? eps)%float.

(** [NextVertex(tris[t], v)] and [PrevVertex(tris[t], v)] when the
    triangle index is in range and [v] is a vertex of the triangle. *)
Definition nextAt (tris : list int3) (v t : Z) : option Z :=
  match index tris t with
  | Ok tri => match NextVertex tri v with Ok w => Some w | _ => None end
  | _ => None
  end.

Definition prevAt (tris : list int3) (v t : Z) : option Z :=
  match index tris t with
  | Ok tri => match PrevVertex tri v with Ok w => Some w | _ => None end
  | _ => None
  end.

(** Triangles [a] and [b] follow each other around [v]:
    [NextVertex(tris[a], v) == PrevVertex(tris[b], v)]. *)
Definition link (tris : list int3) (v a b : Z) : Prop :=
  exists w, nextAt tris v a = Some w /\ prevAt tris v b = Some w.

Definition linkb (tris : list int3) (v a b : Z) : bool :=
  match nextAt tris v a, prevAt tris v b with
  | Some w, Some w' => w =? w'
  | _, _ => false
  end.

(** The order of the claims: every two consecutive entries of the slice
    are linked. *)
Definition fanOrdered (tris : list int3) (v : Z) (s : list Z) : Prop :=
  forall (k : nat) a b, s !! k = Some a -> s !! S k = Some b -> link tris v a b.

Fixpoint fanOrderedb (tris : list int3) (v : Z) (s : list Z) : bool :=
  match s with
  | a :: ((b :: _) as s') => linkb tris v a b && fanOrderedb tris v s'
  | _ => true
  end.

(** The same, entry after entry, starting after a triangle [a]. *)
Fixpoint chainFrom (tris : list int3) (v a : Z) (l : list Z) : Prop :=
  match l with
  | [] => True
  | b :: l' => link tris v a b /\ chainFrom tris v b l'
  end.

(** A closed fan: a chain that returns to its first triangle. *)
Definition closedChain (tris : list int3) (v : Z) (c : list Z) : Prop :=
  match c with
  | [] => True
  | h :: c' => chainFrom tris v h (c' ++ [h])
  end.

(** The incident triangles of [v] form one closed fan: they can be
    arranged in a closed chain, and no two of them have the same previous
    vertex at [v]. *)
Definition closedFan (tris : list int3) (v : Z) (s : list Z) : Prop :=
  exists c, c ≡ₚ s /\ closedChain tris v c /\ NoDup (map (prevAt tris v) c).

(** What the incidence sort does establish, whatever its input: each
    entry either follows its predecessor or no later entry does. *)
Fixpoint greedyFrom (tris : list int3) (v a : Z) (l : list Z) : Prop :=
  match l with
  | [] => True
  | b :: l' =>
      (link tris v a b \/ forall c, c ∈ l' -> ~ link tris v a c) /\
      greedyFrom tris v b l'
  end.

Definition greedy (tris : list int3) (v : Z) (s : list Z) : Prop :=
  match s with
  | [] => True
  | a :: l => greedyFrom tris v a l
  end.

(** The same up to position [i], by positions: the invariant of the outer
    loop. *)
Definition greedyUpTo (tris : list int3) (v : Z) (i : Z) (s : list Z) : Prop :=
  forall (k : nat) a b,
    Z.of_nat k + 1 < i ->
    s !! k = Some a -> s !! S k = Some b ->
    link tris v a b \/
    forall (j : nat) c, (S k < j)%nat -> s !! j = Some c -> ~ link tris v a c.

(** The orientation test in the words of the specification: the sign of
    the cross product of two edge vectors against the sum of the three
    vertices. *)
Definition facesInwardBySum (p0 p1 p2 : s2.Point) : bool :=
  let norm := r3.Cross (r3.Sub (s2.Vector p1) (s2.Vector p0))
                       (r3.Sub (s2.Vector p2) (s2.Vector p0)) in
  (r3.Dot norm
     (r3.Add (r3.Add (s2.Vector p0) (s2.Vector p1)) (s2.Vector p2)) <? 0)%float.

(** [t] is the index of a triangle that has [v] as a vertex. *)
Definition incident (tris : list int3) (v t : Z) : Prop :=
  exists tri, index tris t = Ok tri /\ vertexOf tri v.

(** The part of the incidence array that belongs to site [v], when the
    offsets are the counts [below ch]. *)
Definition seg (ch : list Z) (v : Z) (inds : list Z) : list Z :=
  take (Z.to_nat (below ch (v + 1) - below ch v))
       (drop (Z.to_nat (below ch v)) inds).

(** The state of the placement pass after [m] corners of the hull output:
    the cursor of every site stands behind the corners placed for it, and
    the corner at position [m'] of the hull output has put its triangle
    [m' / 3] at the place of its rank among the corners of its site. *)
Definition csrInv (ch : list Z) (N : Z) (m : nat)
  (st : Triangulation * list Z) : Prop :=
  (forall v, 0 <= v < N ->
             snd st !! Z.to_nat v = Some (below ch v + occ (take m ch) v)) /\
  (forall (m' : nat) v,
      (m' < m)%nat -> ch !! m' = Some v ->
      IncidentTriangleIndices (fst st)
        !! Z.to_nat (below ch v + occ (take m' ch) v)
      = Some (Z.of_nat m' / 3)).

(** Every corner of the hull output has put the index of its triangle at
    its rank in the part of its site. *)
Definition placedBy (ch inds : list Z) : Prop :=
  forall (m : nat) v, ch !! m = Some v ->
    inds !! Z.to_nat (below ch v + occ (take m ch) v) = Some (Z.of_nat m / 3).

(** The incidence array lists, in the part of every site, the triangles
    of the corners of the hull output at that site. *)
Definition csrOf (ch : list Z) (N : Z) (inds : list Z) : Prop :=
  forall v, 0 <= v < N ->
    forall x, x ∈ seg ch v inds <->
              exists m' : nat, ch !! m' = Some v /\ x = Z.of_nat m' / 3.

(** The orders in which a hull routine can list faces: the six orders of
    the vertices of a triangle, the orders of a list, and the listings of
    given faces with the vertices of every face in every order. *)
Definition orders3 (f : list Z) : list (list Z) :=
  match f with
  | [a; b; c] => [[a; b; c]; [a; c; b]; [b; a; c]; [b; c; a]; [c; a; b]; [c; b; a]]
  | _ => []
  end.

Fixpoint inserts {A} (x : A) (l : list A) : list (list A) :=
  match l with
  | [] => [[x]]
  | y :: l' => (x :: l) :: map (cons y) (inserts x l')
  end.

Fixpoint orders {A} (l : list A) : list (list A) :=
  match l with
  | [] => [[]]
  | x :: l' => flat_map (inserts x) (orders l')
  end.

Fixpoint vertexOrders (fs : list (list Z)) : list (list Z) :=
  match fs with
  | [] => [[]]
  | f :: fs' => flat_map (fun p => map (app p) (vertexOrders fs')) (orders3 f)
  end.

(** A property of every listing of the faces [fs]. *)
Definition everyListing (fs : list (list Z)) (P : list Z -> Prop) : Prop :=
  Forall (fun fs' => Forall P (vertexOrders fs')) (orders fs).

Definition everyListingb (fs : list (list Z)) (f : list Z -> bool) : bool :=
  forallb (fun fs' => forallb f (vertexOrders fs')) (orders fs).

(** The four faces of the hull of four sites that are not in one plane. *)
Definition tetraFaces : list (list Z) := [[0; 1; 2]; [0; 1; 3]; [0; 2; 3]; [1; 2; 3]].

(** A hull routine that answers with the listing [ch]. *)
Definition hullListing (ch : list Z)
  : list r3.Vector -> bool -> bool -> float -> list Z :=
  fun _ _ _ _ => ch.

(** The build from the listing [ch] succeeds and leaves the slice of some
    site out of fan order. *)
Definition someSliceUnordered (sites : s2.PointVector) (ch : list Z) : bool :=
  match NewTriangulation (hullListing ch) sites [] with
  | Ok t =>
      existsb (fun v => match IncidentTriangles t v with
                        | Ok s => negb (fanOrderedb (Triangles t) v s)
                        | _ => false
                        end)
              (map Z.of_nat (seq 0 (length sites)))
  | _ => false
  end.

(** The diagram from the listing [ch] is built and has a vertex that is
    not of unit norm within [eps], measured exactly. *)
Definition someVertexOffUnit (sites : s2.PointVector) (eps : float)
  (ch : list Z) : bool :=
  match s2voronoi.NewDiagram (hullListing ch) sites eps with
  | Ok d => negb (forallb (unitWithinExactly eps) (s2voronoi.Vertices d))
  | _ => false
  end.

(** [b] is [a] read cyclically from position [i], at the positions from
    [from] on; both have [n] entries. *)
Definition readFrom (a b : list Z) (n i from : Z) : Prop :=
  forall d : nat, from <= Z.of_nat d < n ->
    a !! Z.to_nat ((i + Z.of_nat d) mod n) = b !! d.

End Vocabulary.

(** ** Concrete inputs *)

Module Examples.

Import s2delaunay.

Definition point (x y z : float) : s2.Point := s2.mkPoint (r3.mkVector x y z).

(** [1/sqrt 3] in binary64. *)
Definition c3 : float := 0x1.279a74590331cp-1%float.

(** The regular tetrahedron inscribed in the unit sphere. *)
Definition tetra : s2.PointVector :=
  [ point c3 c3 c3; point c3 (- c3) (- c3);
    point (- c3) c3 (- c3); point (- c3) (- c3) c3 ]%float.

(** A hull routine that answers with the four faces of a tetrahedron. *)
Definition tetraHull (_ : list r3.Vector) (_ _ : bool) (_ : float) : list Z :=
  [0; 1; 2;  0; 1; 3;  0; 2; 3;  1; 2; 3].

Definition threeSites : s2.PointVector :=
  [ point 1 0 0; point 0 1 0; point 0 0 1 ]%float.

Definition noTriangulation : Triangulation := mkTriangulation [] [] [] [].

Definition noDiagram : s2voronoi.Diagram := s2voronoi.mkDiagram [] [] [] [] [].

(** The triangulation and the diagram of the regular tetrahedron. *)
Definition tetraTriangulation : Triangulation :=
  Eval vm_compute in
    match NewTriangulation tetraHull tetra [] with
    | Ok t => t
    | _ => noTriangulation
    end.

Definition tetraDiagram : s2voronoi.Diagram :=
  Eval vm_compute in
    match s2voronoi.NewDiagram tetraHull tetra 0 with
    | Ok d => d
    | _ => noDiagram
    end.

(** Three unit vectors that lie, up to rounding, on one great circle, and
    a tetrahedron that has them as a face. *)
Definition q0 : s2.Point :=
  point 0x1.c72b1fe0c055ap-1 0x1.8624f6c0a4dbbp-2 0x1.0418a4806de7dp-2.
Definition q1 : s2.Point :=
  point (-0x1.dfc40b3da8832p-1) (-0x1.3fd8077e70577p-3) (-0x1.3fd8077e70577p-2).
Definition q2 : s2.Point :=
  point 0x1.c9f25c5bfedd9p-2 0x1.c9f25c5bfedd9p-1 0.

Definition thinTetra : s2.PointVector := [ q0; q1; q2; point 0 0 1 ].

(** A hull output of the right size that is not a closed surface: the
    face [(0, 1, 2)] comes twice and the face [(0, 1, 3)] is missing. *)
Definition brokenHull (_ : list r3.Vector) (_ _ : bool) (_ : float) : list Z :=
  [0; 1; 2;  0; 1; 2;  0; 2; 3;  1; 2; 3].

Definition brokenTriangulation : Triangulation :=
  Eval vm_compute in
    match NewTriangulation brokenHull tetra [] with
    | Ok t => t
    | _ => noTriangulation
    end.

(** A hull output of the right size whose last entry, 4, is not the index
    of one of four sites. *)
Definition strayHull (_ : list r3.Vector) (_ _ : bool) (_ : float) : list Z :=
  [0; 1; 2;  0; 1; 3;  0; 2; 3;  1; 2; 4].

(** Four unit vectors of the upper hemisphere: their hull, a tetrahedron,
    does not contain the centre of the sphere. *)
Definition hemi : s2.PointVector :=
  [ point 0 0 1; point 0.6 0 0.8; point 0 0.6 0.8;
    point (-0.6) (-0.6) 0.5291502622129182 ]%float.

(** The hull of [hemi], its four faces counter-clockwise seen from
    outside. *)
Definition hemiHull (_ : list r3.Vector) (_ _ : bool) (_ : float) : list Z :=
  [0; 1; 2;  0; 3; 1;  0; 2; 3;  1; 3; 2].

Definition hemiTriangulation : Triangulation :=
  Eval vm_compute in
    match NewTriangulation hemiHull hemi [] with
    | Ok t => t
    | _ => noTriangulation
    end.

(** Three sites of norm 1 that are [1e-200] apart, and the opposite site. *)
Definition closeSites : s2.PointVector :=
  [ point 1 0 0; point 1 1e-200 0; point 1 0 1e-200; point (-1) 0 0 ]%float.

(** A tetrahedron with three sites on the coordinate axes. *)
Definition axisTetra : s2.PointVector :=
  [ point 1 0 0; point 0 1 0; point 0 0 1; point (- c3) (- c3) (- c3) ]%float.

(** Its diagram, built with the tolerance [1e-16]. *)
Definition axisDiagram : s2voronoi.Diagram :=
  Eval vm_compute in
    match s2voronoi.NewDiagram tetraHull axisTetra 1e-16 with
    | Ok d => d
    | _ => noDiagram
    end.

End Examples.

(** ** Basic facts about outcomes, slices and loops *)

Lemma bind_Ok_inv {A B} (r : result A) (k : A -> result B) (b : B) :
  bind r k = Ok b -> exists a, r = Ok a /\ k a = Ok b.
Proof. destruct r as [a| |]; simpl; intros H; try discriminate. eauto. Qed.

Lemma orPanic_Ok_inv {A} (r : result A) (a : A) : orPanic r = Ok a -> r = Ok a.
Proof. destruct r; simpl; congruence. Qed.

(** Peel the successful binds off a hypothesis [H : ... = Ok _]. *)
Ltac ok_inv H :=
  repeat
    (let a := fresh "x" in
     let E := fresh "E" in
     apply bind_Ok_inv in H; destruct H as (a & E & H)).

Lemma index_Ok_inv {A} (a : list A) (i : Z) (x : A) :
  index a i = Ok x -> 0 <= i < len a /\ a !! Z.to_nat i = Some x.
Proof.
  unfold index, len. destruct (Z.ltb_spec i 0); [discriminate|].
  destruct (a !! Z.to_nat i) eqn:E; [|discriminate].
  intros [= ->]. split; [|reflexivity].
  apply lookup_lt_Some in E. lia.
Qed.

Lemma index_Ok {A} (a : list A) (i : Z) (x : A) :
  0 <= i -> a !! Z.to_nat i = Some x -> index a i = Ok x.
Proof.
  intros Hi E. unfold index. destruct (Z.ltb_spec i 0); [lia|]. now rewrite E.
Qed.

Lemma store_Ok_inv {A} (a a' : list A) (i : Z) (x : A) :
  store a i x = Ok a' -> 0 <= i < len a /\ a' = <[Z.to_nat i := x]> a.
Proof.
  unfold store, len.
  destruct (Z.leb_spec 0 i), (Z.ltb_spec i (Z.of_nat (length a)));
    simpl; try discriminate.
  intros [= <-]. split; [lia | reflexivity].
Qed.

Lemma store_length {A} (a a' : list A) (i : Z) (x : A) :
  store a i x = Ok a' -> length a' = length a.
Proof. intros H. apply store_Ok_inv in H as [_ ->]. apply length_insert. Qed.

Lemma slice_Ok_inv {A} (a s : list A) (lo hi : Z) :
  slice a lo hi = Ok s ->
  0 <= lo <= hi /\ hi <= len a /\
  s = take (Z.to_nat (hi - lo)) (drop (Z.to_nat lo) a).
Proof.
  unfold slice.
  destruct (Z.leb_spec 0 lo), (Z.leb_spec lo hi), (Z.leb_spec hi (len a));
    simpl; try discriminate.
  intros [= <-]. repeat split; lia.
Qed.

Lemma make_length {A} (zero : A) (n : Z) : length (make zero n) = Z.to_nat n.
Proof. apply length_replicate. Qed.

(** The loop rule: an invariant kept by every successful iteration holds
    when the loop ends. *)
Lemma forallb_Forall {A} (f : A -> bool) (P : A -> Prop) (l : list A) :
  (forall x, f x = true -> P x) -> forallb f l = true -> Forall P l.
Proof.
  intros HP. induction l as [|x l IH]; simpl; intros H; constructor.
  - apply HP. now apply andb_prop in H as [H _].
  - apply IH. now apply andb_prop in H as [_ H].
Qed.

Lemma wrap_small (z : Z) : minInt <= z <= maxInt -> wrap z = z.
Proof.
  unfold wrap, minInt, maxInt. intros H.
  rewrite Z.mod_small by lia. lia.
Qed.

Lemma wrap_le (z : Z) : minInt <= z -> wrap z <= z.
Proof.
  unfold wrap, minInt. intros H.
  pose proof (Z.mod_le (z + 2 ^ 63) (2 ^ 64) ltac:(lia) ltac:(lia)). lia.
Qed.

Lemma addInt_maxInt : addInt maxInt 1 = minInt.
Proof. reflexivity. Qed.

(** Every iteration of a loop that ended normally ended normally. *)
Lemma forFrom_ran {St} (body : Z -> St -> result St) :
  forall (n : nat) (from : Z) (s s' : St),
    forFrom from n body s = Ok s' ->
    forall k : nat, (k < n)%nat ->
      exists x x', body (from + Z.of_nat k) x = Ok x'.
Proof.
  induction n as [|n IH]; intros from s s' H k Hk; [lia|].
  simpl in H. apply bind_Ok_inv in H as (s1 & E & H).
  destruct k as [|k].
  - exists s, s1. now rewrite Z.add_0_r.
  - destruct (IH _ _ _ H k ltac:(lia)) as (x & x' & Hx).
    exists x, x'. now replace (from + Z.of_nat (S k)) with (from + 1 + Z.of_nat k)
      by lia.
Qed.

Lemma forFrom_inv {St} (Inv : Z -> St -> Prop) (body : Z -> St -> result St) :
  forall (n : nat) (from : Z) (s s' : St),
    Inv from s ->
    (forall i x x', from <= i < from + Z.of_nat n ->
                    Inv i x -> body i x = Ok x' -> Inv (i + 1) x') ->
    forFrom from n body s = Ok s' ->
    Inv (from + Z.of_nat n) s'.
Proof.
  induction n as [|n IH]; intros from s s' H0 Hstep Hrun; simpl in Hrun.
  - injection Hrun as <-. now replace (from + Z.of_nat 0) with from by lia.
  - ok_inv Hrun.
    replace (from + Z.of_nat (S n)) with ((from + 1) + Z.of_nat n) by lia.
    eapply IH; [ | | exact Hrun].
    + eapply Hstep; [|exact H0|exact E]. lia.
    + intros i y y' Hi. apply Hstep. lia.
Qed.

Lemma forRange_inv {St} (Inv : Z -> St -> Prop) (body : Z -> St -> result St)
  (n : Z) (s s' : St) :
  0 <= n ->
  Inv 0 s ->
  (forall i x x', 0 <= i < n -> Inv i x -> body i x = Ok x' -> Inv (i + 1) x') ->
  forRange n body s = Ok s' ->
  Inv n s'.
Proof.
  intros Hn H0 Hstep Hrun. unfold forRange in Hrun.
  replace n with (0 + Z.of_nat (Z.to_nat n)) at 1 by lia.
  eapply forFrom_inv; [exact H0| |exact Hrun].
  intros i x x' Hi. apply Hstep. lia.
Qed.

Lemma forEachFrom_inv {A St} (Inv : nat -> St -> Prop)
  (body : Z -> A -> St -> result St) :
  forall (a : list A) (done : nat) (from : Z) (s s' : St),
    Inv done s ->
    (forall k x st st', a !! k = Some x -> Inv (done + k)%nat st ->
                        body (from + Z.of_nat k) x st = Ok st' ->
                        Inv (S (done + k)) st') ->
    forEachFrom from a body s = Ok s' ->
    Inv (done + length a)%nat s'.
Proof.
  induction a as [|x a IH]; intros done from s s' H0 Hstep Hrun; simpl in Hrun.
  - injection Hrun as <-. simpl. now rewrite Nat.add_0_r.
  - ok_inv Hrun.
    replace (done + length (x :: a))%nat with (S done + length a)%nat
      by (simpl; lia).
    eapply IH; [ | | exact Hrun].
    + specialize (Hstep 0%nat x s x0 eq_refl).
      rewrite Nat.add_0_r, Z.add_0_r in Hstep. now apply Hstep.
    + intros k y st st' Hk HI Hb.
      specialize (Hstep (S k) y st st' Hk).
      replace (done + S k)%nat with (S done + k)%nat in Hstep by lia.
      apply Hstep; [exact HI|].
      now replace (from + Z.of_nat (S k)) with (from + 1 + Z.of_nat k) by lia.
Qed.

(** ** [NextVertex] and [PrevVertex] *)

Section NextPrev.

Import s2delaunay.

Lemma NextVertex_Ok_vertexOf (t : int3) (v n : Z) :
  NextVertex t v = Ok n -> vertexOf t v.
Proof.
  unfold NextVertex, vertexOf.
  destruct (Z.eqb_spec v (at0 t)); [auto|].
  destruct (Z.eqb_spec v (at1 t)); [auto|].
  destruct (Z.eqb_spec v (at2 t)); [auto|discriminate].
Qed.

Lemma PrevVertex_Ok_vertexOf (t : int3) (v p : Z) :
  PrevVertex t v = Ok p -> vertexOf t v.
Proof.
  unfold PrevVertex, vertexOf.
  destruct (Z.eqb_spec v (at0 t)); [auto|].
  destruct (Z.eqb_spec v (at1 t)); [auto|].
  destruct (Z.eqb_spec v (at2 t)); [auto|discriminate].
Qed.

Lemma vertexOf_NextVertex (t : int3) (v : Z) :
  vertexOf t v -> exists n, NextVertex t v = Ok n.
Proof.
  unfold NextVertex, vertexOf. intros H.
  destruct (Z.eqb_spec v (at0 t)); [eauto|].
  destruct (Z.eqb_spec v (at1 t)); [eauto|].
  destruct (Z.eqb_spec v (at2 t)); [eauto|]. intuition congruence.
Qed.

Lemma vertexOf_PrevVertex (t : int3) (v : Z) :
  vertexOf t v -> exists p, PrevVertex t v = Ok p.
Proof.
  unfold PrevVertex, vertexOf. intros H.
  destruct (Z.eqb_spec v (at0 t)); [eauto|].
  destruct (Z.eqb_spec v (at1 t)); [eauto|].
  destruct (Z.eqb_spec v (at2 t)); [eauto|]. intuition congruence.
Qed.

(** C10 (amended): on a triangle whose three entries are pairwise
    different, [NextVertex] and [PrevVertex] succeed at each of its
    vertices and are mutually inverse there; at an index that is not an
    entry of the triangle (whatever the triangle) both return their
    error. *)
Theorem next_prev_inverse (t : int3) (v : Z) :
  (distinct3 t -> vertexOf t v -> mutuallyInverse t v) /\
  (~ vertexOf t v ->
   NextVertex t v = Err ErrNextVertex /\ PrevVertex t v = Err ErrPrevVertex).
Proof.
  unfold distinct3, vertexOf, mutuallyInverse, NextVertex, PrevVertex.
  split.
  - intros (H01 & H12 & H02) [-> | [-> | ->]].
    + exists (at1 t), (at2 t). rewrite !Z.eqb_refl.
      destruct (Z.eqb_spec (at1 t) (at0 t)); [congruence|].
      destruct (Z.eqb_spec (at2 t) (at0 t)); [congruence|].
      destruct (Z.eqb_spec (at2 t) (at1 t)); [congruence|]. auto.
    + exists (at2 t), (at0 t). rewrite !Z.eqb_refl.
      destruct (Z.eqb_spec (at1 t) (at0 t)); [congruence|].
      destruct (Z.eqb_spec (at2 t) (at0 t)); [congruence|].
      destruct (Z.eqb_spec (at2 t) (at1 t)); [congruence|]. auto.
    + exists (at0 t), (at1 t). rewrite !Z.eqb_refl.
      destruct (Z.eqb_spec (at1 t) (at0 t)); [congruence|].
      destruct (Z.eqb_spec (at2 t) (at0 t)); [congruence|].
      destruct (Z.eqb_spec (at2 t) (at1 t)); [congruence|]. auto.
  - intros H.
    destruct (Z.eqb_spec v (at0 t)); [tauto|].
    destruct (Z.eqb_spec v (at1 t)); [tauto|].
    destruct (Z.eqb_spec v (at2 t)); [tauto|]. auto.
Qed.

Lemma next_prev_inverse_witness :
  mutuallyInverse (mkInt3 1 2 3) 2 /\
  NextVertex (mkInt3 1 2 3) (-1) = Err ErrNextVertex /\
  PrevVertex (mkInt3 1 2 3) (-1) = Err ErrPrevVertex.
Proof.
  split.
  - apply (proj1 (next_prev_inverse (mkInt3 1 2 3) 2)).
    + unfold distinct3; simpl; lia.
    + unfold vertexOf; simpl; lia.
  - apply (proj2 (next_prev_inverse (mkInt3 1 2 3) (-1))).
    unfold vertexOf; simpl; lia.
Defined.

(** C10 as stated fails on a triangle that repeats an entry: in
    [(1, 1, 2)] the next vertex of [1] is [1], whose previous vertex is
    [2]. *)
Lemma next_prev_inverse_repeated_entry :
  ~ (forall t v, vertexOf t v -> mutuallyInverse t v).
Proof.
  intros H. destruct (H (mkInt3 1 1 2) 1) as (n & p & Hn & Hp & Hpn & Hnp).
  - unfold vertexOf; simpl; lia.
  - vm_compute in Hn. injection Hn as <-. vm_compute in Hpn. discriminate.
Qed.

End NextPrev.

(** ** Input validation *)

Section Validation.

Import s2delaunay.

Variable ConvexHull : list r3.Vector -> bool -> bool -> float -> list Z.

Lemma applySetters_app (pre post : list TriangulationOption)
  (o : TriangulationOptions) :
  applySetters (pre ++ post) o =
  let* o' := applySetters pre o in applySetters post o'.
Proof.
  revert o. induction pre as [|set pre IH]; intros o; simpl; [reflexivity|].
  destruct (set o); simpl; auto.
Qed.

Lemma NewTriangulation_few (vertices : s2.PointVector)
  (setters : list TriangulationOption) :
  len vertices < 4 ->
  NewTriangulation ConvexHull vertices setters =
  let* _ := applySetters setters (mkOptions defaultEps) in
  Err ErrInsufficientVertices.
Proof.
  intros H. unfold NewTriangulation.
  destruct (applySetters setters (mkOptions defaultEps)); simpl; auto.
  destruct (Z.ltb_spec (len vertices) 4); [reflexivity|lia].
Qed.

(** C8 (amended): with fewer than 4 sites no triangulation and no
    diagram is returned; the failure is [InsufficientInput] whenever the
    tolerance options are accepted (for the diagram: [eps] is 0, standing
    for the default, or is not [<= 0]).  An option that is rejected is
    reported first. *)
Theorem insufficient_input (vertices : s2.PointVector) :
  len vertices < 4 ->
  (forall setters t, NewTriangulation ConvexHull vertices setters <> Ok t) /\
  (forall setters opts,
      applySetters setters (mkOptions defaultEps) = Ok opts ->
      failsWith (NewTriangulation ConvexHull vertices setters) InsufficientInput) /\
  (forall eps d, s2voronoi.NewDiagram ConvexHull vertices eps <> Ok d) /\
  (forall eps, (eps =? 0)%float = true \/ (eps <=? 0)%float = false ->
      failsWith (s2voronoi.NewDiagram ConvexHull vertices eps) InsufficientInput).
Proof.
  intros H.
  assert (Hno : forall setters t,
             NewTriangulation ConvexHull vertices setters <> Ok t).
  { intros setters t. rewrite NewTriangulation_few by assumption.
    destruct (applySetters setters (mkOptions defaultEps)); simpl; congruence. }
  repeat split.
  - exact Hno.
  - intros setters opts Ho. rewrite NewTriangulation_few by assumption.
    rewrite Ho. simpl. exists ErrInsufficientVertices. auto.
  - intros eps d. unfold s2voronoi.NewDiagram. intros Hd. ok_inv Hd.
    now apply Hno in E.
  - intros eps Heps. unfold s2voronoi.NewDiagram.
    rewrite NewTriangulation_few by assumption.
    exists ErrInsufficientVertices. split; [|reflexivity].
    assert (Hset : forall o,
               WithEps (if (eps =? 0)%float then s2voronoi.defaultEps else eps) o
               = Ok (mkOptions
                       (if (eps =? 0)%float then s2voronoi.defaultEps else eps))).
    { intros o. unfold WithEps. destruct Heps as [-> | H0].
      - reflexivity.
      - destruct (eps =? 0)%float; [reflexivity|]. now rewrite H0. }
    simpl. rewrite Hset. reflexivity.
Qed.

(** C7 (amended): a tolerance option [WithEps eps] with [eps <= 0] makes
    the triangulation builder fail with [InvalidTolerance]; the diagram
    builder fails in the same way for [eps <= 0] other than 0, and takes
    [eps == 0] as "not given", building with the default; with no option
    the triangulation builder works with the default [1e-12]. *)
Theorem invalid_tolerance (vertices : s2.PointVector) (eps : float) :
  (forall pre post o,
      (eps <=? 0)%float = true ->
      applySetters pre (mkOptions defaultEps) = Ok o ->
      failsWith (NewTriangulation ConvexHull vertices (pre ++ WithEps eps :: post))
                InvalidTolerance) /\
  ((eps <=? 0)%float = true -> (eps =? 0)%float = false ->
   failsWith (s2voronoi.NewDiagram ConvexHull vertices eps) InvalidTolerance) /\
  ((eps =? 0)%float = true ->
   s2voronoi.NewDiagram ConvexHull vertices eps =
   s2voronoi.NewDiagram ConvexHull vertices 1e-12%float) /\
  NewTriangulation ConvexHull vertices [] =
  NewTriangulation ConvexHull vertices [WithEps 1e-12%float].
Proof.
  repeat split.
  - intros pre post o Hle Hpre. exists ErrWithEps. split; [|reflexivity].
    unfold NewTriangulation. rewrite applySetters_app, Hpre. simpl.
    unfold WithEps. now rewrite Hle.
  - intros Hle Hne. exists ErrWithEps. split; [|reflexivity].
    unfold s2voronoi.NewDiagram, NewTriangulation. rewrite Hne. simpl.
    unfold WithEps. now rewrite Hle.
  - intros H0. unfold s2voronoi.NewDiagram. rewrite H0. reflexivity.
Qed.

End Validation.

(** ** The phases of [NewTriangulation] *)

Section Phases.

Import s2delaunay.

Variable ConvexHull : list r3.Vector -> bool -> bool -> float -> list Z.

Lemma NewTriangulation_Ok_inv (vertices : s2.PointVector)
  (setters : list TriangulationOption) (t : Triangulation) :
  NewTriangulation ConvexHull vertices setters = Ok t ->
  exists opts counts offsets placed,
    phases ConvexHull vertices setters t opts counts offsets placed.
Proof.
  unfold NewTriangulation. intros H. ok_inv H.
  destruct (Z.ltb_spec (len vertices) 4) as [|HN]; [discriminate|].
  destruct (Z.eqb_spec
              (len (ConvexHull (map s2.Vector vertices) true true (Eps x)))
              (2 * (len vertices - 2) * 3)) as [Hch|]; [|discriminate].
  simpl in H. ok_inv H. simpl in *.
  apply slice_Ok_inv in E2 as (_ & _ & ->).
  rewrite Z.sub_0_r in E3. simpl in E3.
  exists x, x0, x1, x3. unfold phases. auto 10.
Qed.

(** *** Shapes: what the loops leave untouched *)

Lemma swap_length (a a' : list Z) (i j : Z) :
  swap a i j = Ok a' -> length a' = length a.
Proof.
  unfold swap. intros H. ok_inv H.
  apply store_length in H, E1. congruence.
Qed.

Lemma findAndSwap_length (vIdx : Z) (tris : list int3) (nxt i : Z) :
  forall (k : nat) (j : Z) (a a' : list Z),
    findAndSwap vIdx tris nxt i j k a = Ok a' -> length a' = length a.
Proof.
  induction k as [|k IH]; intros j a a' H; simpl in H.
  - now injection H as <-.
  - ok_inv H. destruct (nxt =? x1).
    + now apply swap_length in H.
    + now apply IH in H.
Qed.

Lemma sortStep_length (vIdx : Z) (tris : list int3) (n i : Z) (a a' : list Z) :
  sortStep vIdx tris n i a = Ok a' -> length a' = length a.
Proof.
  unfold sortStep. intros H. ok_inv H. now apply findAndSwap_length in H.
Qed.

Lemma sort_length (vIdx : Z) (tris : list int3) (a a' : list Z) :
  sortIncidentTriangleIndicesCCW vIdx a tris = Ok a' -> length a' = length a.
Proof.
  unfold sortIncidentTriangleIndicesCCW. intros H.
  apply (forFrom_inv (fun _ x => length x = length a)) in H; auto.
  intros i x x' _ Hx Hs. apply sortStep_length in Hs. congruence.
Qed.

Lemma writeBack_length {A} (a s : list A) (lo : Z) :
  0 <= lo -> (Z.to_nat lo + length s <= length a)%nat ->
  length (writeBack a lo s) = length a.
Proof.
  intros Hlo Hle. unfold writeBack.
  rewrite !length_app, length_take, length_drop. lia.
Qed.

Lemma IncidentTriangles_Ok_inv (t : Triangulation) (v : Z) (s : list Z) :
  IncidentTriangles t v = Ok s ->
  exists lo hi,
    0 <= v /\ 0 <= addInt v 1 < len (IncidentTriangleOffsets t) /\
    IncidentTriangleOffsets t !! Z.to_nat v = Some lo /\
    IncidentTriangleOffsets t !! Z.to_nat (addInt v 1) = Some hi /\
    0 <= lo <= hi /\ hi <= len (IncidentTriangleIndices t) /\
    s = take (Z.to_nat (hi - lo)) (drop (Z.to_nat lo) (IncidentTriangleIndices t)).
Proof.
  unfold IncidentTriangles.
  destruct (Z.ltb_spec v 0) as [|Hv]; simpl; [discriminate|].
  destruct (Z.geb_spec (addInt v 1) (len (IncidentTriangleOffsets t)))
    as [|Hv1]; [discriminate|].
  intros H. ok_inv H.
  apply index_Ok_inv in E as [_ E], E0 as [Hw E0].
  apply slice_Ok_inv in H as (Hlo & Hhi & ->).
  exists x, x0. repeat split; auto; lia.
Qed.

(** At [maxInt] the sum [vIdx+1] has wrapped around to a negative index. *)
Lemma IncidentTriangles_maxInt (t : Triangulation) (s : list Z) :
  IncidentTriangles t maxInt <> Ok s.
Proof.
  intros H. apply IncidentTriangles_Ok_inv in H as (_ & _ & _ & H & _).
  rewrite addInt_maxInt in H. unfold minInt in H. lia.
Qed.

Lemma sortSite_shape (i : Z) (t t' : Triangulation) :
  sortSite i t = Ok t' ->
  Vertices t' = Vertices t /\ Triangles t' = Triangles t /\
  IncidentTriangleOffsets t' = IncidentTriangleOffsets t /\
  length (IncidentTriangleIndices t') = length (IncidentTriangleIndices t).
Proof.
  unfold sortSite. intros H. ok_inv H. injection H as <-. simpl.
  repeat split; auto.
  apply IncidentTriangles_Ok_inv in E
    as (lo & hi & Hv & _ & Hlo & _ & Hle & Hhi & ->).
  apply index_Ok_inv in E1 as [_ E1].
  assert (x1 = lo) as -> by congruence.
  apply sort_length in E0. rewrite length_take, length_drop in E0.
  unfold len in Hhi. apply writeBack_length; lia.
Qed.

Lemma sortPhase_shape (n : Z) (t t' : Triangulation) :
  forRange n sortSite t = Ok t' ->
  Vertices t' = Vertices t /\ Triangles t' = Triangles t /\
  IncidentTriangleOffsets t' = IncidentTriangleOffsets t /\
  length (IncidentTriangleIndices t') = length (IncidentTriangleIndices t).
Proof.
  unfold forRange. intros H.
  apply (forFrom_inv (fun _ x =>
           Vertices x = Vertices t /\ Triangles x = Triangles t /\
           IncidentTriangleOffsets x = IncidentTriangleOffsets t /\
           length (IncidentTriangleIndices x) = length (IncidentTriangleIndices t)))
    in H; auto.
  intros i x x' _ (H1 & H2 & H3 & H4) Hs.
  apply sortSite_shape in Hs as (G1 & G2 & G3 & G4).
  repeat split; congruence.
Qed.

(** The shape of the state of the placement pass. *)
Definition placeShape (vertices : s2.PointVector) (offsets : list Z)
  (T N : Z) (st : Triangulation * list Z) : Prop :=
  Vertices (fst st) = vertices /\
  IncidentTriangleOffsets (fst st) = offsets /\
  len (Triangles (fst st)) = T /\
  len (IncidentTriangleIndices (fst st)) = T * 3 /\
  len (snd st) = N.

Lemma placeStep_shape vertices offsets T N (ch : list Z) (i j : Z) st st' :
  placeStep ch i j st = Ok st' ->
  placeShape vertices offsets T N st -> placeShape vertices offsets T N st'.
Proof.
  unfold placeStep, placeShape, len. destruct st as [t nxt].
  intros H (H1 & H2 & H3 & H4 & H5). ok_inv H. injection H as <-. simpl in *.
  apply store_length in E1, E3, E4. repeat split; auto; congruence.
Qed.

Lemma placeTriangle_shape vertices offsets T N (ch : list Z) (i : Z) st st' :
  placeTriangle ch i st = Ok st' ->
  placeShape vertices offsets T N st -> placeShape vertices offsets T N st'.
Proof.
  unfold placeTriangle. intros H Hs. ok_inv H.
  apply (forRange_inv (fun _ => placeShape vertices offsets T N)) in E;
    [|lia|exact Hs|].
  - destruct x as [t nxt]. ok_inv H. injection H as <-.
    unfold placeShape, len in *. simpl in *.
    apply store_length in E2. intuition congruence.
  - intros j y y' _ Hy Hstep. eapply placeStep_shape; eauto.
Qed.

Lemma placePhase_shape vertices offsets T N (ch : list Z) (n : Z) st st' :
  0 <= n ->
  forRange n (placeTriangle ch) st = Ok st' ->
  placeShape vertices offsets T N st -> placeShape vertices offsets T N st'.
Proof.
  intros Hn H Hs.
  apply (forRange_inv (fun _ => placeShape vertices offsets T N)) in H; auto.
  intros i y y' _ Hy Hstep. eapply placeTriangle_shape; eauto.
Qed.

Lemma copy_make_take (offsets : list Z) (N : Z) :
  0 <= N -> N <= len offsets ->
  copy (make 0 N) (take (Z.to_nat N) offsets) = take (Z.to_nat N) offsets.
Proof.
  intros H0 HN. unfold copy, len in *.
  rewrite make_length, length_take.
  rewrite take_take, Nat.min_id.
  rewrite drop_ge; [apply app_nil_r|].
  rewrite make_length. lia.
Qed.

(** *** Counting pass and prefix sums *)

Lemma countIf_nonneg (f : Z -> bool) (l : list Z) : 0 <= countIf f l.
Proof. induction l as [|x l IH]; simpl; [lia|]. destruct (f x); lia. Qed.

Lemma countIf_le_len (f : Z -> bool) (l : list Z) : countIf f l <= len l.
Proof.
  unfold len. induction l as [|x l IH]; simpl; [lia|]. destruct (f x); lia.
Qed.

Lemma countIf_all (f : Z -> bool) (l : list Z) :
  Forall (fun x => f x = true) l -> countIf f l = len l.
Proof.
  unfold len. induction 1 as [|x l Hx _ IH]; simpl; [reflexivity|].
  rewrite Hx. lia.
Qed.

Lemma countIf_none (f : Z -> bool) (l : list Z) :
  Forall (fun x => f x = false) l -> countIf f l = 0.
Proof.
  induction 1 as [|x l Hx _ IH]; simpl; [reflexivity|]. rewrite Hx. lia.
Qed.

Lemma countIf_mono (f g : Z -> bool) (l : list Z) :
  (forall x, f x = true -> g x = true) -> countIf f l <= countIf g l.
Proof.
  intros Hfg. induction l as [|x l IH]; simpl; [lia|].
  specialize (Hfg x).
  destruct (f x), (g x); try lia; specialize (Hfg eq_refl); discriminate.
Qed.

Lemma below_succ (ch : list Z) (k : Z) : below ch (k + 1) = below ch k + occ ch k.
Proof.
  unfold below, occ. induction ch as [|x ch IH]; simpl; [lia|].
  rewrite IH.
  destruct (Z.ltb_spec x (k + 1)), (Z.ltb_spec x k), (Z.eqb_spec k x); lia.
Qed.

Lemma below_mono (ch : list Z) (k k' : Z) : k <= k' -> below ch k <= below ch k'.
Proof.
  intros H. apply countIf_mono. intros x Hx.
  apply Z.ltb_lt in Hx. apply Z.ltb_lt. lia.
Qed.

Lemma countPass_spec (ch : list Z) :
  forall (from : Z) (offs offs' : list Z),
    forEachFrom from ch countStep offs = Ok offs' ->
    length offs' = length offs /\
    Forall (fun x => 0 <= x + 1 < len offs) ch /\
    forall (k : nat) (c : Z),
      offs !! k = Some c -> offs' !! k = Some (c + occ ch (Z.of_nat k - 1)).
Proof.
  induction ch as [|x ch IH]; intros from offs offs' H; simpl in H.
  - injection H as <-. split; [reflexivity|split; [constructor|]].
    intros k c Hk. unfold occ. simpl. now rewrite Z.add_0_r.
  - ok_inv H. unfold countStep in E. ok_inv E.
    apply index_Ok_inv in E0 as [Hx E0].
    apply store_Ok_inv in E as [_ ->].
    apply IH in H as (Hlen & Hall & Hk).
    rewrite length_insert in Hlen. unfold len in *.
    rewrite length_insert in Hall.
    split; [exact Hlen|split; [constructor; [lia|exact Hall]|]].
    intros k c Hc. unfold occ. simpl. fold (occ ch (Z.of_nat k - 1)).
    destruct (decide (k = Z.to_nat (x + 1))) as [->|Hne].
    + assert (c = x1) as -> by congruence.
      rewrite (Hk _ (x1 + 1)).
      * f_equal. destruct (Z.eqb_spec (Z.of_nat (Z.to_nat (x + 1)) - 1) x); lia.
      * apply list_lookup_insert_eq. lia.
    + rewrite (Hk _ c).
      * f_equal. destruct (Z.eqb_spec (Z.of_nat k - 1) x); lia.
      * rewrite list_lookup_insert_ne; auto.
Qed.

Lemma make_lookup {A} (zero : A) (n : Z) (k : nat) :
  (k < Z.to_nat n)%nat -> make zero n !! k = Some zero.
Proof. intros H. unfold make. now apply lookup_replicate_2. Qed.

Lemma prefixPass_spec (ch counts offsets : list Z) (N : Z) :
  0 <= N ->
  length counts = Z.to_nat (N + 1) ->
  Forall (fun x => -1 <= x) ch ->
  (forall k : nat, (k <= Z.to_nat N)%nat ->
                   counts !! k = Some (occ ch (Z.of_nat k - 1))) ->
  forRange N prefixStep counts = Ok offsets ->
  length offsets = Z.to_nat (N + 1) /\
  forall k : nat, (k <= Z.to_nat N)%nat ->
                  offsets !! k = Some (below ch (Z.of_nat k)).
Proof.
  intros HN Hlen Hge Hc H.
  assert (H0 : below ch 0 = occ ch (-1)).
  { unfold below, occ. clear -Hge.
    induction Hge as [|x l Hx _ IH]; cbn [countIf]; [lia|].
    rewrite IH.
    destruct (Z.ltb_spec x 0), (Z.eqb_spec (-1) x); lia. }
  apply (forRange_inv (fun i offs =>
           length offs = Z.to_nat (N + 1) /\
           (forall k : nat, Z.of_nat k <= i ->
                            offs !! k = Some (below ch (Z.of_nat k))) /\
           (forall k : nat, i < Z.of_nat k <= N ->
                            offs !! k = Some (occ ch (Z.of_nat k - 1))))) in H;
    auto.
  - destruct H as (Hl & Hlow & _). split; [exact Hl|].
    intros k Hk. apply Hlow. lia.
  - split; [exact Hlen|split].
    + intros k Hk. assert (k = 0%nat) as -> by lia. rewrite Hc by lia.
      change (Z.of_nat 0) with 0. now rewrite H0.
    + intros k Hk. apply Hc. lia.
  - intros i x x' Hi (Hl & Hlow & Hhigh) Hstep.
    unfold prefixStep in Hstep. ok_inv Hstep.
    apply index_Ok_inv in E as [_ E], E0 as [_ E0].
    apply store_Ok_inv in Hstep as [_ ->].
    rewrite length_insert. split; [exact Hl|split].
    + intros k Hk. destruct (decide (k = Z.to_nat (i + 1))) as [->|Hne].
      * rewrite list_lookup_insert_eq by lia. f_equal.
        rewrite (Hhigh (Z.to_nat (i + 1))) in E by lia.
        rewrite (Hlow (Z.to_nat i)) in E0 by lia.
        injection E as <-. injection E0 as <-.
        replace (Z.of_nat (Z.to_nat (i + 1))) with (i + 1) by lia.
        replace (Z.of_nat (Z.to_nat i)) with i by lia.
        rewrite below_succ. replace (i + 1 - 1) with i by lia. lia.
      * rewrite list_lookup_insert_ne by auto. apply Hlow. lia.
    + intros k Hk. rewrite list_lookup_insert_ne by lia. apply Hhigh. lia.
Qed.

(** *** Placement pass *)

Lemma placeStep_spec (ch : list Z) (i j : Z) (st st' : Triangulation * list Z) :
  placeStep ch i j st = Ok st' ->
  exists v tri,
    0 <= i * 3 + j /\ ch !! Z.to_nat (i * 3 + j) = Some v /\
    0 <= v < len (snd st) /\
    0 <= i /\ Triangles (fst st) !! Z.to_nat i = Some tri /\
    Triangles (fst st') = <[Z.to_nat i := set3 tri j v]> (Triangles (fst st)) /\
    Vertices (fst st') = Vertices (fst st) /\
    len (snd st') = len (snd st).
Proof.
  unfold placeStep. destruct st as [t nxt]. intros H. ok_inv H.
  injection H as <-. simpl.
  apply index_Ok_inv in E as [Hij E], E0 as [Hi E0], E2 as [Hv E2].
  apply store_Ok_inv in E1 as [_ ->].
  apply store_length in E4.
  exists x, x0. unfold len in *. rewrite E4. repeat split; auto; lia.
Qed.

Lemma sortTriangleVerticesCCW_inv (tri tri' : int3) (v : s2.PointVector) :
  sortTriangleVerticesCCW tri v = Ok tri' ->
  exists p0 p1 p2,
    index v (at0 tri) = Ok p0 /\ index v (at1 tri) = Ok p1 /\
    index v (at2 tri) = Ok p2 /\
    tri' = if facesInward p0 p1 p2
           then mkInt3 (at0 tri) (at2 tri) (at1 tri) else tri.
Proof.
  unfold sortTriangleVerticesCCW. intros H. ok_inv H.
  exists x, x0, x1. repeat split; auto.
  destruct (facesInward x x0 x1); congruence.
Qed.

Lemma placeTriangle_spec (ch : list Z) (i : Z) (st st' : Triangulation * list Z) :
  placeTriangle ch i st = Ok st' ->
  0 <= i /\
  (forall j, 0 <= j < 3 ->
             exists x, ch !! Z.to_nat (i * 3 + j) = Some x /\
                       0 <= x < len (snd st)) /\
  (forall k : nat, k <> Z.to_nat i ->
                   Triangles (fst st') !! k = Triangles (fst st) !! k) /\
  exists raw tri,
    rawTriangle ch i = Some raw /\
    Triangles (fst st') !! Z.to_nat i = Some tri /\
    sortTriangleVerticesCCW raw (Vertices (fst st)) = Ok tri.
Proof.
  unfold placeTriangle, forRange. simpl. intros H.
  change (0 + 1 + 1) with 2 in H. change (0 + 1) with 1 in H.
  apply bind_Ok_inv in H as (s3 & H3 & H).
  apply bind_Ok_inv in H3 as (s1 & E1 & H3).
  apply bind_Ok_inv in H3 as (s2 & E2 & H3).
  apply bind_Ok_inv in H3 as (s3' & E3 & H3). injection H3 as ->.
  apply placeStep_spec in E1
    as (a & ta & Ha0 & Ha & Hra & Hi & Hta & Ea & Va & La).
  apply placeStep_spec in E2
    as (b & tb & Hb0 & Hb & Hrb & _ & Htb & Eb & Vb & Lb).
  apply placeStep_spec in E3
    as (c & tc & Hc0 & Hc & Hrc & _ & Htc & Ec & Vc & Lc).
  destruct s3 as [t nxt].
  apply bind_Ok_inv in H as (tri & E & H).
  apply bind_Ok_inv in H as (x1 & E0 & H).
  apply bind_Ok_inv in H as (tris & Est & H).
  injection H as <-. simpl in *.
  apply index_Ok_inv in E as [_ E].
  apply store_Ok_inv in Est as [_ ->].
  assert (Hlt : (Z.to_nat i < length (Triangles (fst st)))%nat)
    by (now apply lookup_lt_Some in Hta).
  rewrite Ea, list_lookup_insert_eq in Htb by exact Hlt.
  injection Htb as <-.
  rewrite Eb, list_lookup_insert_eq in Htc
    by (rewrite Ea, length_insert; exact Hlt).
  injection Htc as <-.
  rewrite Ec, list_lookup_insert_eq in E
    by (rewrite Eb, Ea, !length_insert; exact Hlt).
  injection E as <-.
  split; [exact Hi|]. split; [|split].
  - intros j Hj. assert (j = 0 \/ j = 1 \/ j = 2) as [ -> | [ -> | -> ] ] by lia.
    + exists a. split; [exact Ha|lia].
    + exists b. split; [exact Hb|lia].
    + exists c. split; [exact Hc|lia].
  - intros k Hk. rewrite list_lookup_insert_ne by auto.
    rewrite Ec, Eb, Ea. now rewrite !list_lookup_insert_ne by auto.
  - exists (mkInt3 a b c), x1. split; [|split].
    + unfold rawTriangle.
      replace (i * 3) with (i * 3 + 0) at 1 by lia. now rewrite Ha, Hb, Hc.
    + apply list_lookup_insert_eq.
      rewrite Ec, Eb, Ea, !length_insert. exact Hlt.
    + rewrite <- E0, Vc, Vb, Va. reflexivity.
Qed.

(** After the placement pass every corner of the hull output is a site
    index, and triangle [k] is the oriented [k]-th triple. *)
Lemma placePhase_spec (ch : list Z) (vertices : s2.PointVector)
  (offsets : list Z) (T N : Z) (st st' : Triangulation * list Z) :
  0 <= T ->
  placeShape vertices offsets T N st ->
  forRange T (placeTriangle ch) st = Ok st' ->
  placeShape vertices offsets T N st' /\
  (forall m x, 0 <= m < T * 3 -> ch !! Z.to_nat m = Some x -> 0 <= x < N) /\
  (forall k, 0 <= k < T ->
             exists raw tri,
               rawTriangle ch k = Some raw /\
               Triangles (fst st') !! Z.to_nat k = Some tri /\
               sortTriangleVerticesCCW raw vertices = Ok tri).
Proof.
  intros HT Hs H.
  apply (forRange_inv (fun i x =>
           placeShape vertices offsets T N x /\
           (forall m y, 0 <= m < i * 3 -> ch !! Z.to_nat m = Some y -> 0 <= y < N) /\
           (forall k, 0 <= k < i ->
                      exists raw tri,
                        rawTriangle ch k = Some raw /\
                        Triangles (fst x) !! Z.to_nat k = Some tri /\
                        sortTriangleVerticesCCW raw vertices = Ok tri))) in H;
    auto.
  - split; [exact Hs|]. split; [intros; lia|intros; lia].
  - intros i x x' Hi (Hx & Hin & Hor) Hstep.
    pose proof (placeTriangle_shape _ _ _ _ _ _ _ _ Hstep Hx) as Hx'.
    apply placeTriangle_spec in Hstep as (_ & Hcor & Hother & Hmine).
    destruct Hx as (Hv & _ & _ & _ & HN).
    split; [exact Hx'|]. split.
    + intros m y Hm Hy.
      destruct (Z.lt_ge_cases m (i * 3)) as [Hlt|Hge]; [eapply Hin; eauto; lia|].
      destruct (Hcor (m - i * 3)) as (z & Hz & Hzr); [lia|].
      replace (i * 3 + (m - i * 3)) with m in Hz by lia.
      assert (y = z) as -> by congruence. lia.
    + intros k Hk. destruct (Z.eq_dec k i) as [->|Hne].
      * destruct Hmine as (raw & tri & H1 & H2 & H3).
        exists raw, tri. rewrite <- Hv. auto.
      * destruct (Hor k) as (raw & tri & H1 & H2 & H3); [lia|].
        exists raw, tri. rewrite Hother by lia. auto.
Qed.

(** *** The pieces together *)

(** A sort pass that ended normally went over at most [maxInt] sites: at
    site [maxInt] the lookup of the incident slice panics. *)
Lemma sortPhase_int (n : Z) (t t' : Triangulation) :
  forRange n sortSite t = Ok t' -> n <= maxInt.
Proof.
  intros H. destruct (Z_le_gt_dec n maxInt) as [|Hgt]; [assumption|exfalso].
  assert (H0 : 0 <= maxInt) by (unfold maxInt; lia).
  unfold forRange in H.
  destruct (forFrom_ran _ _ _ _ _ H (Z.to_nat maxInt) ltac:(lia))
    as (x & x' & Hx).
  rewrite Z.add_0_l, Z2Nat.id in Hx by exact H0.
  unfold sortSite in Hx. apply bind_Ok_inv in Hx as (it & E & _).
  now apply IncidentTriangles_maxInt in E.
Qed.

Lemma phases_builtFrom vertices setters t opts counts offsets placed :
  phases ConvexHull vertices setters t opts counts offsets placed ->
  builtFrom (ConvexHull (map s2.Vector vertices) true true (Eps opts))
            vertices t.
Proof.
  unfold phases.
  set (ch := ConvexHull (map s2.Vector vertices) true true (Eps opts)).
  set (N := len vertices). set (T := 2 * (N - 2)).
  intros (Hset & HN & Hch & Hcount & Hprefix & Hplace & Hsort).
  (* counting pass *)
  apply countPass_spec in Hcount as (Hclen & Hcall & Hck).
  rewrite make_length in Hclen. unfold len in Hcall.
  rewrite make_length in Hcall.
  (* prefix sums *)
  apply (prefixPass_spec ch) in Hprefix as (Holen & Hok); [|lia|exact Hclen| |].
  2:{ eapply Forall_impl; [exact Hcall|]. simpl. intros; lia. }
  2:{ intros k Hk. rewrite (Hck k 0); [f_equal; lia|].
      apply make_lookup. lia. }
  (* placement *)
  rewrite copy_make_take in Hplace by (unfold len; lia).
  apply (placePhase_spec ch vertices offsets T N) in Hplace
    as (Hshape & Hin & Hor); [|lia|].
  2:{ unfold placeShape, len. simpl. rewrite !make_length, length_take.
      repeat split; lia. }
  (* sorts *)
  pose proof (sortPhase_int _ _ _ Hsort) as Hint.
  apply sortPhase_shape in Hsort as (Sv & St & So & Si).
  destruct Hshape as (Pv & Po & Pt & Pi & _).
  unfold builtFrom. fold N. fold T. unfold len in *.
  rewrite Sv, St, So, Si, Pv, Po.
  assert (Hall : Forall (fun x => 0 <= x < N) ch).
  { apply Forall_lookup. intros m x Hm.
    apply (Hin (Z.of_nat m)); [|now rewrite Nat2Z.id].
    apply lookup_lt_Some in Hm. lia. }
  repeat split; auto; try lia.
  intros k Hk. rewrite Hok by lia. f_equal. f_equal. lia.
Qed.

Lemma NewTriangulation_builtFrom vertices setters t :
  NewTriangulation ConvexHull vertices setters = Ok t ->
  exists opts,
    applySetters setters (mkOptions defaultEps) = Ok opts /\
    builtFrom (ConvexHull (map s2.Vector vertices) true true (Eps opts))
              vertices t.
Proof.
  intros H. apply NewTriangulation_Ok_inv in H
    as (opts & counts & offsets & placed & H).
  exists opts. split; [apply H|]. eapply phases_builtFrom; eauto.
Qed.

Lemma builtFrom_offsets (ch : list Z) vertices t :
  builtFrom ch vertices t ->
  below ch 0 = 0 /\
  below ch (len vertices) = len (IncidentTriangleIndices t) /\
  forall a b, a <= b -> below ch a <= below ch b.
Proof.
  intros (HN & Hch & Hv & Ht & Hi & Ho & Hall & Hoff & Htri & Hint).
  split; [|split].
  - apply countIf_none. eapply Forall_impl; [exact Hall|].
    simpl. intros x Hx. apply Z.ltb_ge. lia.
  - rewrite Hi, <- Hch. apply countIf_all. eapply Forall_impl; [exact Hall|].
    simpl. intros x Hx. apply Z.ltb_lt. lia.
  - intros a b. apply below_mono.
Qed.

Lemma builtFrom_IncidentTriangles (ch : list Z) vertices t (v : Z) :
  builtFrom ch vertices t ->
  0 <= v < len vertices ->
  IncidentTriangles t v =
  Ok (take (Z.to_nat (below ch (v + 1) - below ch v))
           (drop (Z.to_nat (below ch v)) (IncidentTriangleIndices t))).
Proof.
  intros Hb Hv. pose proof (builtFrom_offsets _ _ _ Hb) as (H0 & HN & Hmono).
  destruct Hb as (_ & _ & _ & _ & _ & Ho & _ & Hoff & _ & Hint).
  unfold IncidentTriangles, addInt.
  rewrite wrap_small by (unfold minInt; lia).
  destruct (Z.ltb_spec v 0); [lia|].
  destruct (Z.geb_spec (v + 1) (len (IncidentTriangleOffsets t))); [lia|].
  simpl. rewrite (index_Ok _ v (below ch v)) by (try apply Hoff; lia).
  rewrite (index_Ok _ (v + 1) (below ch (v + 1))) by (try apply Hoff; lia).
  simpl. unfold slice.
  pose proof (Hmono 0 v ltac:(lia)). pose proof (Hmono v (v + 1) ltac:(lia)).
  pose proof (Hmono (v + 1) (len vertices) ltac:(lia)).
  destruct (Z.leb_spec 0 (below ch v)); [|lia].
  destruct (Z.leb_spec (below ch v) (below ch (v + 1))); [|lia].
  destruct (Z.leb_spec (below ch (v + 1)) (len (IncidentTriangleIndices t)));
    [|lia].
  reflexivity.
Qed.

End Phases.

(** ** Counts and offsets *)

Section Counts.

Import s2delaunay.

Variable ConvexHull : list r3.Vector -> bool -> bool -> float -> list Z.

(** C3: for [N >= 4] sites, once the options are accepted and the hull
    routine has run, an output that does not hold exactly [3 * 2*(N-2)]
    indices makes the construction fail with [InconsistentHullOutput];
    and a triangulation that is returned has [2*(N-2)] triangles. *)
Theorem triangle_count (vertices : s2.PointVector)
  (setters : list TriangulationOption) :
  4 <= len vertices ->
  (forall opts,
      applySetters setters (mkOptions defaultEps) = Ok opts ->
      len (ConvexHull (map s2.Vector vertices) true true (Eps opts))
        <> 3 * (2 * (len vertices - 2)) ->
      failsWith (NewTriangulation ConvexHull vertices setters)
                InconsistentHullOutput) /\
  (forall t, NewTriangulation ConvexHull vertices setters = Ok t ->
             len (Triangles t) = 2 * (len vertices - 2)).
Proof.
  intros HN. split.
  - intros opts Hopts Hne. exists ErrInconsistentIndices. split; [|reflexivity].
    unfold NewTriangulation. rewrite Hopts. simpl.
    destruct (Z.ltb_spec (len vertices) 4); [lia|].
    destruct (Z.eqb_spec
                (len (ConvexHull (map s2.Vector vertices) true true (Eps opts)))
                (2 * (len vertices - 2) * 3)); [lia|reflexivity].
  - intros t Ht. apply NewTriangulation_builtFrom in Ht as (opts & Hopts & Hb).
    apply Hb.
Qed.

End Counts.

(** ** The norm of a normalized vector *)

Section Normalization.

Local Open Scope Q_scope.

Lemma near_nonneg (e r : Q) :
  0 <= e -> near e r = true -> (1 - u53) * e <= r <= (1 + u53) * e.
Proof.
  unfold near. intros He H. apply Qle_bool_iff in H.
  rewrite (Qabs_pos e He) in H. apply Qabs_Qle_condition in H. lra.
Qed.

Lemma near_sq (e r : Q) :
  near e r = true ->
  (1 - u53) * (1 - u53) * (e * e) <= r * r <= (1 + u53) * (1 + u53) * (e * e).
Proof.
  unfold near. intros H. apply Qle_bool_iff in H.
  destruct (Qlt_le_dec e 0) as [He|He].
  - rewrite (Qabs_neg e) in H by lra. apply Qabs_Qle_condition in H.
    unfold u53 in *. nra.
  - rewrite (Qabs_pos e He) in H. apply Qabs_Qle_condition in H.
    unfold u53 in *. nra.
Qed.

Lemma sq_between (t : Q) :
  1 - u53 <= t <= 1 + u53 ->
  (1 - u53) * (1 - u53) <= t * t <= (1 + u53) * (1 + u53).
Proof. unfold u53. intros H. nra. Qed.

(** The error analysis of [Normalize]: ten accurate roundings leave the
    squared norm within [2^-49] of 1. *)
Lemma normalize_bound (A B C XX YY ZZ A1 N2 Qq Ss RX RY RZ : Q) :
  0 <= A -> 0 <= B -> 0 <= C ->
  (1 - u53) * A <= XX <= (1 + u53) * A ->
  (1 - u53) * B <= YY <= (1 + u53) * B ->
  (1 - u53) * C <= ZZ <= (1 + u53) * C ->
  (1 - u53) * (XX + YY) <= A1 <= (1 + u53) * (XX + YY) ->
  (1 - u53) * (A1 + ZZ) <= N2 <= (1 + u53) * (A1 + ZZ) ->
  (1 - u53) * (1 - u53) * N2 <= Qq * Qq <= (1 + u53) * (1 + u53) * N2 ->
  1 - u53 <= Ss * Qq <= 1 + u53 ->
  (1 - u53) * (1 - u53) * (A * (Ss * Ss)) <= RX
    <= (1 + u53) * (1 + u53) * (A * (Ss * Ss)) ->
  (1 - u53) * (1 - u53) * (B * (Ss * Ss)) <= RY
    <= (1 + u53) * (1 + u53) * (B * (Ss * Ss)) ->
  (1 - u53) * (1 - u53) * (C * (Ss * Ss)) <= RZ
    <= (1 + u53) * (1 + u53) * (C * (Ss * Ss)) ->
  1 - (1 # 562949953421312) <= RX + RY + RZ <= 1 + (1 # 562949953421312).
Proof.
  intros HA HB HC HX HY HZ H1 H2 Hq Hs HRX HRY HRZ.
  set (S3 := A + B + C).
  assert (HN : (1 - u53) * (1 - u53) * (1 - u53) * S3 <= N2
               <= (1 + u53) * (1 + u53) * (1 + u53) * S3).
  { unfold S3, u53 in *. split; lra. }
  pose proof (sq_between _ Hs) as Ht.
  set (W := Ss * Ss) in *.
  assert (HW : 0 <= W) by (unfold W; nra).
  assert (E : Ss * Qq * (Ss * Qq) == W * (Qq * Qq)) by (unfold W; ring).
  rewrite E in Ht.
  assert (HS3 : 0 <= S3) by (unfold S3; lra).
  assert (P1 : 0 <= W * (Qq * Qq - (1 - u53) * (1 - u53)
                                   * ((1 - u53) * (1 - u53) * (1 - u53) * S3))).
  { apply Qmult_le_0_compat; [exact HW|]. unfold u53 in *. nra. }
  assert (P2 : 0 <= W * ((1 + u53) * (1 + u53)
                         * ((1 + u53) * (1 + u53) * (1 + u53) * S3) - Qq * Qq)).
  { apply Qmult_le_0_compat; [exact HW|]. unfold u53 in *. nra. }
  assert (HWS : 0 <= W * S3) by (apply Qmult_le_0_compat; assumption).
  assert (Hsum : (1 - u53) * (1 - u53) * (W * S3) <= RX + RY + RZ
                 <= (1 + u53) * (1 + u53) * (W * S3)).
  { unfold S3. split; lra. }
  unfold u53 in *. split; lra.
Qed.

Lemma mulAccurate_inv (a b r : float) :
  mulAccurate a b r = true ->
  exists qa qb qr, exact a = Some qa /\ exact b = Some qb /\
                   exact r = Some qr /\ near (qa * qb) qr = true.
Proof.
  unfold mulAccurate.
  destruct (exact a) as [qa|], (exact b) as [qb|], (exact r) as [qr|];
    try discriminate. eauto 10.
Qed.

Lemma addAccurate_inv (a b r : float) :
  addAccurate a b r = true ->
  exists qa qb qr, exact a = Some qa /\ exact b = Some qb /\
                   exact r = Some qr /\ near (qa + qb) qr = true.
Proof.
  unfold addAccurate.
  destruct (exact a) as [qa|], (exact b) as [qb|], (exact r) as [qr|];
    try discriminate. eauto 10.
Qed.

Lemma sqrtAccurate_inv (n q : float) :
  sqrtAccurate n q = true ->
  exists qn qq, exact n = Some qn /\ exact q = Some qq /\
    (1 - u53) * (1 - u53) * qn <= qq * qq <= (1 + u53) * (1 + u53) * qn.
Proof.
  unfold sqrtAccurate.
  destruct (exact n) as [qn|], (exact q) as [qq|]; try discriminate.
  intros H. apply andb_prop in H as [H H2]. apply andb_prop in H as [_ H1].
  apply Qle_bool_iff in H1, H2. eauto 10.
Qed.

Lemma invAccurate_inv (q s : float) :
  invAccurate q s = true ->
  exists qq qs, exact q = Some qq /\ exact s = Some qs /\
                1 - u53 <= qs * qq <= 1 + u53.
Proof.
  unfold invAccurate.
  destruct (exact q) as [qq|], (exact s) as [qs|]; try discriminate.
  intros H. apply Qle_bool_iff, Qabs_Qle_condition in H.
  exists qq, qs. repeat split; auto; lra.
Qed.

(** Where its roundings are accurate, [Normalize] returns a vector whose
    squared norm is within [2^-49] of 1. *)
Lemma Normalize_unit (v : r3.Vector) :
  roundsAccurately v = true ->
  exists n2, norm2Q (r3.Normalize v) = Some n2 /\
             1 - (1 # 562949953421312) <= n2 <= 1 + (1 # 562949953421312).
Proof.
  unfold roundsAccurately. intros H.
  apply andb_prop in H as [H Hrz]. apply andb_prop in H as [H Hry].
  apply andb_prop in H as [H Hrx]. apply andb_prop in H as [H Hinv].
  apply andb_prop in H as [H Hsqrt]. apply andb_prop in H as [H Ha2].
  apply andb_prop in H as [H Ha1]. apply andb_prop in H as [H Hzz].
  apply andb_prop in H as [H Hyy]. apply andb_prop in H as [Hnz Hxx].
  apply negb_true_iff in Hnz.
  apply mulAccurate_inv in Hxx as (x & x' & xx & Ex & Ex' & Exx & Hxx).
  rewrite Ex in Ex'. injection Ex' as <-.
  apply mulAccurate_inv in Hyy as (y & y' & yy & Ey & Ey' & Eyy & Hyy).
  rewrite Ey in Ey'. injection Ey' as <-.
  apply mulAccurate_inv in Hzz as (z & z' & zz & Ez & Ez' & Ezz & Hzz).
  rewrite Ez in Ez'. injection Ez' as <-.
  apply addAccurate_inv in Ha1 as (xx' & yy' & a1 & Exx' & Eyy' & Ea1 & Ha1).
  rewrite Exx in Exx'. injection Exx' as <-.
  rewrite Eyy in Eyy'. injection Eyy' as <-.
  apply addAccurate_inv in Ha2 as (a1' & zz' & n2 & Ea1' & Ezz' & En2 & Ha2).
  rewrite Ea1 in Ea1'. injection Ea1' as <-.
  rewrite Ezz in Ezz'. injection Ezz' as <-.
  apply sqrtAccurate_inv in Hsqrt as (n2' & q & En2' & Eq & Hq).
  rewrite En2 in En2'. injection En2' as <-.
  apply invAccurate_inv in Hinv as (q' & s & Eq' & Es & Hs).
  rewrite Eq in Eq'. injection Eq' as <-.
  apply mulAccurate_inv in Hrx as (s1 & x1 & rx & Es1 & Ex1 & Erx & Hrx).
  rewrite Es in Es1. injection Es1 as <-. rewrite Ex in Ex1. injection Ex1 as <-.
  apply mulAccurate_inv in Hry as (s1 & y1 & ry & Es1 & Ey1 & Ery & Hry).
  rewrite Es in Es1. injection Es1 as <-. rewrite Ey in Ey1. injection Ey1 as <-.
  apply mulAccurate_inv in Hrz as (s1 & z1 & rz & Es1 & Ez1 & Erz & Hrz).
  rewrite Es in Es1. injection Es1 as <-. rewrite Ez in Ez1. injection Ez1 as <-.
  unfold r3.Normalize, r3.Norm2, r3.Dot. rewrite Hnz.
  unfold norm2Q, r3.Mul. cbn [r3.X r3.Y r3.Z]. rewrite Erx, Ery, Erz.
  eexists. split; [reflexivity|].
  assert (HA : 0 <= x * x) by nra.
  assert (HB : 0 <= y * y) by nra.
  assert (HC : 0 <= z * z) by nra.
  apply near_nonneg in Hxx; [|exact HA].
  apply near_nonneg in Hyy; [|exact HB].
  apply near_nonneg in Hzz; [|exact HC].
  apply near_nonneg in Ha1; [|unfold u53 in *; lra].
  apply near_nonneg in Ha2; [|unfold u53 in *; lra].
  apply near_sq in Hrx, Hry, Hrz.
  apply (normalize_bound (x * x) (y * y) (z * z) xx yy zz a1 n2 q s);
    try assumption.
  - assert (E : s * x * (s * x) == x * x * (s * s)) by ring.
    rewrite <- E. exact Hrx.
  - assert (E : s * y * (s * y) == y * y * (s * s)) by ring.
    rewrite <- E. exact Hry.
  - assert (E : s * z * (s * z) == z * z * (s * s)) by ring.
    rewrite <- E. exact Hrz.
Qed.

(** A squared norm within [2^-49] of 1 is a norm within [e] of 1 for every
    [e] from [2^-49] to 1. *)
Lemma unit_within (n2 e : Q) :
  1 - (1 # 562949953421312) <= n2 <= 1 + (1 # 562949953421312) ->
  (1 # 562949953421312) <= e <= 1 ->
  (1 - e) * (1 - e) <= n2 <= (1 + e) * (1 + e).
Proof. intros H He. nra. Qed.

End Normalization.

(** ** The diagram builder *)

Section DiagramBuilder.

Import s2delaunay.

Variable ConvexHull : list r3.Vector -> bool -> bool -> float -> list Z.

Lemma neighborStep_spec (dt : Triangulation) (v off i tIdx : Z)
  (nb nb' : list Z) :
  s2voronoi.neighborStep dt v off i tIdx nb = Ok nb' ->
  exists tri n,
    0 <= tIdx /\ Triangles dt !! Z.to_nat tIdx = Some tri /\
    NextVertex tri v = Ok n /\
    0 <= off + i < len nb /\ nb' = <[Z.to_nat (off + i) := n]> nb.
Proof.
  unfold s2voronoi.neighborStep. intros H. ok_inv H.
  apply index_Ok_inv in E as [Ht E]. apply store_Ok_inv in H as [Hr ->].
  exists x, x0. repeat split; auto; lia.
Qed.

(** One cell: the entries of the cell's range are written, the others
    are kept. *)
Lemma cellStep_spec (dt : Triangulation) (v : Z) (nb nb' : list Z) :
  s2voronoi.cellStep dt v nb = Ok nb' ->
  exists off it,
    0 <= v /\ IncidentTriangleOffsets dt !! Z.to_nat v = Some off /\
    IncidentTriangles dt v = Ok it /\
    length nb' = length nb /\
    (forall (i : nat) tIdx,
        it !! i = Some tIdx ->
        exists tri n,
          0 <= tIdx /\ Triangles dt !! Z.to_nat tIdx = Some tri /\
          NextVertex tri v = Ok n /\
          0 <= off + Z.of_nat i /\
          nb' !! Z.to_nat (off + Z.of_nat i) = Some n) /\
    (forall m : nat,
        Z.of_nat m < off \/ off + len it <= Z.of_nat m -> nb' !! m = nb !! m).
Proof.
  unfold s2voronoi.cellStep, forEach. intros H. ok_inv H.
  apply index_Ok_inv in E as [Hv E].
  exists x, x0. split; [lia|]. split; [exact E|]. split; [exact E0|].
  apply (forEachFrom_inv (fun k cur =>
           length cur = length nb /\
           (forall (i : nat) tIdx,
               (i < k)%nat -> x0 !! i = Some tIdx ->
               exists tri n,
                 0 <= tIdx /\ Triangles dt !! Z.to_nat tIdx = Some tri /\
                 NextVertex tri v = Ok n /\
                 0 <= x + Z.of_nat i /\
                 cur !! Z.to_nat (x + Z.of_nat i) = Some n) /\
           (forall m : nat,
               Z.of_nat m < x \/ x + Z.of_nat k <= Z.of_nat m ->
               cur !! m = nb !! m)) _ _ 0%nat) in H.
  - simpl in H. destruct H as (Hl & Hw & Hk). split; [exact Hl|]. split.
    + intros i tIdx Hi. apply Hw; [|exact Hi]. now apply lookup_lt_Some in Hi.
    + exact Hk.
  - split; [reflexivity|]. split; [intros; lia|reflexivity].
  - intros k tIdx cur cur' Hk (Hl & Hw & Hkeep) Hstep. simpl in *.
    rewrite Z.add_0_l in Hstep.
    apply neighborStep_spec in Hstep as (tri & n & Ht & Htri & Hn & Hr & ->).
    rewrite length_insert. split; [exact Hl|]. split.
    + intros i t' Hi Hi'. destruct (decide (i = k)) as [->|Hne].
      * assert (t' = tIdx) as -> by congruence.
        exists tri, n. repeat split; auto; try lia.
        apply list_lookup_insert_eq. unfold len in Hr. lia.
      * destruct (Hw i t') as (tri' & n' & H1 & H2 & H3 & H4 & H5);
          [lia|exact Hi'|].
        exists tri', n'. repeat split; auto.
        rewrite list_lookup_insert_ne by lia. exact H5.
    + intros m Hm. rewrite list_lookup_insert_ne by lia. apply Hkeep. lia.
Qed.

(** What a successful run of [NewDiagram] went through. *)
Lemma NewDiagram_Ok_inv (sites : s2.PointVector) (eps : float)
  (d : s2voronoi.Diagram) :
  s2voronoi.NewDiagram ConvexHull sites eps = Ok d ->
  exists dt,
    NewTriangulation ConvexHull sites [WithEps (effectiveEps eps)] = Ok dt /\
    s2voronoi.Sites d = Vertices dt /\
    s2voronoi.CellVertices d = IncidentTriangleIndices dt /\
    s2voronoi.CellOffsets d = IncidentTriangleOffsets dt /\
    forRange (len (Triangles dt)) (s2voronoi.vertexStep dt)
      (make (s2.mkPoint (r3.mkVector 0 0 0)) (len (Triangles dt)))
    = Ok (s2voronoi.Vertices d) /\
    forRange (len (Vertices dt)) (s2voronoi.cellStep dt)
      (make 0 (len (IncidentTriangleIndices dt)))
    = Ok (s2voronoi.CellNeighbors d).
Proof.
  unfold s2voronoi.NewDiagram. fold (effectiveEps eps). intros H. ok_inv H.
  injection H as <-. simpl. exists x. auto 10.
Qed.

Lemma vertexPass_spec (dt : Triangulation) (T : Z) (vs : s2.PointVector) :
  forRange T (s2voronoi.vertexStep dt)
    (make (s2.mkPoint (r3.mkVector 0 0 0)) T) = Ok vs ->
  0 <= T ->
  len vs = T /\
  forall i, 0 <= i < T ->
    exists p0 p1 p2,
      TriangleVertices dt i = Ok (p0, p1, p2) /\
      vs !! Z.to_nat i =
      Some (s2.mkPoint
              (r3.Normalize (s2.Vector (s2voronoi.triangleCircumcenter p0 p1 p2)))).
Proof.
  intros H HT.
  apply (forRange_inv (fun n cur =>
           len cur = T /\
           forall i, 0 <= i < n ->
             exists p0 p1 p2,
               TriangleVertices dt i = Ok (p0, p1, p2) /\
               cur !! Z.to_nat i =
               Some (s2.mkPoint
                       (r3.Normalize
                          (s2.Vector (s2voronoi.triangleCircumcenter p0 p1 p2))))))
    in H; [exact H|exact HT| |].
  - split; [unfold len; rewrite make_length; lia|intros; lia].
  - intros n cur cur' Hn (Hl & Hi) Hstep. unfold s2voronoi.vertexStep in Hstep.
    ok_inv Hstep. destruct x as [[p0 p1] p2].
    apply store_Ok_inv in Hstep as [Hr ->]. unfold len in *.
    rewrite length_insert. split; [exact Hl|].
    intros i Hr'. destruct (Z.eq_dec i n) as [->|Hne].
    + exists p0, p1, p2. split; [exact E|].
      apply list_lookup_insert_eq. lia.
    + destruct (Hi i) as (q0 & q1 & q2 & H1 & H2); [lia|].
      exists q0, q1, q2. split; [exact H1|].
      rewrite list_lookup_insert_ne by lia. exact H2.
Qed.

Lemma builtFrom_incident_length (ch : list Z) vertices dt (v : Z) it :
  builtFrom ch vertices dt ->
  0 <= v < len vertices ->
  IncidentTriangles dt v = Ok it ->
  len it = below ch (v + 1) - below ch v /\
  0 <= below ch v /\ below ch v <= below ch (v + 1) /\
  below ch (v + 1) <= len (IncidentTriangleIndices dt) /\
  forall i : nat,
    it !! i = IncidentTriangleIndices dt !! (Z.to_nat (below ch v) + i)%nat \/
    it !! i = None.
Proof.
  intros Hb Hv Hit.
  rewrite (builtFrom_IncidentTriangles _ _ _ _ Hb Hv) in Hit.
  injection Hit as <-.
  pose proof (builtFrom_offsets _ _ _ Hb) as (H0 & HN & Hmono).
  pose proof (Hmono 0 v ltac:(lia)). pose proof (Hmono v (v + 1) ltac:(lia)).
  pose proof (Hmono (v + 1) (len vertices) ltac:(lia)).
  unfold len in *. rewrite length_take, length_drop.
  repeat split; try lia.
  intros i.
  destruct (decide (i < Z.to_nat (below ch (v + 1) - below ch v))%nat).
  - left. now rewrite lookup_take_lt, lookup_drop by assumption.
  - right. apply lookup_ge_None. rewrite length_take. lia.
Qed.

Lemma neighborPass_spec (ch : list Z) vertices dt (nb : list Z) :
  builtFrom ch vertices dt ->
  forRange (len vertices) (s2voronoi.cellStep dt)
    (make 0 (len (IncidentTriangleIndices dt))) = Ok nb ->
  len nb = len (IncidentTriangleIndices dt) /\
  forall v it (i : nat) tIdx,
    0 <= v < len vertices ->
    IncidentTriangles dt v = Ok it ->
    it !! i = Some tIdx ->
    exists tri n,
      Triangles dt !! Z.to_nat tIdx = Some tri /\
      NextVertex tri v = Ok n /\
      nb !! (Z.to_nat (below ch v) + i)%nat = Some n.
Proof.
  intros Hb H.
  pose proof (builtFrom_offsets _ _ _ Hb) as (H0 & HN & Hmono).
  assert (Hoff : forall k, 0 <= k <= len vertices ->
            IncidentTriangleOffsets dt !! Z.to_nat k = Some (below ch k))
    by apply Hb.
  apply (forRange_inv (fun n cur =>
           len cur = len (IncidentTriangleIndices dt) /\
           forall v it (i : nat) tIdx,
             0 <= v < n ->
             IncidentTriangles dt v = Ok it ->
             it !! i = Some tIdx ->
             exists tri m,
               Triangles dt !! Z.to_nat tIdx = Some tri /\
               NextVertex tri v = Ok m /\
               cur !! (Z.to_nat (below ch v) + i)%nat = Some m)) in H;
    [exact H|unfold len; lia| |].
  - split; [unfold len; rewrite make_length; lia|intros; lia].
  - intros n cur cur' Hn (Hl & Hdone) Hstep.
    apply cellStep_spec in Hstep
      as (off & it & _ & Eoff & Eit & Hl' & Hnew & Hkeep).
    rewrite Hoff in Eoff by lia. injection Eoff as <-.
    destruct (builtFrom_incident_length _ _ _ _ _ Hb Hn Eit)
      as (Hlen & Hlo & Hhi & _).
    split; [unfold len in *; lia|].
    intros v it' i tIdx Hv Hit' Hi.
    destruct (Z.eq_dec v n) as [->|Hne].
    + assert (it' = it) as -> by congruence.
      destruct (Hnew i tIdx Hi) as (tri & m & _ & H1 & H2 & _ & H3).
      exists tri, m. split; [exact H1|]. split; [exact H2|].
      rewrite <- H3. f_equal. lia.
    + assert (Hv' : 0 <= v < len vertices) by lia.
      destruct (Hdone v it' i tIdx) as (tri & m & H1 & H2 & H3);
        [lia|exact Hit'|exact Hi|].
      exists tri, m. split; [exact H1|]. split; [exact H2|].
      rewrite Hkeep; [exact H3|]. left.
      destruct (builtFrom_incident_length _ _ _ _ _ Hb Hv' Hit')
        as (Hlen' & Hlo' & Hhi' & _).
      apply lookup_lt_Some in Hi. unfold len in Hlen'.
      pose proof (Hmono (v + 1) n ltac:(lia)). lia.
Qed.

(** C6: in a diagram that was built, [CellOffsets] is non-decreasing and
    starts at 0, and its last entry is the length of [CellVertices], which
    is the length of [CellNeighbors] and three times the number of
    triangles (the number of Voronoi vertices). *)
Theorem cell_offsets (sites : s2.PointVector) (eps : float)
  (d : s2voronoi.Diagram) :
  s2voronoi.NewDiagram ConvexHull sites eps = Ok d ->
  (forall (i j : nat) a b,
      (i <= j)%nat ->
      s2voronoi.CellOffsets d !! i = Some a ->
      s2voronoi.CellOffsets d !! j = Some b -> a <= b) /\
  s2voronoi.CellOffsets d !! 0%nat = Some 0 /\
  last (s2voronoi.CellOffsets d) = Some (len (s2voronoi.CellVertices d)) /\
  len (s2voronoi.CellVertices d) = len (s2voronoi.CellNeighbors d) /\
  len (s2voronoi.CellNeighbors d) = 3 * len (s2voronoi.Vertices d) /\
  exists dt,
    NewTriangulation ConvexHull sites [WithEps (effectiveEps eps)] = Ok dt /\
    len (s2voronoi.Vertices d) = len (Triangles dt).
Proof.
  intros H. apply NewDiagram_Ok_inv in H
    as (dt & Hdt & Hs & Hcv & Hco & Hvs & Hnb).
  pose proof Hdt as Hdt'.
  apply NewTriangulation_builtFrom in Hdt' as (opts & Hopts & Hb).
  set (ch := ConvexHull (map s2.Vector sites) true true (Eps opts)) in *.
  pose proof (builtFrom_offsets _ _ _ Hb) as (H0 & HN & Hmono).
  pose proof Hb as (HN4 & Hch & Hv & Ht & Hi & Ho & Hall & Hoff & _).
  rewrite Hv in Hnb.
  pose proof (neighborPass_spec ch _ _ _ Hb Hnb) as [Hnl _].
  apply vertexPass_spec in Hvs as [Hvl _]; [|unfold len; lia].
  rewrite Hco, Hcv.
  assert (Hget : forall k : nat, (k <= Z.to_nat (len sites))%nat ->
            IncidentTriangleOffsets dt !! k = Some (below ch (Z.of_nat k))).
  { intros k Hk. rewrite <- (Nat2Z.id k) at 1. apply Hoff. lia. }
  split; [|split; [|split; [|split; [|split]]]].
  - intros i j a b Hij Ha Hb'.
    assert (j <= Z.to_nat (len sites))%nat.
    { apply lookup_lt_Some in Hb'. unfold len in *. lia. }
    rewrite Hget in Ha, Hb' by lia. injection Ha as <-. injection Hb' as <-.
    apply Hmono. lia.
  - rewrite (Hget 0%nat) by lia. change (Z.of_nat 0) with 0. now rewrite H0.
  - rewrite last_lookup.
    replace (Init.Nat.pred (length (IncidentTriangleOffsets dt)))
      with (Z.to_nat (len sites)) by (unfold len in *; lia).
    rewrite Hget by lia. rewrite Z2Nat.id by (unfold len; lia).
    now rewrite HN.
  - lia.
  - lia.
  - exists dt. split; [exact Hdt|lia].
Qed.

(** C4: in a diagram that was built, the cells are the sites given,
    [CellVertices] and [CellOffsets] are the incidence arrays of their
    triangulation themselves, and [CellNeighbors] is as long as
    [CellVertices]; for every site [v] of the input the vertex-index list
    of cell [v] is [IncidentTriangles(v)], and the [i]-th neighbor of cell
    [v] is [NextVertex(t, v)] for the [i]-th incident triangle [t]. *)
Theorem cell_lists (sites : s2.PointVector) (eps : float)
  (d : s2voronoi.Diagram) :
  s2voronoi.NewDiagram ConvexHull sites eps = Ok d ->
  exists dt,
    NewTriangulation ConvexHull sites [WithEps (effectiveEps eps)] = Ok dt /\
    s2voronoi.Sites d = sites /\
    s2voronoi.CellVertices d = IncidentTriangleIndices dt /\
    s2voronoi.CellOffsets d = IncidentTriangleOffsets dt /\
    len (s2voronoi.CellNeighbors d) = len (s2voronoi.CellVertices d) /\
    forall v, 0 <= v < len sites ->
      exists it nbs,
        IncidentTriangles dt v = Ok it /\
        VertexIndices d v = Ok it /\
        NeighborIndices d v = Ok nbs /\
        length nbs = length it /\
        forall (i : nat) tIdx,
          it !! i = Some tIdx ->
          exists tri n,
            Triangles dt !! Z.to_nat tIdx = Some tri /\
            NextVertex tri v = Ok n /\
            nbs !! i = Some n.
Proof.
  intros H. apply NewDiagram_Ok_inv in H
    as (dt & Hdt & Hs & Hcv & Hco & Hvs & Hnb).
  exists dt. split; [exact Hdt|].
  apply NewTriangulation_builtFrom in Hdt as (opts & Hopts & Hb).
  set (ch := ConvexHull (map s2.Vector sites) true true (Eps opts)) in *.
  pose proof Hb as (HN4 & Hch & Hv & Ht & Hi & Ho & Hall & Hoff & _).
  rewrite Hv in Hnb.
  pose proof (neighborPass_spec ch _ _ _ Hb Hnb) as [Hnl Hnb'].
  split; [now rewrite Hs|]. split; [exact Hcv|]. split; [exact Hco|].
  split; [now rewrite Hcv|].
  intros v Hvr.
  pose proof (builtFrom_IncidentTriangles _ _ _ _ Hb Hvr) as Hit.
  destruct (builtFrom_incident_length _ _ _ _ _ Hb Hvr Hit)
    as (Hlen & Hlo & Hhi & Htop & _).
  eexists. eexists. split; [exact Hit|].
  assert (Hslice : forall a : list Z,
            len a = len (IncidentTriangleIndices dt) ->
            slice a (below ch v) (below ch (v + 1)) =
            Ok (take (Z.to_nat (below ch (v + 1) - below ch v))
                     (drop (Z.to_nat (below ch v)) a))).
  { intros a Ha. unfold slice. rewrite Ha.
    destruct (Z.leb_spec 0 (below ch v)); [|lia].
    destruct (Z.leb_spec (below ch v) (below ch (v + 1))); [|lia].
    destruct (Z.leb_spec (below ch (v + 1)) (len (IncidentTriangleIndices dt)));
      [reflexivity|lia]. }
  unfold VertexIndices, NeighborIndices. rewrite Hco, Hcv.
  rewrite (index_Ok _ v (below ch v)) by (try apply Hoff; lia).
  rewrite (index_Ok _ (v + 1) (below ch (v + 1))) by (try apply Hoff; lia).
  simpl. rewrite !Hslice by auto.
  split; [reflexivity|]. split; [reflexivity|]. split.
  - rewrite !length_take, !length_drop. unfold len in *. lia.
  - intros i tIdx Hi'.
    destruct (Hnb' v _ i tIdx Hvr Hit Hi') as (tri & n & H1 & H2 & H3).
    exists tri, n. split; [exact H1|]. split; [exact H2|].
    apply lookup_lt_Some in Hi'. rewrite length_take in Hi'.
    rewrite lookup_take_lt, lookup_drop by lia. exact H3.
Qed.

(** C2 (amended): in a diagram that was built, [Vertices] has one entry
    per triangle, and entry [i] is computed from the three sites of
    triangle [i]: two edge vectors are crossed, the sign of the result is
    flipped if its dot product with the sum of the three sites is
    negative, and the result is normalized.  Where the normalization has
    rounded accurately, the squared norm of the entry is within [2^-49]
    of 1, and the entry has unit norm within the configured tolerance if
    that is at least [2^-49] (and at most 1). *)
Theorem voronoi_vertices (sites : s2.PointVector) (eps : float)
  (d : s2voronoi.Diagram) :
  s2voronoi.NewDiagram ConvexHull sites eps = Ok d ->
  exists dt,
    NewTriangulation ConvexHull sites [WithEps (effectiveEps eps)] = Ok dt /\
    len (s2voronoi.Vertices d) = len (Triangles dt) /\
    forall i, 0 <= i < len (Triangles dt) ->
      exists tri p0 p1 p2,
        Triangles dt !! Z.to_nat i = Some tri /\
        index sites (at0 tri) = Ok p0 /\
        index sites (at1 tri) = Ok p1 /\
        index sites (at2 tri) = Ok p2 /\
        s2voronoi.Vertices d !! Z.to_nat i = Some (dualVertex p0 p1 p2) /\
        (roundsAccurately (outwardNormal p0 p1 p2) = true ->
         (exists n2,
             norm2Q (s2.Vector (dualVertex p0 p1 p2)) = Some n2 /\
             (1 - (1 # 562949953421312) <= n2
                <= 1 + (1 # 562949953421312))%Q) /\
         (forall e,
             exact (effectiveEps eps) = Some e ->
             ((1 # 562949953421312) <= e <= 1)%Q ->
             unitWithinExactly (effectiveEps eps) (dualVertex p0 p1 p2)
             = true)).
Proof.
  intros H. apply NewDiagram_Ok_inv in H
    as (dt & Hdt & Hs & Hcv & Hco & Hvs & Hnb).
  exists dt. split; [exact Hdt|].
  apply NewTriangulation_builtFrom in Hdt as (opts & Hopts & Hb).
  destruct Hb as (_ & _ & Hv & _).
  apply vertexPass_spec in Hvs as [Hvl Hvs]; [|unfold len; lia].
  split; [exact Hvl|]. intros i Hi.
  destruct (Hvs i Hi) as (p0 & p1 & p2 & Htv & Hd).
  unfold TriangleVertices in Htv.
  destruct (Z.ltb_spec i 0); [lia|].
  destruct (Z.geb_spec i (len (Triangles dt))); [lia|].
  simpl in Htv. ok_inv Htv. injection Htv as <- <- <-.
  apply index_Ok_inv in E as [_ E]. rewrite Hv in *.
  exists x, x0, x1, x2.
  split; [exact E|]. split; [exact E0|]. split; [exact E1|].
  split; [exact E2|]. split; [exact Hd|].
  intros Hacc.
  destruct (Normalize_unit _ Hacc) as (n2 & En2 & Hn2).
  split; [exists n2; split; [exact En2|exact Hn2]|].
  intros e Ee He. unfold unitWithinExactly.
  change (s2.Vector (dualVertex x0 x1 x2))
    with (r3.Normalize (outwardNormal x0 x1 x2)).
  rewrite En2, Ee.
  destruct (unit_within n2 e Hn2 He) as [Hlo Hhi].
  apply andb_true_intro. split; apply Qle_bool_iff; assumption.
Qed.

End DiagramBuilder.

(** ** The incidence sort *)

Section IncidenceSort.

Import s2delaunay.

Variables (tris : list int3) (v : Z).

Lemma findAndSwap_spec (nxt i : Z) :
  forall (k : nat) (j : Z) (s s' : list Z),
    findAndSwap v tris nxt i j k s = Ok s' ->
    0 <= i < j -> j + Z.of_nat k = len s ->
    (s' = s /\
     forall (m : nat) c, j <= Z.of_nat m -> s !! m = Some c ->
                         prevAt tris v c <> Some nxt) \/
    (exists (m : nat) x y,
        j <= Z.of_nat m /\ s !! Z.to_nat i = Some x /\ s !! m = Some y /\
        prevAt tris v y = Some nxt /\
        s' = <[m := x]> (<[Z.to_nat i := y]> s)).
Proof.
  induction k as [|k IH]; intros j s s' H Hij Hlen; simpl in H.
  - injection H as <-. left. split; [reflexivity|].
    intros m c Hm Hc. apply lookup_lt_Some in Hc. unfold len in Hlen. lia.
  - apply bind_Ok_inv in H as (tj & Etj & H).
    apply bind_Ok_inv in H as (tr & Etr & H).
    apply bind_Ok_inv in H as (prv & Eprv & H).
    assert (Hprev : prevAt tris v tj = Some prv).
    { unfold prevAt. rewrite Etr. apply orPanic_Ok_inv in Eprv.
      now rewrite Eprv. }
    apply index_Ok_inv in Etj as [Hj Etj].
    destruct (Z.eqb_spec nxt prv) as [->|Hne].
    + right. unfold swap in H.
      apply bind_Ok_inv in H as (x & Ex & H).
      apply bind_Ok_inv in H as (y & Ey & H).
      apply bind_Ok_inv in H as (s1 & E1 & H).
      apply index_Ok_inv in Ex as [_ Ex], Ey as [_ Ey].
      apply store_Ok_inv in E1 as [_ ->]. apply store_Ok_inv in H as [_ ->].
      assert (y = tj) as -> by congruence.
      exists (Z.to_nat j), x, tj. repeat split; auto. lia.
    + apply IH in H; [|lia|lia]. destruct H as [[-> Hno]|Hswap].
      * left. split; [reflexivity|]. intros m c Hm Hc.
        destruct (decide (m = Z.to_nat j)) as [->|Hmj].
        -- assert (c = tj) as -> by congruence. rewrite Hprev. congruence.
        -- apply (Hno m); [lia|exact Hc].
      * right. destruct Hswap as (m & x & y & Hm & Hx & Hy & Hp & ->).
        exists m, x, y. repeat split; auto. lia.
Qed.

Lemma sortStep_spec (n i : Z) (s s' : list Z) :
  sortStep v tris n i s = Ok s' ->
  n = len s -> 1 <= i < n ->
  exists a w,
    s !! Z.to_nat (i - 1) = Some a /\ nextAt tris v a = Some w /\
    ((s' = s /\
      forall (m : nat) c, i + 1 <= Z.of_nat m -> s !! m = Some c ->
                          prevAt tris v c <> Some w) \/
     (exists (m : nat) x y,
         i + 1 <= Z.of_nat m /\ s !! Z.to_nat i = Some x /\ s !! m = Some y /\
         prevAt tris v y = Some w /\
         s' = <[m := x]> (<[Z.to_nat i := y]> s))).
Proof.
  unfold sortStep. intros H -> Hi.
  apply bind_Ok_inv in H as (a & Ea & H).
  apply bind_Ok_inv in H as (tr & Etr & H).
  apply bind_Ok_inv in H as (w & Ew & H).
  exists a, w. apply index_Ok_inv in Ea as [_ Ea]. split; [exact Ea|]. split.
  - unfold nextAt. rewrite Etr. apply orPanic_Ok_inv in Ew. now rewrite Ew.
  - apply findAndSwap_spec in H; [exact H|lia|lia].
Qed.

Lemma linkb_link (a b : Z) : linkb tris v a b = true <-> link tris v a b.
Proof.
  unfold linkb, link.
  destruct (nextAt tris v a) as [w|], (prevAt tris v b) as [w'|]; split;
    try discriminate; try (intros (x & Hx & Hy); discriminate).
  - intros H. apply Z.eqb_eq in H as ->. eauto.
  - intros (x & [= <-] & [= <-]). apply Z.eqb_refl.
Qed.

Lemma link_unique (a b c : Z) (w : Z) :
  nextAt tris v a = Some w -> link tris v a c -> prevAt tris v c = Some w.
Proof. intros Ha (w' & Hw' & Hc). congruence. Qed.

(** One step of the outer loop extends the invariant by one position. *)
Lemma sortStep_greedy (n i : Z) (s s' : list Z) :
  sortStep v tris n i s = Ok s' ->
  n = len s -> 1 <= i < n ->
  greedyUpTo tris v i s -> greedyUpTo tris v (i + 1) s'.
Proof.
  intros H Hn Hi Hinv.
  apply sortStep_spec in H as (a & w & Ha & Hw & Hcase); auto.
  unfold len in Hn. destruct Hcase as [[-> Hno]|Hswap].
  - intros k x y Hk Hx Hy.
    destruct (Z.eq_dec (Z.of_nat k + 1) i) as [Heq|Hne].
    + right. intros j c Hj Hc Hl.
      replace (Z.to_nat (i - 1)) with k in Ha by lia.
      assert (x = a) as -> by congruence.
      apply (Hno j c); [lia|exact Hc|]. eapply link_unique; eauto.
    + apply (Hinv k x y); auto. lia.
  - destruct Hswap as (m & x0 & y0 & Hm & Hx0 & Hy0 & Hp & ->).
    assert (Hmlt : (m < length s)%nat) by (now apply lookup_lt_Some in Hy0).
    assert (Hilt : (Z.to_nat i < length s)%nat)
      by (now apply lookup_lt_Some in Hx0).
    assert (Hget : forall q : nat,
               <[m := x0]> (<[Z.to_nat i := y0]> s) !! q =
               if decide (q = m) then Some x0
               else if decide (q = Z.to_nat i) then Some y0 else s !! q).
    { intros q. destruct (decide (q = m)) as [->|Hqm].
      - apply list_lookup_insert_eq. now rewrite length_insert.
      - rewrite list_lookup_insert_ne by auto.
        destruct (decide (q = Z.to_nat i)) as [->|Hqi].
        + now apply list_lookup_insert_eq.
        + now rewrite list_lookup_insert_ne by auto. }
    intros k x y Hk. rewrite !Hget.
    destruct (decide (k = m)); [lia|]. destruct (decide (k = Z.to_nat i)); [lia|].
    destruct (decide (S k = m)); [lia|]. intros Hx.
    destruct (decide (S k = Z.to_nat i)) as [Ei|Ni].
    + intros [= <-]. left.
      replace (Z.to_nat (i - 1)) with k in Ha by lia.
      assert (x = a) as -> by congruence. exists w. auto.
    + intros Hy. destruct (Hinv k x y) as [Hl|Hnone]; [lia|exact Hx|exact Hy| |].
      * left. exact Hl.
      * right. intros j c Hj. rewrite Hget.
        destruct (decide (j = m)) as [->|Hjm].
        -- intros [= <-]. apply (Hnone (Z.to_nat i) x0); [lia|exact Hx0].
        -- destruct (decide (j = Z.to_nat i)) as [->|Hji].
           ++ intros [= <-]. apply (Hnone m y0); [lia|exact Hy0].
           ++ intros Hc. apply (Hnone j c); [lia|exact Hc].
Qed.

Lemma sort_greedyUpTo (s s' : list Z) :
  sortIncidentTriangleIndicesCCW v s tris = Ok s' ->
  length s' = length s /\ greedyUpTo tris v (len s') s'.
Proof.
  intros H. pose proof (sort_length _ _ _ _ H) as Hl. split; [exact Hl|].
  unfold sortIncidentTriangleIndicesCCW in H.
  destruct (Z.lt_ge_cases (len s) 1) as [Hshort|Hlong].
  - intros k a b Hk. unfold len in *. lia.
  - apply (forFrom_inv (fun i x => length x = length s /\ greedyUpTo tris v i x))
      in H.
    + destruct H as [_ H]. unfold len in *.
      replace (1 + Z.of_nat (Z.to_nat (Z.of_nat (length s) - 1)))
        with (Z.of_nat (length s')) in H by lia.
      exact H.
    + split; [reflexivity|]. intros k a b Hk. lia.
    + intros i x x' Hi [Hx Hg] Hstep. split.
      * apply sortStep_length in Hstep. congruence.
      * eapply sortStep_greedy; eauto; unfold len in *; lia.
Qed.

(** *** From positions to the list structure *)

Lemma greedyUpTo_greedyFrom :
  forall (l : list Z) (a : Z),
    greedyUpTo tris v (len (a :: l)) (a :: l) -> greedyFrom tris v a l.
Proof.
  induction l as [|b l IH]; intros a H; simpl; [exact I|]. split.
  - assert (H0 : Z.of_nat 0 + 1 < len (a :: b :: l))
      by (unfold len; simpl; lia).
    destruct (H 0%nat a b H0 eq_refl eq_refl) as [Hl|Hnone].
    + left. exact Hl.
    + right. intros c Hc. apply list_elem_of_lookup in Hc as [j Hj].
      apply (Hnone (S (S j)) c); [lia|exact Hj].
  - apply IH. intros k x y Hk Hx Hy.
    assert (Hk' : Z.of_nat (S k) + 1 < len (a :: b :: l))
      by (unfold len in *; simpl in *; lia).
    destruct (H (S k) x y Hk' Hx Hy) as [Hl|Hnone].
    + left. exact Hl.
    + right. intros j c Hj Hc. destruct j as [|j]; [lia|].
      apply (Hnone (S (S j)) c); [lia|exact Hc].
Qed.

Lemma sort_greedy (s s' : list Z) :
  sortIncidentTriangleIndicesCCW v s tris = Ok s' -> greedy tris v s'.
Proof.
  intros H. apply sort_greedyUpTo in H as [_ H].
  destruct s' as [|a l]; simpl; [exact I|]. now apply greedyUpTo_greedyFrom.
Qed.

Lemma chainFrom_app (l1 l2 : list Z) (a b : Z) :
  chainFrom tris v a (l1 ++ b :: l2) <->
  chainFrom tris v a (l1 ++ [b]) /\ chainFrom tris v b l2.
Proof.
  revert a. induction l1 as [|x l1 IH]; intros a; simpl.
  - tauto.
  - rewrite IH. tauto.
Qed.

Lemma chainFrom_prefix (l1 l2 : list Z) (a : Z) :
  chainFrom tris v a (l1 ++ l2) -> chainFrom tris v a l1.
Proof.
  revert a. induction l1 as [|x l1 IH]; intros a; simpl; [auto|].
  intros [H1 H2]. split; [exact H1|]. now apply IH.
Qed.

(** A closed chain can be read from any of its triangles. *)
Lemma closedChain_rotate (c1 c2 : list Z) (a : Z) :
  closedChain tris v (c1 ++ a :: c2) -> chainFrom tris v a (c2 ++ c1).
Proof.
  destruct c1 as [|h c1]; simpl.
  - rewrite app_nil_r. apply chainFrom_prefix.
  - rewrite <- app_assoc. simpl. rewrite chainFrom_app. intros [H1 H2].
    apply chainFrom_app. split; [exact H2|]. now apply chainFrom_prefix in H1.
Qed.

Lemma chainFrom_fanOrdered (l : list Z) (a : Z) :
  chainFrom tris v a l -> fanOrdered tris v (a :: l).
Proof.
  revert a. induction l as [|b l IH]; intros a H k x y Hx Hy.
  - destruct k; discriminate.
  - destruct H as [Hab Hl]. destruct k as [|k]; simpl in *.
    + congruence.
    + eapply IH; eauto.
Qed.

Lemma NoDup_map_inj {A B} (f : A -> B) (l : list A) (x y : A) :
  NoDup (map f l) -> x ∈ l -> y ∈ l -> f x = f y -> x = y.
Proof.
  induction l as [|z l IH]; simpl; intros Hnd Hx Hy Hf.
  - now apply elem_of_nil in Hx.
  - apply NoDup_cons in Hnd as [Hz Hnd].
    apply elem_of_cons in Hx as [->|Hx], Hy as [->|Hy]; auto.
    + exfalso. apply Hz. rewrite Hf. now apply list_elem_of_fmap_2.
    + exfalso. apply Hz. rewrite <- Hf. now apply list_elem_of_fmap_2.
Qed.

(** The greedy order of a slice that can be arranged in a chain is that
    chain. *)
Lemma greedyFrom_chain :
  forall (l c : list Z) (a : Z),
    greedyFrom tris v a l -> chainFrom tris v a c -> c ≡ₚ l ->
    NoDup (map (prevAt tris v) c) -> l = c.
Proof.
  induction l as [|b l IH]; intros c a Hg Hc Hperm Hnd.
  - apply Permutation_nil_r in Hperm. now subst.
  - destruct c as [|d c]; [now apply Permutation_nil_cons in Hperm|].
    destruct Hg as [Hhead Hg], Hc as [Had Hc].
    assert (Hd : d ∈ b :: l) by (rewrite <- Hperm; apply list_elem_of_here).
    assert (Hb : b ∈ d :: c) by (rewrite Hperm; apply list_elem_of_here).
    assert (b = d) as ->.
    { apply elem_of_cons in Hd as [->|Hd]; [reflexivity|].
      destruct Hhead as [Hab|Hnone]; [|now apply Hnone in Hd].
      apply (NoDup_map_inj (prevAt tris v) (d :: c)); auto.
      - apply list_elem_of_here.
      - destruct Hab as (w & Hw & Hpb). rewrite Hpb. symmetry.
        eapply link_unique; eauto. }
    f_equal. apply (IH c d); auto.
    + now apply Permutation_cons_inv in Hperm.
    + simpl in Hnd. now apply NoDup_cons in Hnd as [_ Hnd].
Qed.

(** The sort is right on closed fans: a sorted slice whose triangles form
    a closed fan at [v] is in fan order. *)
Lemma sort_fanOrdered (s s' : list Z) :
  sortIncidentTriangleIndicesCCW v s tris = Ok s' ->
  closedFan tris v s' -> fanOrdered tris v s'.
Proof.
  intros H (c & Hperm & Hclosed & Hnd). apply sort_greedy in H.
  destruct s' as [|a l].
  - intros k x y Hx. destruct k; discriminate.
  - simpl in H.
    assert (Ha : a ∈ c) by (rewrite Hperm; apply list_elem_of_here).
    apply list_elem_of_split in Ha as (c1 & c2 & ->).
    apply closedChain_rotate in Hclosed.
    assert (Hperm' : c2 ++ c1 ≡ₚ l).
    { apply (Permutation_cons_inv (a := a)). rewrite <- Hperm.
      etransitivity; [|apply Permutation_middle].
      constructor. apply Permutation_app_comm. }
    assert (Hnd' : NoDup (map (prevAt tris v) (c2 ++ c1))).
    { assert (Hp : map (prevAt tris v) (c1 ++ a :: c2) ≡ₚ
                   map (prevAt tris v) (a :: c2 ++ c1)).
      { apply Permutation_map. symmetry.
        etransitivity; [|apply Permutation_middle].
        constructor. apply Permutation_app_comm. }
      rewrite Hp in Hnd. simpl in Hnd. now apply NoDup_cons in Hnd as [_ Hnd]. }
    rewrite (greedyFrom_chain l (c2 ++ c1) a H Hclosed Hperm' Hnd').
    now apply chainFrom_fanOrdered.
Qed.

End IncidenceSort.

(** ** The sort pass over all sites *)

Section SortPass.

Import s2delaunay.

Variable ConvexHull : list r3.Vector -> bool -> bool -> float -> list Z.

Lemma writeBack_same {A} (a s : list A) (lo : Z) :
  0 <= lo -> (Z.to_nat lo <= length a)%nat ->
  take (length s) (drop (Z.to_nat lo) (writeBack a lo s)) = s.
Proof.
  intros H0 Hlo. unfold writeBack.
  rewrite drop_app_length' by (rewrite length_take; lia).
  apply take_app_length.
Qed.

Lemma writeBack_before {A} (a s : list A) (lo : Z) (p n : nat) :
  0 <= lo -> (Z.to_nat lo <= length a)%nat -> (p + n <= Z.to_nat lo)%nat ->
  take n (drop p (writeBack a lo s)) = take n (drop p a).
Proof.
  intros H0 Hlo Hpn. apply list_eq. intros i.
  destruct (decide (i < n)%nat) as [Hi|Hi].
  - rewrite !lookup_take_lt, !lookup_drop by exact Hi. unfold writeBack.
    rewrite lookup_app_l by (rewrite length_take; lia).
    apply lookup_take_lt. lia.
  - now rewrite !lookup_take_ge by lia.
Qed.

Lemma builtFrom_shape (ch : list Z) vertices t t' :
  builtFrom ch vertices t ->
  Vertices t' = Vertices t -> Triangles t' = Triangles t ->
  IncidentTriangleOffsets t' = IncidentTriangleOffsets t ->
  length (IncidentTriangleIndices t') = length (IncidentTriangleIndices t) ->
  builtFrom ch vertices t'.
Proof.
  unfold builtFrom, len. intros H -> -> -> ->. exact H.
Qed.

(** After the sort pass the slice of every site is a result of the
    incidence sort. *)
Lemma sortPass_spec (ch : list Z) vertices t0 t :
  builtFrom ch vertices t0 ->
  forRange (len vertices) sortSite t0 = Ok t ->
  forall v it,
    0 <= v < len vertices ->
    IncidentTriangles t v = Ok it ->
    exists it0, sortIncidentTriangleIndicesCCW v it0 (Triangles t) = Ok it.
Proof.
  intros Hb H.
  apply (forRange_inv (fun n cur =>
           builtFrom ch vertices cur /\ Triangles cur = Triangles t0 /\
           forall v it,
             0 <= v < n ->
             IncidentTriangles cur v = Ok it ->
             exists it0,
               sortIncidentTriangleIndicesCCW v it0 (Triangles t0) = Ok it))
    in H.
  - destruct H as (_ & -> & H). intros v it Hv. now apply H.
  - unfold len; lia.
  - split; [exact Hb|]. split; [reflexivity|]. intros; lia.
  - intros n cur cur' Hn (Hcur & Htris & Hdone) Hstep.
    pose proof (sortSite_shape _ _ _ Hstep) as (Sv & St & So & Si).
    assert (Hcur' : builtFrom ch vertices cur')
      by (eapply builtFrom_shape; eauto).
    split; [exact Hcur'|]. split; [congruence|].
    intros u it Hu Hit.
    unfold sortSite in Hstep.
    apply bind_Ok_inv in Hstep as (it_n & Eit & Hstep).
    apply bind_Ok_inv in Hstep as (sorted & Esort & Hstep).
    apply bind_Ok_inv in Hstep as (start & Estart & Hstep).
    injection Hstep as <-.
    destruct (builtFrom_incident_length _ _ _ _ _ Hcur Hn Eit)
      as (Hlen & Hlo & Hhi & Htop & _).
    apply index_Ok_inv in Estart as [_ Estart].
    assert (start = below ch n) as ->.
    { destruct Hcur as (_ & _ & _ & _ & _ & _ & _ & Hoff & _).
      rewrite Hoff in Estart by lia. congruence. }
    pose proof (sort_length _ _ _ _ Esort) as Hsl.
    assert (Hu' : 0 <= u < len vertices) by lia.
    rewrite (builtFrom_IncidentTriangles _ _ _ _ Hcur' Hu') in Hit.
    injection Hit as <-. simpl.
    pose proof (builtFrom_offsets _ _ _ Hcur) as (Hzero & _ & Hmono).
    unfold len in *.
    destruct (Z.eq_dec u n) as [->|Hne].
    + exists it_n. rewrite <- Htris.
      replace (Z.to_nat (below ch (n + 1) - below ch n)) with (length sorted)
        by lia.
      rewrite writeBack_same by lia. exact Esort.
    + pose proof (Hmono 0 u ltac:(lia)). pose proof (Hmono u (u + 1) ltac:(lia)).
      pose proof (Hmono (u + 1) n ltac:(lia)).
      rewrite writeBack_before by lia.
      apply (Hdone u); [lia|].
      now rewrite (builtFrom_IncidentTriangles _ _ _ _ Hcur Hu').
Qed.

(** X19: in a triangulation that was built, the incident slice of a site
    whose incident triangles, as the builder has oriented them, form one
    closed fan (they can be arranged in a closed chain around the site,
    and no two of them have the same previous vertex there) is in fan
    order: for consecutive entries [(a, b)],
    [NextVertex(Triangles[a], v) == PrevVertex(Triangles[b], v)].  The
    builder does not see to it that they form one (C1). *)
Theorem incident_fan_order (vertices : s2.PointVector)
  (setters : list TriangulationOption) (t : Triangulation) (v : Z)
  (it : list Z) :
  NewTriangulation ConvexHull vertices setters = Ok t ->
  0 <= v < len vertices ->
  IncidentTriangles t v = Ok it ->
  closedFan (Triangles t) v it ->
  fanOrdered (Triangles t) v it.
Proof.
  intros H Hv Hit Hfan.
  apply NewTriangulation_Ok_inv in H as (opts & counts & offsets & placed & H).
  pose proof (phases_builtFrom _ _ _ _ _ _ _ _ H) as Hb.
  destruct H as (_ & _ & _ & _ & _ & _ & Hsort).
  pose proof (sortPhase_shape _ _ _ Hsort) as (Sv & St & So & Si).
  assert (Hb0 : builtFrom
                  (ConvexHull (map s2.Vector vertices) true true (Eps opts))
                  vertices (fst placed))
    by (eapply builtFrom_shape; eauto).
  destruct (sortPass_spec _ _ _ _ Hb0 Hsort v it Hv Hit) as (it0 & Hsorted).
  eapply sort_fanOrdered; eauto.
Qed.

End SortPass.

(** ** Which errors the builder can return *)

Section Errors.

Import s2delaunay.

Variable ConvexHull : list r3.Vector -> bool -> bool -> float -> list Z.

Lemma bind_Err_inv {A B} (r : result A) (k : A -> result B) (e : error) :
  bind r k = Err e -> r = Err e \/ exists a, r = Ok a /\ k a = Err e.
Proof.
  destruct r as [a| |]; simpl; intros H.
  - right. exists a. auto.
  - left. congruence.
  - discriminate.
Qed.

Lemma index_not_Err {A} (a : list A) (i : Z) (e : error) : index a i <> Err e.
Proof.
  unfold index. destruct (i <? 0); [discriminate|].
  destruct (a !! Z.to_nat i); discriminate.
Qed.

Lemma store_not_Err {A} (a : list A) (i : Z) (x : A) (e : error) :
  store a i x <> Err e.
Proof.
  unfold store. destruct ((0 <=? i) && (i <? Z.of_nat (length a))); discriminate.
Qed.

Lemma slice_not_Err {A} (a : list A) (lo hi : Z) (e : error) :
  slice a lo hi <> Err e.
Proof.
  unfold slice. destruct ((0 <=? lo) && (lo <=? hi) && (hi <=? len a));
    discriminate.
Qed.

Lemma orPanic_not_Err {A} (r : result A) (e : error) : orPanic r <> Err e.
Proof. destruct r; discriminate. Qed.

(** Split a failing chain of binds into the failing step. *)
Ltac err_inv H :=
  repeat
    (let a := fresh "x" in
     let E := fresh "E" in
     apply bind_Err_inv in H;
     destruct H as [H|(a & E & H)];
     [first [ now apply index_not_Err in H
            | now apply store_not_Err in H
            | now apply slice_not_Err in H
            | now apply orPanic_not_Err in H
            | idtac ] | ]).

Lemma forFrom_not_Err {St} (Inv : Z -> St -> Prop) (body : Z -> St -> result St) :
  forall (n : nat) (from : Z) (s : St) (e : error),
    Inv from s ->
    (forall i x x', from <= i < from + Z.of_nat n ->
                    Inv i x -> body i x = Ok x' -> Inv (i + 1) x') ->
    (forall i x e', from <= i < from + Z.of_nat n ->
                    Inv i x -> body i x <> Err e') ->
    forFrom from n body s <> Err e.
Proof.
  induction n as [|n IH]; intros from s e H0 Hstep Hno; simpl; [discriminate|].
  intros H. apply bind_Err_inv in H as [H|(s1 & E & H)].
  - apply (Hno from s e); [lia|exact H0|exact H].
  - revert H. apply (IH (from + 1)).
    + apply (Hstep from s s1); [lia|exact H0|exact E].
    + intros i x x' Hi. apply Hstep. lia.
    + intros i x e' Hi. apply Hno. lia.
Qed.

Lemma forEachFrom_not_Err {A St} (body : Z -> A -> St -> result St) :
  (forall i x s e, body i x s <> Err e) ->
  forall (a : list A) (from : Z) (s : St) (e : error),
    forEachFrom from a body s <> Err e.
Proof.
  intros Hno. induction a as [|x a IH]; intros from s e; simpl; [discriminate|].
  intros H. apply bind_Err_inv in H as [H|(s1 & E & H)].
  - now apply Hno in H.
  - now apply IH in H.
Qed.

Lemma countStep_not_Err (i idx : Z) (offs : list Z) (e : error) :
  countStep i idx offs <> Err e.
Proof. unfold countStep. intros H. err_inv H. now apply store_not_Err in H. Qed.

Lemma prefixStep_not_Err (i : Z) (offs : list Z) (e : error) :
  prefixStep i offs <> Err e.
Proof. unfold prefixStep. intros H. err_inv H. now apply store_not_Err in H. Qed.

Lemma placeStep_not_Err (ch : list Z) (i j : Z) st (e : error) :
  placeStep ch i j st <> Err e.
Proof.
  unfold placeStep. destruct st as [t nxt]. intros H. err_inv H. discriminate.
Qed.

Lemma placeTriangle_not_Err (ch : list Z) (i : Z) st (e : error) :
  placeTriangle ch i st <> Err e.
Proof.
  unfold placeTriangle. intros H. apply bind_Err_inv in H as [H|(st' & E & H)].
  - revert H. apply (forFrom_not_Err (fun _ _ => True)); auto.
    intros. apply placeStep_not_Err.
  - destruct st' as [t nxt]. err_inv H; [|discriminate].
    unfold sortTriangleVerticesCCW in H. err_inv H.
    destruct (facesInward x0 x1 x2); discriminate.
Qed.

Lemma findAndSwap_not_Err (tris : list int3) (v nxt i : Z) :
  forall (k : nat) (j : Z) (s : list Z) (e : error),
    findAndSwap v tris nxt i j k s <> Err e.
Proof.
  induction k as [|k IH]; intros j s e; simpl; [discriminate|].
  intros H. err_inv H. destruct (nxt =? x1).
  - unfold swap in H. err_inv H. now apply store_not_Err in H.
  - now apply IH in H.
Qed.

Lemma sortStep_not_Err (tris : list int3) (v n i : Z) (s : list Z) (e : error) :
  sortStep v tris n i s <> Err e.
Proof.
  unfold sortStep. intros H. err_inv H. now apply findAndSwap_not_Err in H.
Qed.

Lemma sort_not_Err (tris : list int3) (v : Z) (s : list Z) (e : error) :
  sortIncidentTriangleIndicesCCW v s tris <> Err e.
Proof.
  unfold sortIncidentTriangleIndicesCCW.
  apply (forFrom_not_Err (fun _ _ => True)); auto.
  intros. apply sortStep_not_Err.
Qed.

Lemma sortSite_not_Err (i : Z) (t : Triangulation) (e : error) :
  0 <= i -> i + 1 < len (IncidentTriangleOffsets t) ->
  sortSite i t <> Err e.
Proof.
  intros H0 H1. unfold sortSite. intros H.
  apply bind_Err_inv in H as [H|(it & E & H)].
  - unfold IncidentTriangles, addInt in H.
    pose proof (wrap_le (i + 1) ltac:(unfold minInt; lia)).
    destruct (Z.ltb_spec i 0); [lia|].
    destruct (Z.geb_spec (wrap (i + 1)) (len (IncidentTriangleOffsets t)));
      [lia|].
    simpl in H. err_inv H. now apply slice_not_Err in H.
  - err_inv H; [|discriminate]. now apply sort_not_Err in H.
Qed.

(** After the count check the builder returns no error. *)
Lemma NewTriangulation_Err_inv (vertices : s2.PointVector)
  (setters : list TriangulationOption) (opts : TriangulationOptions)
  (e : error) :
  applySetters setters (mkOptions defaultEps) = Ok opts ->
  NewTriangulation ConvexHull vertices setters = Err e ->
  (len vertices < 4 /\ e = ErrInsufficientVertices) \/
  (4 <= len vertices /\
   len (ConvexHull (map s2.Vector vertices) true true (Eps opts))
     <> 2 * (len vertices - 2) * 3 /\
   e = ErrInconsistentIndices).
Proof.
  intros Hopts. unfold NewTriangulation. rewrite Hopts. simpl.
  destruct (Z.ltb_spec (len vertices) 4) as [|HN]; [intros [= <-]; auto|].
  destruct (Z.eqb_spec
              (len (ConvexHull (map s2.Vector vertices) true true (Eps opts)))
              (2 * (len vertices - 2) * 3)) as [Hch|Hch];
    [|intros [= <-]; right; auto].
  simpl. intros H. exfalso.
  apply bind_Err_inv in H as [H|(counts & Ecount & H)];
    [revert H; apply forEachFrom_not_Err; intros; apply countStep_not_Err|].
  apply bind_Err_inv in H as [H|(offsets & Eprefix & H)].
  { revert H. apply (forFrom_not_Err (fun _ _ => True)); auto.
    intros. apply prefixStep_not_Err. }
  apply bind_Err_inv in H as [H|(head & Ehead & H)];
    [now apply slice_not_Err in H|].
  apply bind_Err_inv in H as [H|(placed & Eplace & H)].
  { revert H. apply (forFrom_not_Err (fun _ _ => True)); auto.
    intros. apply placeTriangle_not_Err. }
  simpl in *.
  assert (Hcl : length counts = Z.to_nat (len vertices + 1)).
  { apply countPass_spec in Ecount as [Hl _]. now rewrite make_length in Hl. }
  assert (Hol : length offsets = Z.to_nat (len vertices + 1)).
  { apply (forRange_inv (fun _ x => length x = Z.to_nat (len vertices + 1)))
      in Eprefix; auto; [unfold len; lia|].
    intros i x x' _ Hx Hs. unfold prefixStep in Hs. ok_inv Hs.
    apply store_length in Hs. congruence. }
  apply (placePhase_shape vertices offsets (2 * (len vertices - 2))
           (len vertices)) in Eplace; [|lia|].
  2:{ apply slice_Ok_inv in Ehead as (_ & _ & ->).
      unfold placeShape, copy, len in *. simpl.
      rewrite length_app, !length_take, !length_drop, !make_length.
      repeat split; lia. }
  destruct Eplace as (_ & Ho & _).
  revert H. apply (forFrom_not_Err
    (fun _ x => IncidentTriangleOffsets x = offsets)); auto.
  - intros i x x' _ Hx Hs. apply sortSite_shape in Hs as (_ & _ & -> & _).
    exact Hx.
  - intros i x e' Hi Hx. apply sortSite_not_Err; [lia|].
    rewrite Hx. unfold len in *. lia.
Qed.

Lemma prevAt_Some_inv (tris : list int3) (v c p : Z) :
  prevAt tris v c = Some p ->
  exists tri, index tris c = Ok tri /\ PrevVertex tri v = Ok p.
Proof.
  unfold prevAt. destruct (index tris c) as [tri| |]; try discriminate.
  destruct (PrevVertex tri v) eqn:E; try discriminate.
  intros [= <-]. eauto.
Qed.

Lemma nextAt_Some_inv (tris : list int3) (v c w : Z) :
  nextAt tris v c = Some w ->
  exists tri, index tris c = Ok tri /\ NextVertex tri v = Ok w.
Proof.
  unfold nextAt. destruct (index tris c) as [tri| |]; try discriminate.
  destruct (NextVertex tri v) eqn:E; try discriminate.
  intros [= <-]. eauto.
Qed.

(** The inner loop runs to its end and changes nothing when no entry from
    [j] on matches. *)
Lemma findAndSwap_no_match (tris : list int3) (v nxt i : Z) :
  forall (k : nat) (j : Z) (s : list Z),
    0 <= j -> j + Z.of_nat k = len s ->
    (forall m : nat, j <= Z.of_nat m < len s ->
                     exists c p, s !! m = Some c /\
                                 prevAt tris v c = Some p /\ p <> nxt) ->
    findAndSwap v tris nxt i j k s = Ok s.
Proof.
  induction k as [|k IH]; intros j s Hj Hlen Hno; simpl; [reflexivity|].
  destruct (Hno (Z.to_nat j)) as (c & p & Hc & Hp & Hne); [lia|].
  rewrite (index_Ok _ _ _ Hj Hc). simpl.
  apply prevAt_Some_inv in Hp as (tri & Etri & Eprev).
  rewrite Etri. simpl. rewrite Eprev. simpl.
  destruct (Z.eqb_spec nxt p) as [->|_]; [congruence|].
  apply IH; [lia|lia|]. intros m Hm. apply Hno. lia.
Qed.

(** C9 (amended): the incidence sort returns no error.  At a position
    [i] where no later entry of the slice has the previous vertex that
    matches the next vertex of the slot before, the step of the sort ends
    normally and leaves the slice as it is; and once the options are
    accepted, the only errors of the builder are those of the two checks
    before the sort (too few sites, and the size of the hull output). *)
Theorem no_match_is_not_an_error :
  (forall tris v s e, sortIncidentTriangleIndicesCCW v s tris <> Err e) /\
  (forall tris v i s a w,
      1 <= i < len s ->
      s !! Z.to_nat (i - 1) = Some a -> nextAt tris v a = Some w ->
      (forall m : nat, i < Z.of_nat m < len s ->
                       exists c p, s !! m = Some c /\
                                   prevAt tris v c = Some p /\ p <> w) ->
      sortStep v tris (len s) i s = Ok s) /\
  (forall vertices setters opts e,
      applySetters setters (mkOptions defaultEps) = Ok opts ->
      NewTriangulation ConvexHull vertices setters = Err e ->
      (len vertices < 4 /\ e = ErrInsufficientVertices) \/
      (len (ConvexHull (map s2.Vector vertices) true true (Eps opts))
         <> 2 * (len vertices - 2) * 3 /\
       e = ErrInconsistentIndices)).
Proof.
  split; [|split].
  - intros. apply sort_not_Err.
  - intros tris v i s a w Hi Ha Hw Hno. unfold sortStep.
    rewrite (index_Ok _ (i - 1) a) by (auto; lia). simpl.
    apply nextAt_Some_inv in Hw as (tri & Etri & Enext).
    rewrite Etri. simpl. rewrite Enext. simpl.
    apply findAndSwap_no_match; [lia|lia|].
    intros m Hm. apply Hno. lia.
  - intros vertices setters opts e Hopts He.
    destruct (NewTriangulation_Err_inv _ _ _ _ Hopts He) as [?|(_ & ? & ?)]; auto.
Qed.

End Errors.

(** ** The orientation pass *)

Section Orientation.

Import s2delaunay.

Variable ConvexHull : list r3.Vector -> bool -> bool -> float -> list Z.

(** C5 (amended): in a triangulation that was built, triangle [i] is the
    [i]-th triple [(a, b, c)] of the hull output with its last two entries
    swapped if and only if the cross product of the edge vectors
    [p1 - p0] and [p2 - p0] has a negative dot product with the first
    vertex [p0]. *)
Theorem orientation_pass (vertices : s2.PointVector)
  (setters : list TriangulationOption) (t : Triangulation) :
  NewTriangulation ConvexHull vertices setters = Ok t ->
  exists opts,
    applySetters setters (mkOptions defaultEps) = Ok opts /\
    forall i, 0 <= i < len (Triangles t) ->
      exists a b c p0 p1 p2,
        rawTriangle (ConvexHull (map s2.Vector vertices) true true (Eps opts)) i
          = Some (mkInt3 a b c) /\
        index vertices a = Ok p0 /\ index vertices b = Ok p1 /\
        index vertices c = Ok p2 /\
        Triangles t !! Z.to_nat i =
        Some (if (r3.Dot (r3.Cross (r3.Sub (s2.Vector p1) (s2.Vector p0))
                                   (r3.Sub (s2.Vector p2) (s2.Vector p0)))
                         (s2.Vector p0) <? 0)%float
              then mkInt3 a c b else mkInt3 a b c).
Proof.
  intros H. apply NewTriangulation_builtFrom in H as (opts & Hopts & Hb).
  exists opts. split; [exact Hopts|].
  destruct Hb as (_ & _ & _ & Ht & _ & _ & _ & _ & Htri & _).
  intros i Hi. rewrite Ht in Hi.
  destruct (Htri i Hi) as (raw & tri & Hraw & Htr & Hsort).
  apply sortTriangleVerticesCCW_inv in Hsort as (p0 & p1 & p2 & H0 & H1 & H2 & ->).
  destruct raw as [a b c]. simpl in *.
  exists a, b, c, p0, p1, p2. repeat split; auto.
Qed.

End Orientation.

(** ** Concrete runs *)

Section Runs.

Import s2delaunay Examples.

Lemma tetra_triangulation :
  NewTriangulation tetraHull tetra [] = Ok tetraTriangulation.
Proof. vm_compute. reflexivity. Qed.

Lemma tetra_diagram :
  s2voronoi.NewDiagram tetraHull tetra 0 = Ok tetraDiagram.
Proof. vm_compute. reflexivity. Qed.

Lemma broken_triangulation :
  NewTriangulation brokenHull tetra [] = Ok brokenTriangulation.
Proof. vm_compute. reflexivity. Qed.

Lemma axis_diagram :
  s2voronoi.NewDiagram tetraHull axisTetra 1e-16 = Ok axisDiagram.
Proof. vm_compute. reflexivity. Qed.

Lemma tetra_four_sites : 4 <= len tetra.
Proof. unfold len. simpl. lia. Qed.

(** The slice of site 1 of the tetrahedron, [[0; 3; 1]], is in fan order. *)
Lemma incident_fan_order_witness :
  fanOrdered (Triangles tetraTriangulation) 1 [0; 3; 1].
Proof.
  apply (incident_fan_order tetraHull tetra [] tetraTriangulation 1 [0; 3; 1]).
  - exact tetra_triangulation.
  - unfold len. simpl. lia.
  - vm_compute. reflexivity.
  - exists [0; 3; 1]. split; [reflexivity|]. split.
    + simpl. repeat split.
      * exists 2. split; reflexivity.
      * exists 3. split; reflexivity.
      * exists 0. split; reflexivity.
    + vm_compute. repeat constructor; intros Hin;
        repeat (apply elem_of_cons in Hin as [Hin|Hin]; [discriminate|]);
        now apply elem_of_nil in Hin.
Defined.

Lemma fanOrdered_fanOrderedb (tris : list int3) (v : Z) (s : list Z) :
  fanOrdered tris v s -> fanOrderedb tris v s = true.
Proof.
  induction s as [|a s IH]; intros H; [reflexivity|].
  destruct s as [|b s]; [reflexivity|].
  cbn [fanOrderedb]. apply andb_true_intro. split.
  - apply linkb_link. exact (H 0%nat a b eq_refl eq_refl).
  - apply IH. intros k x y Hx Hy. exact (H (S k) x y Hx Hy).
Qed.

Lemma someSliceUnordered_spec (sites : s2.PointVector) (ch : list Z) :
  someSliceUnordered sites ch = true ->
  exists t v s,
    NewTriangulation (hullListing ch) sites [] = Ok t /\
    0 <= v < len sites /\
    IncidentTriangles t v = Ok s /\
    ~ fanOrdered (Triangles t) v s.
Proof.
  unfold someSliceUnordered.
  destruct (NewTriangulation (hullListing ch) sites []) as [t| |];
    try discriminate.
  intros H. apply existsb_exists in H as (v & Hv & H).
  apply in_map_iff in Hv as (k & <- & Hk). apply in_seq in Hk.
  destruct (IncidentTriangles t (Z.of_nat k)) as [s| |] eqn:Es;
    try discriminate.
  exists t, (Z.of_nat k), s. split; [reflexivity|].
  split; [unfold len; lia|]. split; [exact Es|].
  intros Hfan. apply fanOrdered_fanOrderedb in Hfan.
  rewrite Hfan in H. discriminate.
Qed.

(** C1: the claim fails on the hull of four sites of one hemisphere.  The
    sites of [hemi] are unit vectors, their hull is the tetrahedron of the
    four faces [tetraFaces], and the build succeeds.  The face of the
    sites 1, 2 and 3 looks at the centre of the sphere: the orientation
    pass, whose test is against the first vertex of the face, turns it
    against the other faces, and it leaves the slice of site 1 as
    [[0; 1; 3]], where the next vertex of triangle 0 is 2 and the previous
    vertex of triangle 1 is 3.  Whatever the order in which the hull
    routine lists the four faces and the vertices of each, the slice of
    some site is out of fan order. *)
Theorem incident_order_hemisphere :
  Forall (fun p => r3.Norm (s2.Vector p) = 1%float) hemi /\
  NewTriangulation hemiHull hemi [] = Ok hemiTriangulation /\
  Triangles hemiTriangulation
    = [mkInt3 0 1 2; mkInt3 0 3 1; mkInt3 0 2 3; mkInt3 1 2 3] /\
  IncidentTriangles hemiTriangulation 1 = Ok [0; 1; 3] /\
  nextAt (Triangles hemiTriangulation) 1 0 = Some 2 /\
  prevAt (Triangles hemiTriangulation) 1 1 = Some 3 /\
  ~ fanOrdered (Triangles hemiTriangulation) 1 [0; 1; 3] /\
  everyListing tetraFaces
    (fun ch => exists t v s,
                 NewTriangulation (hullListing ch) hemi [] = Ok t /\
                 0 <= v < len hemi /\
                 IncidentTriangles t v = Ok s /\
                 ~ fanOrdered (Triangles t) v s).
Proof.
  split; [repeat constructor|].
  split; [vm_compute; reflexivity|]. split; [reflexivity|].
  split; [vm_compute; reflexivity|]. split; [reflexivity|].
  split; [reflexivity|]. split.
  - intros H. destruct (H 0%nat 0 1 eq_refl eq_refl) as (w & Hn & Hp).
    vm_compute in Hn, Hp. congruence.
  - unfold everyListing.
    apply (forallb_Forall
             (fun fs => forallb (someSliceUnordered hemi) (vertexOrders fs))).
    + intros fs. apply forallb_Forall. apply someSliceUnordered_spec.
    + vm_compute. reflexivity.
Qed.

(** C9 as stated fails: sorting the slice [[0; 1; 2]] of site 0 over the
    triangles built from [brokenHull], the slot before position 1 has next
    vertex 1, and neither the entry at position 1 (previous vertex 2) nor
    the later entry (previous vertex 3) matches; the sort returns the slice
    as it is and the construction succeeds. *)
Lemma unmatched_position_builds :
  nextAt (Triangles brokenTriangulation) 0 0 = Some 1 /\
  prevAt (Triangles brokenTriangulation) 0 1 = Some 2 /\
  prevAt (Triangles brokenTriangulation) 0 2 = Some 3 /\
  sortIncidentTriangleIndicesCCW 0 [0; 1; 2] (Triangles brokenTriangulation)
    = Ok [0; 1; 2] /\
  NewTriangulation brokenHull tetra [] = Ok brokenTriangulation /\
  ~ failsWith (NewTriangulation brokenHull tetra []) InconsistentHullOutput.
Proof.
  repeat split; try (vm_compute; reflexivity).
  intros (e & He & _). rewrite broken_triangulation in He. discriminate.
Qed.

Lemma no_match_is_not_an_error_witness :
  sortStep 0 (Triangles brokenTriangulation) (len [0; 1; 2]) 1 [0; 1; 2]
    = Ok [0; 1; 2].
Proof.
  apply (proj1 (proj2 (no_match_is_not_an_error tetraHull))
           (Triangles brokenTriangulation) 0 1 [0; 1; 2] 0 1).
  - unfold len. simpl. lia.
  - reflexivity.
  - reflexivity.
  - intros m Hm. unfold len in Hm. simpl in Hm.
    assert (m = 2%nat) as -> by lia.
    exists 2, 3. split; [reflexivity|]. split; [reflexivity|lia].
Defined.

(** C2 as stated fails in its consequence: in the diagram of [axisTetra]
    built with the tolerance [1e-16], the vertex of the face of the three
    sites on the axes is [(c, c, c)] for the binary64 number [c] next
    above the one nearest to [1 / sqrt 3]; its norm, [sqrt 3 * c], is more
    than [1e-16] above 1.  The norm that [Norm] computes in binary64 is
    more than [1e-16] off for another vertex.  The diagram has a vertex
    off by more than [1e-16] in whatever order the hull routine lists the
    vertices of the four faces, and in whatever order it lists the
    faces. *)
Lemma dual_vertex_off_unit :
  s2voronoi.NewDiagram tetraHull axisTetra 1e-16 = Ok axisDiagram /\
  s2voronoi.Vertices axisDiagram !! 0%nat
    = Some (point 0x1.279a74590331dp-1 0x1.279a74590331dp-1
                  0x1.279a74590331dp-1) /\
  unitWithinExactly 1e-16 <$> s2voronoi.Vertices axisDiagram
    = [false; true; true; true] /\
  unitWithin 1e-16 <$> s2voronoi.Vertices axisDiagram
    = [true; false; true; true] /\
  Forall (fun ch =>
            exists d,
              s2voronoi.NewDiagram (hullListing ch) axisTetra 1e-16 = Ok d /\
              forallb (unitWithinExactly 1e-16) (s2voronoi.Vertices d) = false)
         (vertexOrders tetraFaces ++
          map (fun fs : list (list Z) => concat fs) (orders tetraFaces)).
Proof.
  split; [exact axis_diagram|]. split; [vm_compute; reflexivity|].
  split; [vm_compute; reflexivity|]. split; [vm_compute; reflexivity|].
  apply (forallb_Forall (someVertexOffUnit axisTetra 1e-16)).
  - intros ch. unfold someVertexOffUnit.
    destruct (s2voronoi.NewDiagram (hullListing ch) axisTetra 1e-16)
      as [d| |]; try discriminate.
    intros H. apply negb_true_iff in H. eauto.
  - vm_compute. reflexivity.
Qed.

(** Where the products of the normalization underflow it has not rounded
    accurately, and the vertex is the zero vector: so it is for the face
    of the three sites of [closeSites] that are [1e-200] apart. *)
Lemma close_sites_zero_vertex :
  Forall (fun p => r3.Norm (s2.Vector p) = 1%float) closeSites /\
  (exists d, s2voronoi.NewDiagram tetraHull closeSites 0 = Ok d /\
             s2voronoi.Vertices d !! 0%nat = Some (point 0 0 0)) /\
  roundsAccurately
    (outwardNormal (point 1 0 0) (point 1 1e-200 0) (point 1 0 1e-200))
  = false.
Proof.
  split; [repeat constructor|]. split; [|vm_compute; reflexivity].
  eexists. split; vm_compute; reflexivity.
Qed.

(** The normalization of the four vertices of the tetrahedron's diagram
    has rounded accurately. *)
Lemma tetra_rounds_accurately :
  forallb (fun tri =>
             match tetra !! Z.to_nat (at0 tri), tetra !! Z.to_nat (at1 tri),
                   tetra !! Z.to_nat (at2 tri) with
             | Some p0, Some p1, Some p2 =>
                 roundsAccurately (outwardNormal p0 p1 p2)
             | _, _, _ => false
             end) (Triangles tetraTriangulation) = true.
Proof. vm_compute. reflexivity. Qed.

Lemma voronoi_vertices_witness :
  exists dt,
    NewTriangulation tetraHull tetra [WithEps (effectiveEps 0)] = Ok dt /\
    len (s2voronoi.Vertices tetraDiagram) = len (Triangles dt) /\
    forall i, 0 <= i < len (Triangles dt) ->
      exists tri p0 p1 p2,
        Triangles dt !! Z.to_nat i = Some tri /\
        index tetra (at0 tri) = Ok p0 /\
        index tetra (at1 tri) = Ok p1 /\
        index tetra (at2 tri) = Ok p2 /\
        s2voronoi.Vertices tetraDiagram !! Z.to_nat i
        = Some (dualVertex p0 p1 p2) /\
        (roundsAccurately (outwardNormal p0 p1 p2) = true ->
         (exists n2,
             norm2Q (s2.Vector (dualVertex p0 p1 p2)) = Some n2 /\
             (1 - (1 # 562949953421312) <= n2
                <= 1 + (1 # 562949953421312))%Q) /\
         (forall e,
             exact (effectiveEps 0) = Some e ->
             ((1 # 562949953421312) <= e <= 1)%Q ->
             unitWithinExactly (effectiveEps 0) (dualVertex p0 p1 p2)
             = true)).
Proof. exact (voronoi_vertices tetraHull tetra 0 tetraDiagram tetra_diagram). Defined.

Lemma triangle_count_witness :
  len (Triangles tetraTriangulation) = 2 * (len tetra - 2).
Proof.
  exact (proj2 (triangle_count tetraHull tetra [] tetra_four_sites)
           tetraTriangulation tetra_triangulation).
Defined.

Lemma cell_lists_witness :
  exists dt,
    NewTriangulation tetraHull tetra [WithEps (effectiveEps 0)] = Ok dt /\
    s2voronoi.Sites tetraDiagram = tetra /\
    s2voronoi.CellVertices tetraDiagram = IncidentTriangleIndices dt /\
    s2voronoi.CellOffsets tetraDiagram = IncidentTriangleOffsets dt /\
    len (s2voronoi.CellNeighbors tetraDiagram)
      = len (s2voronoi.CellVertices tetraDiagram) /\
    forall v, 0 <= v < len tetra ->
      exists it nbs,
        IncidentTriangles dt v = Ok it /\
        VertexIndices tetraDiagram v = Ok it /\
        NeighborIndices tetraDiagram v = Ok nbs /\
        length nbs = length it /\
        forall (i : nat) tIdx,
          it !! i = Some tIdx ->
          exists tri n,
            Triangles dt !! Z.to_nat tIdx = Some tri /\
            NextVertex tri v = Ok n /\
            nbs !! i = Some n.
Proof. exact (cell_lists tetraHull tetra 0 tetraDiagram tetra_diagram). Defined.

(** C5 as stated fails: the sign test of the orientation pass is against
    the first vertex.  On the triangle [(q0, q1, q2)] it is negative and the
    last two entries are swapped, while the sign against the sum of the
    three vertices is not negative. *)
Lemma orientation_sum_test_differs :
  sortTriangleVerticesCCW (mkInt3 0 1 2) thinTetra = Ok (mkInt3 0 2 1) /\
  facesInwardBySum q0 q1 q2 = false /\
  exists t, NewTriangulation tetraHull thinTetra [] = Ok t /\
            rawTriangle (tetraHull (map s2.Vector thinTetra) true true defaultEps) 0
              = Some (mkInt3 0 1 2) /\
            Triangles t !! 0%nat = Some (mkInt3 0 2 1).
Proof.
  split; [vm_compute; reflexivity|]. split; [vm_compute; reflexivity|].
  destruct (NewTriangulation tetraHull thinTetra []) as [t| |] eqn:E;
    try (vm_compute in E; discriminate).
  exists t. split; [reflexivity|]. split; [reflexivity|].
  vm_compute in E. injection E as <-. reflexivity.
Qed.

Lemma orientation_pass_witness :
  exists opts,
    applySetters [] (mkOptions defaultEps) = Ok opts /\
    forall i, 0 <= i < len (Triangles tetraTriangulation) ->
      exists a b c p0 p1 p2,
        rawTriangle (tetraHull (map s2.Vector tetra) true true (Eps opts)) i
          = Some (mkInt3 a b c) /\
        index tetra a = Ok p0 /\ index tetra b = Ok p1 /\
        index tetra c = Ok p2 /\
        Triangles tetraTriangulation !! Z.to_nat i =
        Some (if (r3.Dot (r3.Cross (r3.Sub (s2.Vector p1) (s2.Vector p0))
                                   (r3.Sub (s2.Vector p2) (s2.Vector p0)))
                         (s2.Vector p0) <? 0)%float
              then mkInt3 a c b else mkInt3 a b c).
Proof.
  exact (orientation_pass tetraHull tetra [] tetraTriangulation tetra_triangulation).
Defined.

Lemma cell_offsets_witness :
  (forall (i j : nat) a b,
      (i <= j)%nat ->
      s2voronoi.CellOffsets tetraDiagram !! i = Some a ->
      s2voronoi.CellOffsets tetraDiagram !! j = Some b -> a <= b) /\
  s2voronoi.CellOffsets tetraDiagram !! 0%nat = Some 0 /\
  last (s2voronoi.CellOffsets tetraDiagram)
    = Some (len (s2voronoi.CellVertices tetraDiagram)) /\
  len (s2voronoi.CellVertices tetraDiagram)
    = len (s2voronoi.CellNeighbors tetraDiagram) /\
  len (s2voronoi.CellNeighbors tetraDiagram)
    = 3 * len (s2voronoi.Vertices tetraDiagram) /\
  exists dt,
    NewTriangulation tetraHull tetra [WithEps (effectiveEps 0)] = Ok dt /\
    len (s2voronoi.Vertices tetraDiagram) = len (Triangles dt).
Proof. exact (cell_offsets tetraHull tetra 0 tetraDiagram tetra_diagram). Defined.

(** C7 as stated fails for the diagram builder at [eps = 0]: the
    tolerance is [<= 0] and the diagram is built. *)
Lemma zero_tolerance_builds :
  (0 <=? 0)%float = true /\
  s2voronoi.NewDiagram tetraHull tetra 0 = Ok tetraDiagram /\
  ~ failsWith (s2voronoi.NewDiagram tetraHull tetra 0) InvalidTolerance.
Proof.
  split; [reflexivity|]. split; [exact tetra_diagram|].
  intros (e & He & _). rewrite tetra_diagram in He. discriminate.
Qed.

Lemma invalid_tolerance_witness :
  failsWith (NewTriangulation tetraHull tetra ([] ++ WithEps (-1) :: []))
            InvalidTolerance /\
  failsWith (s2voronoi.NewDiagram tetraHull tetra (-1)) InvalidTolerance /\
  s2voronoi.NewDiagram tetraHull tetra 0 =
  s2voronoi.NewDiagram tetraHull tetra 1e-12.
Proof.
  pose proof (invalid_tolerance tetraHull tetra (-1)) as (H1 & H2 & _).
  pose proof (invalid_tolerance tetraHull tetra 0) as (_ & _ & H3 & _).
  split; [|split].
  - apply (H1 [] [] (mkOptions defaultEps)); reflexivity.
  - apply H2; reflexivity.
  - apply H3. reflexivity.
Defined.

(** C8 as stated fails when the tolerance is rejected as well: with three
    sites and [eps = -1] both builders fail with [InvalidTolerance]. *)
Lemma few_sites_invalid_tolerance :
  len threeSites < 4 /\
  NewTriangulation tetraHull threeSites [WithEps (-1)] = Err ErrWithEps /\
  ~ failsWith (NewTriangulation tetraHull threeSites [WithEps (-1)])
              InsufficientInput /\
  s2voronoi.NewDiagram tetraHull threeSites (-1) = Err ErrWithEps /\
  ~ failsWith (s2voronoi.NewDiagram tetraHull threeSites (-1)) InsufficientInput.
Proof.
  split; [unfold len; simpl; lia|].
  split; [reflexivity|]. split; [|split; [reflexivity|]].
  - intros (e & He & Hk). vm_compute in He. injection He as <-. discriminate.
  - intros (e & He & Hk). vm_compute in He. injection He as <-. discriminate.
Qed.

Lemma insufficient_input_witness :
  failsWith (NewTriangulation tetraHull threeSites []) InsufficientInput /\
  failsWith (s2voronoi.NewDiagram tetraHull threeSites 0) InsufficientInput.
Proof.
  assert (H : len threeSites < 4) by (unfold len; simpl; lia).
  pose proof (insufficient_input tetraHull threeSites H) as (_ & H1 & _ & H2).
  split.
  - apply (H1 [] (mkOptions defaultEps)). reflexivity.
  - apply H2. left. reflexivity.
Defined.

End Runs.


(** ** Loops that run to their end *)

Lemma forFrom_Ok {St} (Inv : Z -> St -> Prop) (body : Z -> St -> result St) :
  forall (n : nat) (from : Z) (s : St),
    Inv from s ->
    (forall i x, from <= i < from + Z.of_nat n -> Inv i x ->
                 exists x', body i x = Ok x' /\ Inv (i + 1) x') ->
    exists s', forFrom from n body s = Ok s' /\ Inv (from + Z.of_nat n) s'.
Proof.
  induction n as [|n IH]; intros from s H0 Hstep; simpl.
  - exists s. split; [reflexivity|]. now replace (from + Z.of_nat 0) with from by lia.
  - destruct (Hstep from s) as (s1 & E & H1); [lia|exact H0|].
    rewrite E. simpl.
    replace (from + Z.of_nat (S n)) with ((from + 1) + Z.of_nat n) by lia.
    apply IH; [exact H1|]. intros i x Hi. apply Hstep. lia.
Qed.

Lemma forRange_Ok {St} (Inv : Z -> St -> Prop) (body : Z -> St -> result St)
  (n : Z) (s : St) :
  0 <= n ->
  Inv 0 s ->
  (forall i x, 0 <= i < n -> Inv i x ->
               exists x', body i x = Ok x' /\ Inv (i + 1) x') ->
  exists s', forRange n body s = Ok s' /\ Inv n s'.
Proof.
  intros Hn H0 Hstep. unfold forRange.
  destruct (forFrom_Ok Inv body (Z.to_nat n) 0 s H0) as (s' & E & H).
  - intros i x Hi. apply Hstep. lia.
  - exists s'. split; [exact E|].
    now replace (0 + Z.of_nat (Z.to_nat n)) with n in H by lia.
Qed.

Lemma forEachFrom_Ok {A St} (Inv : nat -> St -> Prop)
  (body : Z -> A -> St -> result St) :
  forall (a : list A) (done : nat) (from : Z) (s : St),
    Inv done s ->
    (forall k x st, a !! k = Some x -> Inv (done + k)%nat st ->
                    exists st', body (from + Z.of_nat k) x st = Ok st' /\
                                Inv (S (done + k)) st') ->
    exists s', forEachFrom from a body s = Ok s' /\ Inv (done + length a)%nat s'.
Proof.
  induction a as [|x a IH]; intros done from s H0 Hstep; simpl.
  - exists s. split; [reflexivity|]. now rewrite Nat.add_0_r.
  - destruct (Hstep 0%nat x s eq_refl) as (s1 & E & H1);
      [now rewrite Nat.add_0_r|].
    rewrite Z.add_0_r in E. rewrite E. simpl. rewrite Nat.add_0_r in H1.
    replace (done + S (length a))%nat with (S done + length a)%nat by lia.
    apply IH; [exact H1|]. intros k y st Hk HI.
    destruct (Hstep (S k) y st Hk) as (st' & E' & H').
    + now replace (done + S k)%nat with (S done + k)%nat by lia.
    + exists st'. split.
      * now replace (from + 1 + Z.of_nat k) with (from + Z.of_nat (S k)) by lia.
      * now replace (S (S done + k)) with (S (done + S k)) by lia.
Qed.

(** ** More on the incidence sort *)

Section SortMore.

Import s2delaunay.

Variables (tris : list int3) (v : Z).

Lemma findAndSwap_perm (nxt i : Z) (k : nat) (j : Z) (s s' : list Z) :
  findAndSwap v tris nxt i j k s = Ok s' ->
  0 <= i < j -> j + Z.of_nat k = len s ->
  s' ≡ₚ s /\ forall q : nat, Z.of_nat q < i -> s' !! q = s !! q.
Proof.
  intros H Hij Hlen.
  apply findAndSwap_spec in H as [[-> _]|(m & x & y & Hm & Hx & Hy & _ & ->)];
    auto.
  split.
  - now apply Permutation_insert_swap.
  - intros q Hq. now rewrite !list_lookup_insert_ne by lia.
Qed.

Lemma sortStep_perm (n i : Z) (s s' : list Z) :
  sortStep v tris n i s = Ok s' ->
  n = len s -> 1 <= i < n ->
  s' ≡ₚ s /\ forall q : nat, Z.of_nat q < i -> s' !! q = s !! q.
Proof.
  unfold sortStep. intros H -> Hi.
  apply bind_Ok_inv in H as (a & _ & H).
  apply bind_Ok_inv in H as (tr & _ & H).
  apply bind_Ok_inv in H as (w & _ & H).
  apply findAndSwap_perm in H; [exact H|lia|lia].
Qed.

Lemma sort_perm_head (s s' : list Z) :
  sortIncidentTriangleIndicesCCW v s tris = Ok s' ->
  s' ≡ₚ s /\ head s' = head s.
Proof.
  unfold sortIncidentTriangleIndicesCCW. intros H.
  apply (forFrom_inv (fun i x =>
           length x = length s /\ x ≡ₚ s /\ x !! 0%nat = s !! 0%nat)) in H.
  - destruct H as (_ & Hp & H0). split; [exact Hp|].
    now rewrite !head_lookup.
  - auto.
  - intros i x x' Hi (Hl & Hp & H0) Hstep.
    pose proof (sortStep_length _ _ _ _ _ _ Hstep) as Hl'.
    apply sortStep_perm in Hstep as [Hp' Hq];
      [|unfold len in *; lia|unfold len in *; lia].
    split; [congruence|]. split; [now rewrite Hp'|].
    rewrite <- H0. apply Hq. lia.
Qed.

Lemma forFrom_fixed {St} (body : Z -> St -> result St) (s : St) :
  forall (n : nat) (from : Z),
    (forall i, from <= i < from + Z.of_nat n -> body i s = Ok s) ->
    forFrom from n body s = Ok s.
Proof.
  induction n as [|n IH]; intros from H; simpl; [reflexivity|].
  rewrite H by lia. simpl. apply IH. intros i Hi. apply H. lia.
Qed.

(** X2: a slice that is in fan order already, with pairwise different
    previous vertices, is left as it is: the sort ends normally and returns
    the same slice. *)
Theorem sort_fixed_point (s : list Z) :
  fanOrdered tris v s ->
  NoDup (map (prevAt tris v) s) ->
  sortIncidentTriangleIndicesCCW v s tris = Ok s.
Proof.
  intros Hfan Hnd. unfold sortIncidentTriangleIndicesCCW.
  apply forFrom_fixed. intros i Hi. unfold len in Hi.
  assert (Hlt : (Z.to_nat i < length s)%nat) by lia.
  destruct (lookup_lt_is_Some_2 s (Z.to_nat (i - 1)) ltac:(lia)) as [a Ha].
  destruct (lookup_lt_is_Some_2 s (Z.to_nat i) Hlt) as [b Hb].
  replace (Z.to_nat i) with (S (Z.to_nat (i - 1))) in Hb by lia.
  destruct (Hfan _ _ _ Ha Hb) as (w & Hw & Hpb).
  unfold sortStep. rewrite (index_Ok _ (i - 1) a) by (auto; lia). simpl.
  apply nextAt_Some_inv in Hw as (tri & Etri & Enext).
  rewrite Etri. simpl. rewrite Enext. simpl.
  apply findAndSwap_no_match; [lia|unfold len; lia|].
  intros m Hm. unfold len in Hm.
  destruct (lookup_lt_is_Some_2 s m ltac:(lia)) as [c Hc].
  destruct (lookup_lt_is_Some_2 s (Init.Nat.pred m) ltac:(lia)) as [c' Hc'].
  replace m with (S (Init.Nat.pred m)) in Hc by lia.
  destruct (Hfan _ _ _ Hc' Hc) as (p & _ & Hp).
  replace (S (Init.Nat.pred m)) with m in Hc by lia.
  exists c, p. split; [exact Hc|]. split; [exact Hp|].
  intros ->.
  apply (NoDup_lookup _ (S (Z.to_nat (i - 1))) m (Some w)) in Hnd; [lia| |].
  - rewrite list_lookup_fmap, Hb. simpl. now rewrite Hpb.
  - rewrite list_lookup_fmap, Hc. simpl. now rewrite Hp.
Qed.

(** X1: the incidence sort only rearranges the slice, and it never moves
    the first entry. *)
Theorem sort_permutes (s s' : list Z) :
  sortIncidentTriangleIndicesCCW v s tris = Ok s' ->
  s' ≡ₚ s /\ head s' = head s.
Proof. apply sort_perm_head. Qed.

(** *** The sort runs to its end on slices of incident triangles *)

Lemma incident_PrevVertex (e : Z) :
  incident tris v e ->
  exists tri p, index tris e = Ok tri /\ PrevVertex tri v = Ok p.
Proof.
  intros (tri & Htri & Hv). destruct (vertexOf_PrevVertex _ _ Hv) as [p Hp].
  eauto.
Qed.

Lemma incident_NextVertex (e : Z) :
  incident tris v e ->
  exists tri n, index tris e = Ok tri /\ NextVertex tri v = Ok n.
Proof.
  intros (tri & Htri & Hv). destruct (vertexOf_NextVertex _ _ Hv) as [n Hn].
  eauto.
Qed.

Lemma index_lt {A} (a : list A) (i : Z) :
  0 <= i < len a -> exists x, index a i = Ok x /\ a !! Z.to_nat i = Some x.
Proof.
  intros Hi. unfold len in Hi.
  destruct (lookup_lt_is_Some_2 a (Z.to_nat i) ltac:(lia)) as [x Hx].
  exists x. split; [apply index_Ok; [lia|exact Hx]|exact Hx].
Qed.

Lemma store_lt {A} (a : list A) (i : Z) (x : A) :
  0 <= i < len a -> store a i x = Ok (<[Z.to_nat i := x]> a).
Proof.
  intros Hi. unfold store, len in *.
  destruct (Z.leb_spec 0 i); [|lia].
  destruct (Z.ltb_spec i (Z.of_nat (length a))); [reflexivity|lia].
Qed.

Lemma findAndSwap_Ok (nxt i : Z) :
  forall (k : nat) (j : Z) (s : list Z),
    Forall (incident tris v) s ->
    0 <= i < j -> j + Z.of_nat k = len s ->
    exists s', findAndSwap v tris nxt i j k s = Ok s'.
Proof.
  induction k as [|k IH]; intros j s Hs Hij Hlen; simpl; [eauto|].
  destruct (index_lt s j ltac:(lia)) as (e & -> & He). simpl.
  destruct (incident_PrevVertex e) as (tri & p & -> & Hp).
  { eapply (proj1 (Forall_lookup _ _) Hs); eauto. }
  simpl. rewrite Hp. simpl.
  destruct (nxt =? p); [|apply IH; auto; lia].
  unfold swap. destruct (index_lt s i ltac:(lia)) as (x & -> & _). simpl.
  destruct (index_lt s j ltac:(lia)) as (y & -> & _). simpl.
  rewrite store_lt by lia. simpl.
  rewrite store_lt by (unfold len in *; rewrite length_insert; lia). eauto.
Qed.

Lemma sortStep_Ok (i : Z) (s : list Z) :
  Forall (incident tris v) s -> 1 <= i < len s ->
  exists s', sortStep v tris (len s) i s = Ok s'.
Proof.
  intros Hs Hi. unfold sortStep.
  destruct (index_lt s (i - 1) ltac:(lia)) as (e & -> & He). simpl.
  destruct (incident_NextVertex e) as (tri & n & -> & Hn).
  { eapply (proj1 (Forall_lookup _ _) Hs); eauto. }
  simpl. rewrite Hn. simpl. apply findAndSwap_Ok; auto; lia.
Qed.

Lemma sort_Ok (s : list Z) :
  Forall (incident tris v) s ->
  exists s', sortIncidentTriangleIndicesCCW v s tris = Ok s'.
Proof.
  intros Hs. unfold sortIncidentTriangleIndicesCCW.
  destruct (forFrom_Ok
              (fun _ x => length x = length s /\ Forall (incident tris v) x)
              (sortStep v tris (len s)) (Z.to_nat (len s - 1)) 1 s)
    as (s' & E & _); [auto| |eauto].
  intros i x Hi [Hl Hx].
  assert (Hlx : len x = len s) by (unfold len; lia).
  destruct (sortStep_Ok i x Hx) as (x' & E); [unfold len in *; lia|].
  rewrite Hlx in E. exists x'. split; [exact E|].
  pose proof (sortStep_length _ _ _ _ _ _ E) as Hl'.
  apply sortStep_perm in E as [Hp _]; [|unfold len in *; lia..].
  split; [congruence|]. now rewrite Hp.
Qed.

End SortMore.

(** ** Options *)

Section Options.

Import s2delaunay.

Variable ConvexHull : list r3.Vector -> bool -> bool -> float -> list Z.

Lemma applySetters_WithEps (es : list float) (o : TriangulationOptions) :
  Forall (fun e => (e <=? 0)%float = false) es ->
  applySetters (map WithEps es) o = Ok (fold_left (fun _ e => mkOptions e) es o).
Proof.
  revert o. induction es as [|e es IH]; intros o Hall; simpl; [reflexivity|].
  apply Forall_cons in Hall as [He Hall]. unfold WithEps at 1. rewrite He.
  simpl. now apply IH.
Qed.

(** X4: tolerance options compose by overriding: when every tolerance in
    a list of [WithEps] options is accepted, the triangulation is built
    as with the last of them alone. *)
Theorem last_tolerance_wins (vertices : s2.PointVector) (es : list float)
  (e : float) :
  Forall (fun x => (x <=? 0)%float = false) (es ++ [e]) ->
  NewTriangulation ConvexHull vertices (map WithEps (es ++ [e])) =
  NewTriangulation ConvexHull vertices [WithEps e].
Proof.
  intros Hall. unfold NewTriangulation.
  rewrite applySetters_WithEps by exact Hall.
  rewrite (applySetters_WithEps [e]).
  - now rewrite fold_left_app.
  - apply Forall_app in Hall as [_ He]. exact He.
Qed.

End Options.

(** ** Corners of the hull output and their ranks *)

Section Ranks.

Lemma countIf_app (f : Z -> bool) (l1 l2 : list Z) :
  countIf f (l1 ++ l2) = countIf f l1 + countIf f l2.
Proof. induction l1 as [|x l1 IH]; simpl; [reflexivity|]. rewrite IH. lia. Qed.

Lemma occ_take_S (ch : list Z) (m : nat) (x v : Z) :
  ch !! m = Some x ->
  occ (take (S m) ch) v = occ (take m ch) v + (if v =? x then 1 else 0).
Proof.
  intros H. rewrite (take_S_r _ _ _ H). unfold occ. rewrite countIf_app.
  simpl. lia.
Qed.

Lemma occ_take_le (ch : list Z) (m : nat) (v : Z) :
  occ (take m ch) v <= occ ch v.
Proof.
  rewrite <- (take_drop m ch) at 2. unfold occ. rewrite countIf_app.
  pose proof (countIf_nonneg (Z.eqb v) (drop m ch)). lia.
Qed.

Lemma occ_take_mono (ch : list Z) (m m' : nat) (v : Z) :
  (m <= m')%nat -> occ (take m ch) v <= occ (take m' ch) v.
Proof.
  intros H. replace (take m ch) with (take m (take m' ch)).
  - apply occ_take_le.
  - rewrite take_take. f_equal. lia.
Qed.

Lemma occ_take_lt (ch : list Z) (m m' : nat) (v : Z) :
  ch !! m = Some v -> (m < m')%nat ->
  occ (take m ch) v < occ (take m' ch) v.
Proof.
  intros H Hm. pose proof (occ_take_mono ch (S m) m' v ltac:(lia)) as Hle.
  rewrite (occ_take_S _ _ _ _ H), Z.eqb_refl in Hle. lia.
Qed.

Lemma occ_take_lt_all (ch : list Z) (m : nat) (v : Z) :
  ch !! m = Some v -> occ (take m ch) v < occ ch v.
Proof.
  intros H. pose proof (occ_take_le ch (S m) v) as Hle.
  rewrite (occ_take_S _ _ _ _ H), Z.eqb_refl in Hle. lia.
Qed.

(** The corner of rank [r] at site [v] exists when [v] has more than [r]
    corners. *)
Lemma nth_occurrence (ch : list Z) (v r : Z) :
  0 <= r < occ ch v ->
  exists m : nat, ch !! m = Some v /\ occ (take m ch) v = r.
Proof.
  induction ch as [|x ch IH] using rev_ind; intros Hr.
  - unfold occ in Hr. simpl in Hr. lia.
  - unfold occ in Hr. rewrite countIf_app in Hr. simpl in Hr.
    fold (occ ch v) in Hr.
    destruct (Z.lt_ge_cases r (occ ch v)) as [Hlt|Hge].
    + destruct IH as (m & Hm & Hrank); [lia|].
      exists m. pose proof (lookup_lt_Some _ _ _ Hm) as Hml. split.
      * now apply lookup_app_l_Some.
      * now rewrite take_app_le by lia.
    + destruct (Z.eqb_spec v x) as [->|]; [|lia].
      exists (length ch). split.
      * now rewrite list_lookup_middle.
      * rewrite take_app_length. lia.
Qed.

Lemma below_nonneg (ch : list Z) (k : Z) : 0 <= below ch k.
Proof. apply countIf_nonneg. Qed.

Lemma below_le_len (ch : list Z) (k : Z) : below ch k <= len ch.
Proof. apply countIf_le_len. Qed.

End Ranks.

(** ** The placement pass runs to its end *)

Section PlacementRuns.

Import s2delaunay.

Variables (ch : list Z) (vertices : s2.PointVector) (offsets : list Z) (T N : Z).

Hypothesis HT : 0 <= T.
Hypothesis Hlen : len ch = T * 3.
Hypothesis HN : len vertices = N.
Hypothesis Hall : Forall (fun x => 0 <= x < N) ch.

(** The place of a corner lies in the range of its site. *)
Lemma corner_place (m : nat) (v : Z) :
  ch !! m = Some v ->
  0 <= v < N /\
  below ch v <= below ch v + occ (take m ch) v < below ch (v + 1) /\
  0 <= below ch v /\ below ch (v + 1) <= T * 3.
Proof.
  intros H. split; [exact (proj1 (Forall_lookup _ _) Hall _ _ H)|].
  pose proof (occ_take_lt_all _ _ _ H).
  pose proof (countIf_nonneg (Z.eqb v) (take m ch)). fold (occ (take m ch) v) in *.
  pose proof (below_nonneg ch v). pose proof (below_le_len ch (v + 1)).
  rewrite below_succ in *. lia.
Qed.

(** Two corners never share a place. *)
Lemma corner_place_inj (m m' : nat) (v v' : Z) :
  ch !! m = Some v -> ch !! m' = Some v' -> (m' < m)%nat ->
  below ch v' + occ (take m' ch) v' <> below ch v + occ (take m ch) v.
Proof.
  intros H H' Hm.
  destruct (corner_place _ _ H) as (_ & Hp & _).
  destruct (corner_place _ _ H') as (_ & Hp' & _).
  destruct (Z.lt_trichotomy v' v) as [Hlt|[->|Hgt]].
  - pose proof (below_mono ch (v' + 1) v ltac:(lia)). lia.
  - pose proof (occ_take_lt _ _ _ _ H' Hm). lia.
  - pose proof (below_mono ch (v + 1) v' ltac:(lia)). lia.
Qed.

Lemma placeStep_Ok (i j : Z) (m : nat) (st : Triangulation * list Z) :
  0 <= i < T -> 0 <= j < 3 -> m = Z.to_nat (i * 3 + j) ->
  placeShape vertices offsets T N st ->
  csrInv ch N m st ->
  exists st', placeStep ch i j st = Ok st' /\ csrInv ch N (S m) st'.
Proof.
  intros Hi Hj Hm (Sv & So & St & Si & Sn) (Hcur & Hput).
  destruct st as [t nxt]. simpl in *. unfold len in *.
  destruct (lookup_lt_is_Some_2 ch m ltac:(lia)) as [v Hv].
  destruct (corner_place _ _ Hv) as (Hvr & Hp & Hb0 & Hb1).
  destruct (lookup_lt_is_Some_2 (Triangles t) (Z.to_nat i) ltac:(lia))
    as [tri Htri].
  unfold placeStep.
  rewrite (index_Ok _ (i * 3 + j) v) by (try lia; now rewrite <- Hm).
  simpl. rewrite (index_Ok _ i tri) by (try lia; exact Htri). simpl.
  unfold store at 1.
  destruct (Z.leb_spec 0 i); [|lia].
  destruct (Z.ltb_spec i (Z.of_nat (length (Triangles t)))); [|lia].
  simpl. rewrite (index_Ok _ v _ ltac:(lia) (Hcur v Hvr)). simpl.
  set (pos := below ch v + occ (take m ch) v) in *.
  unfold store at 1.
  destruct (Z.leb_spec 0 pos); [|lia].
  destruct (Z.ltb_spec pos (Z.of_nat (length (IncidentTriangleIndices t))));
    [|lia].
  simpl. unfold store.
  destruct (Z.leb_spec 0 v); [|lia].
  destruct (Z.ltb_spec v (Z.of_nat (length nxt))); [|lia].
  simpl. eexists. split; [reflexivity|]. split; simpl.
  - intros v' Hv'. rewrite (occ_take_S _ _ _ _ Hv).
    destruct (Z.eqb_spec v' v) as [->|Hne].
    + rewrite list_lookup_insert_eq by lia. f_equal. unfold pos. lia.
    + rewrite list_lookup_insert_ne by lia. rewrite Hcur by exact Hv'.
      f_equal. lia.
  - intros m' v' Hm' Hv''.
    destruct (decide (m' = m)) as [->|Hne].
    + assert (v' = v) as -> by congruence.
      rewrite list_lookup_insert_eq by (fold pos; lia). f_equal.
      rewrite Hm. rewrite Z2Nat.id by lia.
      rewrite Z.add_comm, Z.div_add by lia. rewrite Z.div_small by lia. lia.
    + pose proof (corner_place_inj m m' v v' Hv Hv'' ltac:(lia)) as Hpos.
      destruct (corner_place _ _ Hv'') as (_ & Hp' & Hb0' & _).
      rewrite list_lookup_insert_ne by (fold pos in Hpos; lia).
      apply Hput; [lia|exact Hv''].
Qed.

Lemma csrInv_withTriangles (m : nat) (t : Triangulation) (tris : list int3)
  (nxt : list Z) :
  csrInv ch N m (t, nxt) -> csrInv ch N m (withTriangles t tris, nxt).
Proof. intros H. exact H. Qed.

Lemma placeTriangle_Ok (i : Z) (st : Triangulation * list Z) :
  0 <= i < T ->
  placeShape vertices offsets T N st ->
  csrInv ch N (Z.to_nat (i * 3)) st ->
  exists st', placeTriangle ch i st = Ok st' /\
              placeShape vertices offsets T N st' /\
              csrInv ch N (Z.to_nat ((i + 1) * 3)) st'.
Proof.
  intros Hi Hs Hc.
  destruct (placeStep_Ok i 0 (Z.to_nat (i * 3)) st Hi ltac:(lia)
              ltac:(f_equal; lia) Hs Hc) as (s1 & E1 & C1).
  pose proof (placeStep_shape _ _ _ _ _ _ _ _ _ E1 Hs) as S1.
  destruct (placeStep_Ok i 1 (S (Z.to_nat (i * 3))) s1 Hi ltac:(lia)
              ltac:(lia) S1 C1) as (s2 & E2 & C2).
  pose proof (placeStep_shape _ _ _ _ _ _ _ _ _ E2 S1) as S2.
  destruct (placeStep_Ok i 2 (S (S (Z.to_nat (i * 3)))) s2 Hi ltac:(lia)
              ltac:(lia) S2 C2) as (s3 & E3 & C3).
  pose proof (placeStep_shape _ _ _ _ _ _ _ _ _ E3 S2) as S3.
  replace (S (S (S (Z.to_nat (i * 3))))) with (Z.to_nat ((i + 1) * 3)) in C3
    by lia.
  assert (Hrun : forRange 3 (placeStep ch i) st = Ok s3).
  { unfold forRange. simpl. change (0 + 1 + 1) with 2. change (0 + 1) with 1.
    rewrite E1. simpl. rewrite E2. simpl. rewrite E3. reflexivity. }
  apply placeStep_spec in E1 as (a & ta & _ & Ha & _ & _ & Hta & Ea & Va & _).
  apply placeStep_spec in E2 as (b & tb & _ & Hb & _ & _ & Htb & Eb & Vb & _).
  apply placeStep_spec in E3 as (c & tc & _ & Hc' & _ & _ & Htc & Ec & Vc & _).
  assert (Hlt : (Z.to_nat i < length (Triangles (fst st)))%nat)
    by (now apply lookup_lt_Some in Hta).
  rewrite Ea, list_lookup_insert_eq in Htb by exact Hlt. injection Htb as <-.
  rewrite Eb, list_lookup_insert_eq in Htc
    by (rewrite Ea, length_insert; exact Hlt).
  injection Htc as <-.
  assert (Htri : Triangles (fst s3) !! Z.to_nat i = Some (mkInt3 a b c)).
  { rewrite Ec. apply list_lookup_insert_eq.
    rewrite Eb, Ea, !length_insert. exact Hlt. }
  pose proof (proj1 (Forall_lookup _ _) Hall _ _ Ha) as Hra.
  pose proof (proj1 (Forall_lookup _ _) Hall _ _ Hb) as Hrb.
  pose proof (proj1 (Forall_lookup _ _) Hall _ _ Hc') as Hrc.
  cbv beta in Hra, Hrb, Hrc.
  destruct S3 as (Sv & So & St & Si & Sn).
  destruct s3 as [t3 nxt3]. simpl in *.
  destruct (lookup_lt_is_Some_2 vertices (Z.to_nat a)
              ltac:(unfold len in HN; lia)) as [p0 Hp0].
  destruct (lookup_lt_is_Some_2 vertices (Z.to_nat b)
              ltac:(unfold len in HN; lia)) as [p1 Hp1].
  destruct (lookup_lt_is_Some_2 vertices (Z.to_nat c)
              ltac:(unfold len in HN; lia)) as [p2 Hp2].
  unfold placeTriangle. rewrite Hrun. simpl.
  rewrite (index_Ok _ i (mkInt3 a b c)) by (try lia; exact Htri). simpl.
  unfold sortTriangleVerticesCCW. simpl. rewrite Sv.
  rewrite (index_Ok _ a p0), (index_Ok _ b p1), (index_Ok _ c p2)
    by (try lia; assumption).
  simpl. unfold store, len in *.
  destruct (Z.leb_spec 0 i); [|lia].
  destruct (Z.ltb_spec i (Z.of_nat (length (Triangles t3)))); [|lia].
  simpl.
  destruct (facesInward p0 p1 p2); simpl; eexists;
    (split; [reflexivity|]); (split; [|exact C3]);
    unfold placeShape, len; simpl; rewrite length_insert; auto.
Qed.

Lemma placePhase_Ok (st : Triangulation * list Z) :
  placeShape vertices offsets T N st ->
  csrInv ch N 0 st ->
  exists st', forRange T (placeTriangle ch) st = Ok st' /\
              placeShape vertices offsets T N st' /\
              csrInv ch N (Z.to_nat (T * 3)) st'.
Proof.
  intros Hs Hc.
  apply (forRange_Ok (fun i x =>
           placeShape vertices offsets T N x /\
           csrInv ch N (Z.to_nat (i * 3)) x)); auto.
  intros i x Hi [Hx Hcx]. now apply placeTriangle_Ok.
Qed.

End PlacementRuns.

(** ** The builder runs to its end *)

Section BuilderRuns.

Import s2delaunay.

Variable ConvexHull : list r3.Vector -> bool -> bool -> float -> list Z.

Lemma countPass_Ok (ch : list Z) :
  forall (from : Z) (offs : list Z),
    Forall (fun x => 0 <= x + 1 < len offs) ch ->
    exists offs', forEachFrom from ch countStep offs = Ok offs'.
Proof.
  induction ch as [|x ch IH]; intros from offs Hall; simpl; [eauto|].
  apply Forall_cons in Hall as [Hx Hall]. unfold countStep at 1.
  destruct (index_lt offs (x + 1) Hx) as (c & -> & _). simpl.
  rewrite store_lt by exact Hx. simpl. apply IH.
  unfold len in *. now rewrite length_insert.
Qed.

Lemma prefixPass_Ok (N : Z) (counts : list Z) :
  0 <= N -> len counts = N + 1 ->
  exists offs, forRange N prefixStep counts = Ok offs.
Proof.
  intros HN Hl.
  destruct (forRange_Ok (fun _ x => len x = N + 1) prefixStep N counts HN Hl)
    as (offs & E & _); [|eauto].
  intros i x Hi Hx. unfold prefixStep.
  destruct (index_lt x (i + 1) ltac:(lia)) as (a & -> & _). simpl.
  destruct (index_lt x i ltac:(lia)) as (b & -> & _). simpl.
  rewrite store_lt by lia. eexists. split; [reflexivity|].
  unfold len in *. now rewrite length_insert.
Qed.

Lemma seg_lookup (ch : list Z) (v : Z) (inds : list Z) (r : nat) :
  (r < Z.to_nat (below ch (v + 1) - below ch v))%nat ->
  seg ch v inds !! r = inds !! (Z.to_nat (below ch v) + r)%nat.
Proof. intros H. unfold seg. now rewrite lookup_take_lt, lookup_drop. Qed.

Lemma seg_length (ch : list Z) (v : Z) (inds : list Z) :
  below ch (v + 1) <= len inds ->
  len (seg ch v inds) = occ ch v.
Proof.
  intros H. unfold seg, len in *. rewrite length_take, length_drop.
  pose proof (below_succ ch v). pose proof (below_nonneg ch v).
  pose proof (countIf_nonneg (Z.eqb v) ch). fold (occ ch v) in *. lia.
Qed.

Lemma csrInv_placedBy (ch : list Z) (T N : Z) (st : Triangulation * list Z) :
  0 <= T -> len ch = T * 3 ->
  csrInv ch N (Z.to_nat (T * 3)) st ->
  placedBy ch (IncidentTriangleIndices (fst st)).
Proof.
  intros HT Hlen [_ Hput] m v Hm. apply Hput; [|exact Hm].
  apply lookup_lt_Some in Hm. unfold len in Hlen. lia.
Qed.

Lemma placedBy_csrOf (ch : list Z) (N : Z) (inds : list Z) :
  len inds = len ch -> placedBy ch inds -> csrOf ch N inds.
Proof.
  intros Hil Hput v Hv x.
  pose proof (below_succ ch v) as Hsucc. pose proof (below_nonneg ch v) as H0.
  pose proof (below_le_len ch (v + 1)) as Hle.
  pose proof (seg_length ch v inds ltac:(lia)) as Hsl.
  split.
  - intros Hx. apply list_elem_of_lookup in Hx as [r Hr].
    pose proof (lookup_lt_Some _ _ _ Hr) as Hrl. unfold len in Hsl.
    destruct (nth_occurrence ch v (Z.of_nat r) ltac:(lia)) as (m & Hm & Hrank).
    exists m. split; [exact Hm|].
    rewrite seg_lookup in Hr by lia.
    pose proof (Hput m v Hm) as Hp. rewrite Hrank in Hp.
    replace (Z.to_nat (below ch v + Z.of_nat r))
      with (Z.to_nat (below ch v) + r)%nat in Hp by lia.
    congruence.
  - intros (m & Hm & ->).
    pose proof (occ_take_lt_all _ _ _ Hm) as Hlt.
    pose proof (countIf_nonneg (Z.eqb v) (take m ch)) as Hge.
    fold (occ (take m ch) v) in Hge.
    apply list_elem_of_lookup. exists (Z.to_nat (occ (take m ch) v)).
    rewrite seg_lookup by lia. rewrite <- (Hput m v Hm).
    f_equal. lia.
Qed.

Lemma sortTriangleVerticesCCW_vertexOf (raw tri : int3) (vs : s2.PointVector)
  (v : Z) :
  sortTriangleVerticesCCW raw vs = Ok tri -> vertexOf tri v <-> vertexOf raw v.
Proof.
  intros H. apply sortTriangleVerticesCCW_inv in H as (p0 & p1 & p2 & _ & _ & _ & ->).
  unfold vertexOf. destruct (facesInward p0 p1 p2); simpl; tauto.
Qed.

Lemma rawTriangle_vertexOf (ch : list Z) (k : Z) (raw : int3) (v : Z) :
  0 <= k -> rawTriangle ch k = Some raw ->
  vertexOf raw v <->
  exists m : nat, ch !! m = Some v /\ Z.of_nat m / 3 = k.
Proof.
  intros Hk. unfold rawTriangle.
  destruct (ch !! Z.to_nat (k * 3)) as [a|] eqn:Ea; [|discriminate].
  destruct (ch !! Z.to_nat (k * 3 + 1)) as [b|] eqn:Eb; [|discriminate].
  destruct (ch !! Z.to_nat (k * 3 + 2)) as [c|] eqn:Ec; [|discriminate].
  intros [= <-]. unfold vertexOf. simpl. split.
  - intros [ -> | [ -> | -> ] ].
    + exists (Z.to_nat (k * 3)). split; [exact Ea|].
      rewrite Z2Nat.id by lia. now rewrite Z.div_mul.
    + exists (Z.to_nat (k * 3 + 1)). split; [exact Eb|].
      rewrite Z2Nat.id by lia.
      rewrite Z.add_comm, Z.div_add by lia. now rewrite Z.div_small by lia.
    + exists (Z.to_nat (k * 3 + 2)). split; [exact Ec|].
      rewrite Z2Nat.id by lia.
      rewrite Z.add_comm, Z.div_add by lia. now rewrite Z.div_small by lia.
  - intros (m & Hm & Hdiv).
    pose proof (Z.div_mod (Z.of_nat m) 3 ltac:(lia)) as Hdm.
    pose proof (Z.mod_pos_bound (Z.of_nat m) 3 ltac:(lia)) as Hmod.
    assert (m = Z.to_nat (k * 3) \/ m = Z.to_nat (k * 3 + 1) \/
            m = Z.to_nat (k * 3 + 2)) as [ -> | [ -> | -> ] ] by lia;
      [left|right; left|right; right]; congruence.
Qed.

(** In a built triangulation the triangles of the corners at [v] are the
    triangles that have [v] as a vertex. *)
Lemma builtFrom_incident (ch : list Z) vertices t (v x : Z) :
  builtFrom ch vertices t ->
  incident (Triangles t) v x <->
  exists m : nat, ch !! m = Some v /\ x = Z.of_nat m / 3.
Proof.
  intros (HN & Hch & Hv & Ht & Hi & Ho & Hall & Hoff & Htri & Hint). split.
  - intros (tri & Hx & Hvx). apply index_Ok_inv in Hx as [Hxr Hx].
    rewrite Ht in Hxr. destruct (Htri x Hxr) as (raw & tri' & Hraw & Htri' & Hs).
    assert (tri' = tri) as -> by congruence.
    apply (sortTriangleVerticesCCW_vertexOf _ _ _ v) in Hs.
    apply Hs in Hvx. apply (rawTriangle_vertexOf ch x raw v) in Hvx; [|lia|auto].
    destruct Hvx as (m & Hm & Hd). eauto.
  - intros (m & Hm & ->).
    pose proof (lookup_lt_Some _ _ _ Hm) as Hml.
    assert (Hk : 0 <= Z.of_nat m / 3 < 2 * (len vertices - 2)).
    { unfold len in *.
      split; [apply Z.div_pos; lia|apply Z.div_lt_upper_bound; lia]. }
    destruct (Htri _ Hk) as (raw & tri & Hraw & Htri' & Hs).
    exists tri. split; [apply index_Ok; [lia|exact Htri']|].
    apply (sortTriangleVerticesCCW_vertexOf _ _ _ v Hs).
    apply (rawTriangle_vertexOf ch (Z.of_nat m / 3) raw v); [lia|auto|eauto].
Qed.

Lemma writeBack_after {A} (a s : list A) (lo : Z) (p n : nat) :
  0 <= lo -> (Z.to_nat lo + length s <= length a)%nat ->
  (Z.to_nat lo + length s <= p)%nat ->
  take n (drop p (writeBack a lo s)) = take n (drop p a).
Proof.
  intros H0 Hlo Hp. apply list_eq. intros i.
  destruct (decide (i < n)%nat) as [Hi|Hi].
  - rewrite !lookup_take_lt, !lookup_drop by exact Hi. unfold writeBack.
    rewrite lookup_app_r by (rewrite length_take; lia).
    rewrite lookup_app_r by (rewrite length_take; lia).
    rewrite lookup_drop, length_take. f_equal. lia.
  - now rewrite !lookup_take_ge by lia.
Qed.

Lemma sortPass_Ok (ch : list Z) vertices t0 :
  builtFrom ch vertices t0 ->
  csrOf ch (len vertices) (IncidentTriangleIndices t0) ->
  exists t,
    forRange (len vertices) sortSite t0 = Ok t /\
    (forall v, 0 <= v < len vertices ->
       seg ch v (IncidentTriangleIndices t)
         ≡ₚ seg ch v (IncidentTriangleIndices t0)) /\
    (forall v, 0 <= v < len vertices ->
       head (seg ch v (IncidentTriangleIndices t))
       = head (seg ch v (IncidentTriangleIndices t0))).
Proof.
  intros Hb Hcsr.
  destruct (forRange_Ok (fun _ cur =>
              builtFrom ch vertices cur /\ Triangles cur = Triangles t0 /\
              (forall v, 0 <= v < len vertices ->
                 seg ch v (IncidentTriangleIndices cur)
                   ≡ₚ seg ch v (IncidentTriangleIndices t0)) /\
              (forall v, 0 <= v < len vertices ->
                 head (seg ch v (IncidentTriangleIndices cur))
                 = head (seg ch v (IncidentTriangleIndices t0))))
              sortSite (len vertices) t0) as (t & E & _ & _ & Hp).
  - unfold len; lia.
  - auto.
  - intros i cur Hi (Hcur & Htris & Hperm & Hhead).
    pose proof (builtFrom_IncidentTriangles _ _ _ _ Hcur Hi) as Hit.
    fold (seg ch i (IncidentTriangleIndices cur)) in Hit.
    destruct (builtFrom_incident_length _ _ _ _ _ Hcur Hi Hit)
      as (Hlen & Hlo & Hhi & Htop & _).
    destruct (sort_Ok (Triangles cur) i (seg ch i (IncidentTriangleIndices cur)))
      as (sorted & Esort).
    { apply Forall_forall. intros x Hx. rewrite (Hperm i Hi) in Hx.
      apply (Hcsr i Hi) in Hx. rewrite Htris.
      now apply (builtFrom_incident ch vertices t0). }
    pose proof (sort_length _ _ _ _ Esort) as Hsl.
    pose proof (sort_perm_head _ _ _ _ Esort) as [Hsp Hsh].
    assert (Hoff : index (IncidentTriangleOffsets cur) i = Ok (below ch i)).
    { destruct Hcur as (_ & _ & _ & _ & _ & _ & _ & Hoff & _).
      apply index_Ok; [lia|]. apply Hoff. lia. }
    unfold sortSite. rewrite Hit. simpl. rewrite Esort. simpl.
    rewrite Hoff. simpl. eexists. split; [reflexivity|].
    pose proof (builtFrom_offsets _ _ _ Hcur) as (Hzero & _ & Hmono).
    unfold len in *.
    assert (Hseg : forall u, 0 <= u < Z.of_nat (length vertices) ->
              seg ch u (writeBack (IncidentTriangleIndices cur) (below ch i)
                          sorted)
              = if Z.eq_dec u i then sorted
                else seg ch u (IncidentTriangleIndices cur)).
    { intros u Hu.
      pose proof (Hmono 0 u ltac:(lia)). pose proof (Hmono u (u + 1) ltac:(lia)).
      destruct (Z.eq_dec u i) as [->|Hne].
      - unfold seg.
        replace (Z.to_nat (below ch (i + 1) - below ch i)) with (length sorted)
          by lia.
        now rewrite writeBack_same by lia.
      - destruct (Z.lt_trichotomy u i) as [Hlt|[->|Hgt]]; [|lia|].
        + pose proof (Hmono (u + 1) i ltac:(lia)).
          unfold seg. now rewrite writeBack_before by lia.
        + pose proof (Hmono (i + 1) u ltac:(lia)).
          unfold seg. now rewrite writeBack_after by lia. }
    split; [|split; [exact Htris|split]].
    + eapply builtFrom_shape; eauto. simpl. apply writeBack_length; lia.
    + intros u Hu. simpl. rewrite <- (Hperm u Hu), (Hseg u Hu).
      destruct (Z.eq_dec u i) as [->|_]; [exact Hsp|reflexivity].
    + intros u Hu. simpl. rewrite <- (Hhead u Hu), (Hseg u Hu).
      destruct (Z.eq_dec u i) as [->|_]; [exact Hsh|reflexivity].
  - exists t. split; [exact E|exact Hp].
Qed.

(** With accepted options, at least 4 sites (and a number of sites that
    is an [int]) and a hull output of [3 * 2*(N-2)] site indices, the
    builder returns a triangulation. *)
Lemma NewTriangulation_Ok_intro (vertices : s2.PointVector)
  (setters : list TriangulationOption) (opts : TriangulationOptions) :
  let ch := ConvexHull (map s2.Vector vertices) true true (Eps opts) in
  applySetters setters (mkOptions defaultEps) = Ok opts ->
  4 <= len vertices <= maxInt ->
  len ch = 2 * (len vertices - 2) * 3 ->
  Forall (fun x => 0 <= x < len vertices) ch ->
  exists t inds0,
    NewTriangulation ConvexHull vertices setters = Ok t /\
    len inds0 = len ch /\ placedBy ch inds0 /\
    (forall v, 0 <= v < len vertices ->
       seg ch v (IncidentTriangleIndices t) ≡ₚ seg ch v inds0) /\
    (forall v, 0 <= v < len vertices ->
       head (seg ch v (IncidentTriangleIndices t)) = head (seg ch v inds0)).
Proof.
  intros ch Hopts [HN Hint] Hch Hall.
  set (N := len vertices) in *. set (T := 2 * (N - 2)) in *.
  destruct (countPass_Ok ch 0 (make 0 (N + 1))) as (counts & Ecount).
  { eapply Forall_impl; [exact Hall|]. simpl. intros x Hx.
    unfold len. rewrite make_length. lia. }
  pose proof (countPass_spec _ _ _ _ Ecount) as (Hclen & Hcall & Hck).
  rewrite make_length in Hclen.
  destruct (prefixPass_Ok N counts) as (offsets & Eprefix);
    [lia|unfold len; lia|].
  pose proof Eprefix as Hprefix.
  apply (prefixPass_spec ch) in Hprefix as (Holen & Hok); [|lia|exact Hclen| |].
  2:{ eapply Forall_impl; [exact Hall|]. simpl. intros; lia. }
  2:{ intros k Hk. rewrite (Hck k 0); [f_equal; lia|]. apply make_lookup. lia. }
  set (st0 := (mkTriangulation vertices (make (mkInt3 0 0 0) T)
                 (make 0 (T * 3)) offsets,
               copy (make 0 N) (take (Z.to_nat N) offsets))).
  assert (Hshape : placeShape vertices offsets T N st0).
  { unfold placeShape, st0, len. simpl.
    rewrite copy_make_take by (unfold len; lia).
    rewrite !make_length, length_take. repeat split; lia. }
  assert (Hcsr0 : csrInv ch N 0 st0).
  { split.
    - intros v Hv. unfold st0. simpl.
      rewrite copy_make_take by (unfold len; lia).
      rewrite lookup_take_lt by lia. rewrite Hok by lia.
      f_equal. unfold occ. simpl. rewrite Z2Nat.id by lia. lia.
    - intros m' v Hm'. lia. }
  destruct (placePhase_Ok ch vertices offsets T N ltac:(lia) Hch eq_refl Hall
              st0 Hshape Hcsr0) as (placed & Eplace & Pshape & Pcsr).
  pose proof (placePhase_spec ch vertices offsets T N st0 placed ltac:(lia)
                Hshape Eplace) as (_ & _ & Ptri).
  destruct Pshape as (Pv & Po & Pt & Pi & _).
  assert (Hb0 : builtFrom ch vertices (fst placed)).
  { unfold builtFrom. fold N. fold T. rewrite Pv, Po.
    repeat split; auto; try (unfold len in *; lia).
    intros k Hk. rewrite Hok by lia. f_equal. f_equal. lia. }
  pose proof (csrInv_placedBy ch T N placed ltac:(lia) Hch Pcsr) as Hput.
  assert (Hcsr : csrOf ch N (IncidentTriangleIndices (fst placed)))
    by (apply placedBy_csrOf; [lia|exact Hput]).
  destruct (sortPass_Ok ch vertices (fst placed) Hb0 Hcsr)
    as (t & Esort & Hperm & Hhead).
  exists t, (IncidentTriangleIndices (fst placed)).
  split; [|split; [lia|split; [exact Hput|split; [exact Hperm|exact Hhead]]]].
  - unfold NewTriangulation. rewrite Hopts. simpl. fold N.
    destruct (Z.ltb_spec N 4); [lia|]. fold T. fold ch.
    destruct (Z.eqb_spec (len ch) (T * 3)); [|lia]. simpl.
    unfold forEach. rewrite Ecount. simpl. rewrite Eprefix. simpl.
    unfold slice. simpl.
    destruct (Z.leb_spec 0 N); [|lia].
    destruct (Z.leb_spec N (len offsets)); [|unfold len in *; lia].
    rewrite Z.sub_0_r. cbn [andb bind].
    match goal with
    | |- context [forRange T (placeTriangle ch) ?s] =>
        change s with st0
    end.
    rewrite Eplace. simpl. exact Esort.
Qed.

(** What a successful run leaves behind: the facts of [builtFrom], and
    an incidence array that is, part by part, a rearrangement of the one
    the placement pass wrote. *)
Lemma NewTriangulation_csr (vertices : s2.PointVector)
  (setters : list TriangulationOption) (t : Triangulation) :
  NewTriangulation ConvexHull vertices setters = Ok t ->
  exists opts inds0,
    let ch := ConvexHull (map s2.Vector vertices) true true (Eps opts) in
    applySetters setters (mkOptions defaultEps) = Ok opts /\
    builtFrom ch vertices t /\
    len inds0 = len ch /\ placedBy ch inds0 /\
    (forall v, 0 <= v < len vertices ->
       seg ch v (IncidentTriangleIndices t) ≡ₚ seg ch v inds0) /\
    (forall v, 0 <= v < len vertices ->
       head (seg ch v (IncidentTriangleIndices t)) = head (seg ch v inds0)).
Proof.
  intros H.
  destruct (NewTriangulation_builtFrom _ _ _ _ H) as (opts & Hopts & Hb).
  pose proof Hb as (HN & Hch & _ & _ & _ & _ & Hall & _ & _ & Hint).
  destruct (NewTriangulation_Ok_intro vertices setters opts Hopts
              (conj HN Hint) Hch Hall)
    as (t' & inds0 & Ht' & Hl & Hput & Hperm & Hhead).
  assert (t' = t) as -> by congruence.
  exists opts, inds0. simpl.
  split; [exact Hopts|]. split; [exact Hb|]. split; [exact Hl|].
  split; [exact Hput|]. split; [exact Hperm|exact Hhead].
Qed.

End BuilderRuns.

(** ** When the builder returns, and what its accessors answer *)

Section Built.

Import s2delaunay.

Variable ConvexHull : list r3.Vector -> bool -> bool -> float -> list Z.

(** X5: the builder returns a triangulation exactly when the options are
    accepted, there are at least 4 sites, the hull output has
    [3 * 2*(N-2)] entries, and every entry is a site index in [[0, N)].
    The number of sites is an [int], at most [maxInt], as the length of
    every slice is. *)
Theorem builder_succeeds_iff (vertices : s2.PointVector)
  (setters : list TriangulationOption) :
  (exists t, NewTriangulation ConvexHull vertices setters = Ok t) <->
  exists opts,
    applySetters setters (mkOptions defaultEps) = Ok opts /\
    4 <= len vertices <= maxInt /\
    len (ConvexHull (map s2.Vector vertices) true true (Eps opts))
      = 3 * (2 * (len vertices - 2)) /\
    Forall (fun x => 0 <= x < len vertices)
           (ConvexHull (map s2.Vector vertices) true true (Eps opts)).
Proof.
  split.
  - intros [t H].
    destruct (NewTriangulation_builtFrom _ _ _ _ H) as (opts & Hopts & Hb).
    destruct Hb as (HN & Hch & _ & _ & _ & _ & Hall & _ & _ & Hint).
    exists opts. repeat split; auto; lia.
  - intros (opts & Hopts & HN & Hch & Hall).
    destruct (NewTriangulation_Ok_intro ConvexHull vertices setters opts Hopts HN
                ltac:(lia) Hall) as (t & _ & Ht & _).
    eauto.
Qed.

(** X6: once the options are accepted, with at least 4 sites and a hull
    output of the expected size, an entry of the hull output that is not
    a site index makes the builder panic (an index out of range), not
    return an error. *)
Theorem stray_index_panics (vertices : s2.PointVector)
  (setters : list TriangulationOption) (opts : TriangulationOptions) :
  applySetters setters (mkOptions defaultEps) = Ok opts ->
  4 <= len vertices ->
  len (ConvexHull (map s2.Vector vertices) true true (Eps opts))
    = 3 * (2 * (len vertices - 2)) ->
  ~ Forall (fun x => 0 <= x < len vertices)
           (ConvexHull (map s2.Vector vertices) true true (Eps opts)) ->
  NewTriangulation ConvexHull vertices setters = Panic.
Proof.
  intros Hopts HN Hch Hstray.
  destruct (NewTriangulation ConvexHull vertices setters) as [t|e|] eqn:E;
    [| |reflexivity].
  - destruct (NewTriangulation_builtFrom _ _ _ _ E) as (opts' & Hopts' & Hb).
    assert (opts' = opts) as -> by congruence.
    destruct Hb as (_ & _ & _ & _ & _ & _ & Hall & _). contradiction.
  - destruct (NewTriangulation_Err_inv _ _ _ _ _ Hopts E)
      as [[? _]|(_ & ? & _)]; lia.
Qed.

(** X7: in a triangulation that was built, the incident slice of a site
    [v] holds exactly the indices of the triangles that have [v] as a
    vertex. *)
Theorem incidence_sound_complete (vertices : s2.PointVector)
  (setters : list TriangulationOption) (t : Triangulation) (v : Z) :
  NewTriangulation ConvexHull vertices setters = Ok t ->
  0 <= v < len vertices ->
  exists s,
    IncidentTriangles t v = Ok s /\
    forall x, x ∈ s <->
              exists tri, index (Triangles t) x = Ok tri /\ vertexOf tri v.
Proof.
  intros H Hv.
  destruct (NewTriangulation_csr ConvexHull _ _ _ H)
    as (opts & inds0 & _ & Hb & Hl & Hput & Hperm & _).
  eexists. split; [exact (builtFrom_IncidentTriangles _ _ _ _ Hb Hv)|].
  intros x. fold (seg (ConvexHull (map s2.Vector vertices) true true (Eps opts))
                      v (IncidentTriangleIndices t)).
  rewrite (Hperm v Hv).
  rewrite (placedBy_csrOf _ (len vertices) _ Hl Hput v Hv x).
  symmetry. exact (builtFrom_incident _ _ _ v x Hb).
Qed.

Lemma same_triangle_corner (ch : list Z) (k : Z) (raw : int3) (v : Z)
  (m m' : nat) :
  0 <= k -> rawTriangle ch k = Some raw -> distinct3 raw ->
  ch !! m = Some v -> ch !! m' = Some v ->
  Z.of_nat m / 3 = k -> Z.of_nat m' / 3 = k -> m = m'.
Proof.
  intros Hk. unfold rawTriangle.
  destruct (ch !! Z.to_nat (k * 3)) as [a|] eqn:Ea; [|discriminate].
  destruct (ch !! Z.to_nat (k * 3 + 1)) as [b|] eqn:Eb; [|discriminate].
  destruct (ch !! Z.to_nat (k * 3 + 2)) as [c|] eqn:Ec; [|discriminate].
  intros [= <-] (Hab & Hbc & Hac) Hm Hm' Hd Hd'. simpl in *.
  pose proof (Z.div_mod (Z.of_nat m) 3 ltac:(lia)) as Hdm.
  pose proof (Z.mod_pos_bound (Z.of_nat m) 3 ltac:(lia)) as Hmod.
  pose proof (Z.div_mod (Z.of_nat m') 3 ltac:(lia)) as Hdm'.
  pose proof (Z.mod_pos_bound (Z.of_nat m') 3 ltac:(lia)) as Hmod'.
  assert (m = Z.to_nat (k * 3) \/ m = Z.to_nat (k * 3 + 1) \/
          m = Z.to_nat (k * 3 + 2)) as Hcase by lia.
  assert (m' = Z.to_nat (k * 3) \/ m' = Z.to_nat (k * 3 + 1) \/
          m' = Z.to_nat (k * 3 + 2)) as Hcase' by lia.
  destruct Hcase as [ -> | [ -> | -> ] ];
    destruct Hcase' as [ -> | [ -> | -> ] ]; congruence.
Qed.

(** X8: in a triangulation that was built and whose triangles have three
    different vertices each, no triangle comes twice in the incident slice
    of a site. *)
Theorem incident_no_duplicates (vertices : s2.PointVector)
  (setters : list TriangulationOption) (t : Triangulation) (v : Z)
  (s : list Z) :
  NewTriangulation ConvexHull vertices setters = Ok t ->
  0 <= v < len vertices ->
  IncidentTriangles t v = Ok s ->
  Forall distinct3 (Triangles t) ->
  NoDup s.
Proof.
  intros H Hv Hs Hdist.
  destruct (NewTriangulation_csr ConvexHull _ _ _ H)
    as (opts & inds0 & _ & Hb & Hl & Hput & Hperm & _).
  set (ch := ConvexHull (map s2.Vector vertices) true true (Eps opts)) in *.
  rewrite (builtFrom_IncidentTriangles _ _ _ _ Hb Hv) in Hs.
  injection Hs as <-. fold (seg ch v (IncidentTriangleIndices t)).
  rewrite (Hperm v Hv).
  pose proof (below_succ ch v) as Hsucc. pose proof (below_nonneg ch v) as H0.
  pose proof (below_le_len ch (v + 1)) as Hle.
  pose proof (seg_length ch v inds0 ltac:(lia)) as Hsl. unfold len in Hsl.
  assert (Hat : forall (i : nat) x, seg ch v inds0 !! i = Some x ->
            exists m : nat, ch !! m = Some v /\
                            occ (take m ch) v = Z.of_nat i /\
                            x = Z.of_nat m / 3).
  { intros i x Hi. pose proof (lookup_lt_Some _ _ _ Hi) as Hil.
    destruct (nth_occurrence ch v (Z.of_nat i) ltac:(lia)) as (m & Hm & Hr).
    exists m. split; [exact Hm|]. split; [exact Hr|].
    rewrite seg_lookup in Hi by lia.
    pose proof (Hput m v Hm) as Hp. rewrite Hr in Hp.
    replace (Z.to_nat (below ch v + Z.of_nat i))
      with (Z.to_nat (below ch v) + i)%nat in Hp by lia.
    congruence. }
  apply NoDup_alt. intros i j x Hi Hj.
  destruct (Hat i x Hi) as (m & Hm & Hr & Hx).
  destruct (Hat j x Hj) as (m' & Hm' & Hr' & Hx').
  destruct Hb as (HN & Hch & _ & Ht & _ & _ & _ & _ & Htri & _).
  pose proof (lookup_lt_Some _ _ _ Hm) as Hml.
  assert (Hk : 0 <= x < 2 * (len vertices - 2)).
  { subst x. unfold len in *.
    split; [apply Z.div_pos; lia|apply Z.div_lt_upper_bound; lia]. }
  destruct (Htri x Hk) as (raw & tri & Hraw & Htr & Hsort).
  assert (Hd : distinct3 raw).
  { pose proof (proj1 (Forall_lookup _ _) Hdist _ _ Htr) as Hd.
    apply sortTriangleVerticesCCW_inv in Hsort as (p0 & p1 & p2 & _ & _ & _ & ->).
    unfold distinct3 in *. destruct (facesInward p0 p1 p2); simpl in Hd;
      intuition congruence. }
  assert (m = m') as <-
    by (eapply (same_triangle_corner ch x raw v); eauto; lia).
  lia.
Qed.

(** X18: in a triangulation that was built, the incident slice of a site
    starts with the triangle of the first corner of the hull output at that
    site: the placement pass puts it first, and the sort never moves it. *)
Theorem first_incident_triangle (vertices : s2.PointVector)
  (setters : list TriangulationOption) (opts : TriangulationOptions)
  (t : Triangulation) (v : Z) (m : nat) :
  applySetters setters (mkOptions defaultEps) = Ok opts ->
  NewTriangulation ConvexHull vertices setters = Ok t ->
  ConvexHull (map s2.Vector vertices) true true (Eps opts) !! m = Some v ->
  v ∉ take m (ConvexHull (map s2.Vector vertices) true true (Eps opts)) ->
  exists s, IncidentTriangles t v = Ok s /\ head s = Some (Z.of_nat m / 3).
Proof.
  intros Hopts H Hm Hfirst.
  destruct (NewTriangulation_csr ConvexHull _ _ _ H)
    as (opts' & inds0 & Hopts' & Hb & Hl & Hput & _ & Hhead).
  assert (opts' = opts) as -> by congruence.
  set (ch := ConvexHull (map s2.Vector vertices) true true (Eps opts)) in *.
  assert (Hv : 0 <= v < len vertices).
  { destruct Hb as (_ & _ & _ & _ & _ & _ & Hall & _).
    exact (proj1 (Forall_lookup _ _) Hall _ _ Hm). }
  eexists. split; [exact (builtFrom_IncidentTriangles _ _ _ _ Hb Hv)|].
  fold (seg ch v (IncidentTriangleIndices t)).
  rewrite (Hhead v Hv), head_lookup.
  assert (H0 : occ (take m ch) v = 0).
  { apply countIf_none. apply Forall_forall. intros x Hx.
    destruct (Z.eqb_spec v x) as [->|_]; [contradiction|reflexivity]. }
  pose proof (occ_take_lt_all _ _ _ Hm) as Hlt.
  pose proof (below_succ ch v) as Hsucc. pose proof (below_nonneg ch v) as Hge.
  rewrite seg_lookup by lia.
  rewrite <- (Hput m v Hm), H0. f_equal. lia.
Qed.

Lemma builtFrom_TriangleVertices (ch : list Z) vertices t (k : Z) :
  builtFrom ch vertices t ->
  0 <= k < len (Triangles t) ->
  exists tri p0 p1 p2,
    Triangles t !! Z.to_nat k = Some tri /\
    vertices !! Z.to_nat (at0 tri) = Some p0 /\
    vertices !! Z.to_nat (at1 tri) = Some p1 /\
    vertices !! Z.to_nat (at2 tri) = Some p2 /\
    0 <= at0 tri < len vertices /\ 0 <= at1 tri < len vertices /\
    0 <= at2 tri < len vertices /\
    TriangleVertices t k = Ok (p0, p1, p2).
Proof.
  intros (HN & Hch & Hvs & Ht & _ & _ & _ & _ & Htri & _) Hk.
  destruct (Htri k ltac:(lia)) as (raw & tri & Hraw & Htr & Hsort).
  apply sortTriangleVerticesCCW_inv in Hsort
    as (p0 & p1 & p2 & E0 & E1 & E2 & Etri).
  apply index_Ok_inv in E0 as [R0 E0]. apply index_Ok_inv in E1 as [R1 E1].
  apply index_Ok_inv in E2 as [R2 E2].
  unfold TriangleVertices.
  destruct (Z.ltb_spec k 0); [lia|]. destruct (Z.geb_spec k (len (Triangles t)));
    [lia|]. simpl.
  rewrite (index_Ok _ k tri) by (auto; lia). simpl. rewrite Hvs.
  destruct (facesInward p0 p1 p2); subst tri; simpl.
  - exists (mkInt3 (at0 raw) (at2 raw) (at1 raw)), p0, p2, p1. simpl.
    rewrite (index_Ok vertices _ _ (proj1 R0) E0), (index_Ok vertices _ _ (proj1 R1) E1),
      (index_Ok vertices _ _ (proj1 R2) E2).
    simpl. repeat split; auto; lia.
  - exists raw, p0, p1, p2.
    rewrite (index_Ok vertices _ _ (proj1 R0) E0), (index_Ok vertices _ _ (proj1 R1) E1),
      (index_Ok vertices _ _ (proj1 R2) E2).
    simpl. repeat split; auto; lia.
Qed.

(** X9: in a triangulation that was built, [IncidentTriangles], called
    with an [int] [v], answers with a slice exactly at the site indices,
    [v] in [[0, N)]; with its out-of-range error exactly at the other
    indices below [maxInt]; and at [maxInt], where [v+1] wraps around and
    passes the guard, it panics. *)
Theorem incident_triangles_bounds (vertices : s2.PointVector)
  (setters : list TriangulationOption) (t : Triangulation) (v : Z) :
  NewTriangulation ConvexHull vertices setters = Ok t ->
  minInt <= v <= maxInt ->
  ((exists s, IncidentTriangles t v = Ok s) <-> 0 <= v < len vertices) /\
  (IncidentTriangles t v = Err ErrIncidentTriangles <->
   v < 0 \/ len vertices <= v < maxInt) /\
  (IncidentTriangles t v = Panic <-> v = maxInt).
Proof.
  intros H Hv.
  destruct (NewTriangulation_builtFrom _ _ _ _ H) as (opts & _ & Hb).
  pose proof Hb as (_ & _ & _ & _ & _ & Ho & _ & _ & _ & Hint).
  assert (Hmax : 0 <= maxInt) by (unfold maxInt; lia).
  destruct (Z_lt_dec v 0) as [Hneg|Hpos];
    [|destruct (Z_lt_dec v (len vertices)) as [Hin|Hout];
      [|destruct (Z.eq_dec v maxInt) as [->|Hne]]].
  - assert (E : IncidentTriangles t v = Err ErrIncidentTriangles).
    { unfold IncidentTriangles. now destruct (Z.ltb_spec v 0); [|lia]. }
    rewrite E. split; [|split]; split; try lia; try discriminate; auto.
    now intros [s Hs].
  - assert (Hr : 0 <= v < len vertices) by lia.
    rewrite (builtFrom_IncidentTriangles _ _ _ _ Hb Hr).
    split; [|split]; split; try discriminate; try lia; eauto.
  - assert (E : IncidentTriangles t maxInt = Panic).
    { unfold IncidentTriangles. rewrite addInt_maxInt.
      destruct (Z.ltb_spec maxInt 0); [lia|].
      destruct (Z.geb_spec minInt (len (IncidentTriangleOffsets t)));
        [unfold minInt, len in *; lia|].
      cbn [orb].
      destruct (index (IncidentTriangleOffsets t) maxInt) as [x|e|] eqn:E;
        [reflexivity| |reflexivity].
      now apply index_not_Err in E. }
    rewrite E. split; [|split]; split; try lia; try discriminate; auto.
    now intros [s Hs].
  - assert (E : IncidentTriangles t v = Err ErrIncidentTriangles).
    { unfold IncidentTriangles, addInt.
      rewrite wrap_small by (unfold minInt; lia).
      destruct (Z.ltb_spec v 0); [reflexivity|].
      now destruct (Z.geb_spec (v + 1) (len (IncidentTriangleOffsets t)));
        [|lia]. }
    rewrite E. split; [|split]; split; try lia; try discriminate; auto.
    now intros [s Hs].
Qed.

(** X10: in a triangulation that was built, [TriangleVertices] answers
    with the out-of-range error exactly at the indices outside
    [[0, 2*(N-2))], and at those inside with three of the sites, those at
    the three entries of the triangle; it never panics. *)
Theorem triangle_vertices_bounds (vertices : s2.PointVector)
  (setters : list TriangulationOption) (t : Triangulation) (k : Z) :
  NewTriangulation ConvexHull vertices setters = Ok t ->
  (TriangleVertices t k = Err ErrTriangleVertices <->
   ~ 0 <= k < 2 * (len vertices - 2)) /\
  (0 <= k < 2 * (len vertices - 2) ->
   exists tri p0 p1 p2,
     Triangles t !! Z.to_nat k = Some tri /\
     vertices !! Z.to_nat (at0 tri) = Some p0 /\
     vertices !! Z.to_nat (at1 tri) = Some p1 /\
     vertices !! Z.to_nat (at2 tri) = Some p2 /\
     TriangleVertices t k = Ok (p0, p1, p2)).
Proof.
  intros H.
  destruct (NewTriangulation_builtFrom _ _ _ _ H) as (opts & _ & Hb).
  pose proof Hb as (_ & _ & _ & Ht & _).
  assert (Hin : 0 <= k < 2 * (len vertices - 2) ->
     exists tri p0 p1 p2,
       Triangles t !! Z.to_nat k = Some tri /\
       vertices !! Z.to_nat (at0 tri) = Some p0 /\
       vertices !! Z.to_nat (at1 tri) = Some p1 /\
       vertices !! Z.to_nat (at2 tri) = Some p2 /\
       TriangleVertices t k = Ok (p0, p1, p2)).
  { intros Hk.
    destruct (builtFrom_TriangleVertices _ _ _ k Hb ltac:(lia))
      as (tri & p0 & p1 & p2 & ? & ? & ? & ? & _ & _ & _ & ?).
    exists tri, p0, p1, p2. auto. }
  split; [|exact Hin]. split.
  - intros E Hk. destruct (Hin Hk) as (? & ? & ? & ? & _ & _ & _ & _ & E').
    congruence.
  - intros Hk. unfold TriangleVertices.
    destruct (Z.ltb_spec k 0); [reflexivity|].
    now destruct (Z.geb_spec k (len (Triangles t))); [|lia].
Qed.

End Built.

(** ** The incidence array as a whole *)

Section Corners.

Import s2delaunay.

Variable ConvexHull : list r3.Vector -> bool -> bool -> float -> list Z.

Lemma take_below_succ (ch : list Z) (v : Z) (a : list Z) :
  take (Z.to_nat (below ch (v + 1))) a
  = take (Z.to_nat (below ch v)) a ++ seg ch v a.
Proof.
  unfold seg. rewrite take_take_drop. f_equal.
  pose proof (below_succ ch v). pose proof (below_nonneg ch v).
  pose proof (countIf_nonneg (Z.eqb v) ch). fold (occ ch v) in *. lia.
Qed.

Lemma segs_perm (ch a b : list Z) (n : nat) :
  below ch 0 = 0 ->
  (forall v, 0 <= v < Z.of_nat n -> seg ch v a ≡ₚ seg ch v b) ->
  take (Z.to_nat (below ch (Z.of_nat n))) a
    ≡ₚ take (Z.to_nat (below ch (Z.of_nat n))) b.
Proof.
  intros H0. induction n as [|n IH]; intros Hseg.
  - change (Z.of_nat 0) with 0. rewrite H0. reflexivity.
  - rewrite Nat2Z.inj_succ, <- Z.add_1_r, !take_below_succ.
    apply Permutation_app; [apply IH; intros; apply Hseg; lia|].
    apply Hseg. lia.
Qed.

Lemma segs_Forall (P : Z -> Prop) (ch a : list Z) (n : nat) :
  below ch 0 = 0 ->
  (forall v, 0 <= v < Z.of_nat n -> Forall P (seg ch v a)) ->
  Forall P (take (Z.to_nat (below ch (Z.of_nat n))) a).
Proof.
  intros H0. induction n as [|n IH]; intros Hseg.
  - change (Z.of_nat 0) with 0. rewrite H0. constructor.
  - rewrite Nat2Z.inj_succ, <- Z.add_1_r, take_below_succ.
    apply Forall_app. split; [apply IH; intros; apply Hseg; lia|].
    apply Hseg. lia.
Qed.

Lemma placedBy_perm (ch : list Z) (T N : Z) (inds0 : list Z) :
  len ch = T * 3 -> Forall (fun x => 0 <= x < N) ch ->
  len inds0 = len ch -> placedBy ch inds0 ->
  map (fun m : nat => Z.of_nat m / 3) (seq 0 (length ch)) ≡ₚ inds0.
Proof.
  intros Hch Hall Hl Hput. apply Permutation_inj. split.
  { rewrite length_map, length_seq. unfold len in Hl. lia. }
  exists (fun i => match ch !! i with
                   | Some v => Z.to_nat (below ch v + occ (take i ch) v)
                   | None => i
                   end).
  split.
  - intros i j Hij.
    destruct (ch !! i) as [v|] eqn:Ei; destruct (ch !! j) as [w|] eqn:Ej.
    + pose proof (corner_place ch T N Hch Hall i v Ei) as (_ & Hi & Hi0 & _).
      pose proof (corner_place ch T N Hch Hall j w Ej) as (_ & Hj & Hj0 & _).
      destruct (Nat.lt_trichotomy i j) as [Hlt|[->|Hlt]]; [|reflexivity|].
      * pose proof (corner_place_inj ch T N Hch Hall j i w v Ej Ei Hlt). lia.
      * pose proof (corner_place_inj ch T N Hch Hall i j v w Ei Ej Hlt). lia.
    + pose proof (corner_place ch T N Hch Hall i v Ei) as (_ & Hi & Hi0 & Htop).
      apply lookup_ge_None in Ej. unfold len in Hch. lia.
    + pose proof (corner_place ch T N Hch Hall j w Ej) as (_ & Hj & Hj0 & Htop).
      apply lookup_ge_None in Ei. unfold len in Hch. lia.
    + exact Hij.
  - intros i. destruct (ch !! i) as [v|] eqn:Ei.
    + pose proof (lookup_lt_Some _ _ _ Ei) as Hil.
      rewrite list_lookup_fmap, lookup_seq_lt by exact Hil. simpl.
      symmetry. exact (Hput i v Ei).
    + apply lookup_ge_None in Ei.
      rewrite (lookup_ge_None_2 inds0) by (unfold len in Hl; lia).
      apply lookup_ge_None_2. rewrite length_map, length_seq. lia.
Qed.

Lemma incidence_perm (vertices : s2.PointVector)
  (setters : list TriangulationOption) (t : Triangulation) :
  NewTriangulation ConvexHull vertices setters = Ok t ->
  IncidentTriangleIndices t
    ≡ₚ map (fun m : nat => Z.of_nat m / 3)
           (seq 0 (3 * length (Triangles t))) /\
  Forall (fun x => 0 <= x < len (Triangles t)) (IncidentTriangleIndices t).
Proof.
  intros H.
  destruct (NewTriangulation_csr ConvexHull _ _ _ H)
    as (opts & inds0 & _ & Hb & Hl & Hput & Hperm & _).
  set (ch := ConvexHull (map s2.Vector vertices) true true (Eps opts)) in *.
  pose proof (builtFrom_offsets _ _ _ Hb) as (H0 & Htop & _).
  destruct Hb as (HN & Hch & _ & Ht & Hi & _ & Hall & _).
  assert (Hp : IncidentTriangleIndices t
                 ≡ₚ map (fun m : nat => Z.of_nat m / 3)
                        (seq 0 (3 * length (Triangles t)))).
  { pose proof (segs_perm ch (IncidentTriangleIndices t) inds0
                  (Z.to_nat (len vertices)) H0) as Hs.
    rewrite Z2Nat.id in Hs by lia. specialize (Hs Hperm).
    rewrite !take_ge in Hs by (unfold len in *; lia).
    rewrite Hs.
    replace (3 * length (Triangles t))%nat with (length ch)
      by (unfold len in *; lia).
    symmetry. now apply (placedBy_perm ch _ (len vertices) inds0 Hch). }
  split; [exact Hp|].
  rewrite Hp. apply Forall_forall. intros x Hx.
  apply list_elem_of_fmap in Hx as (m & -> & Hm).
  apply elem_of_seq in Hm. unfold len.
  split; [apply Z.div_pos; lia|apply Z.div_lt_upper_bound; lia].
Qed.

(** X11: in a triangulation that was built, the incidence array is a
    rearrangement of the triangle indices with every index taken three
    times, once per corner; so all its entries are triangle indices. *)
Theorem incidence_three_per_triangle (vertices : s2.PointVector)
  (setters : list TriangulationOption) (t : Triangulation) :
  NewTriangulation ConvexHull vertices setters = Ok t ->
  IncidentTriangleIndices t
    ≡ₚ map (fun m : nat => Z.of_nat m / 3)
           (seq 0 (3 * length (Triangles t))) /\
  Forall (fun x => 0 <= x < len (Triangles t)) (IncidentTriangleIndices t).
Proof. apply incidence_perm. Qed.

End Corners.

(** ** The diagram builder runs to its end *)

Section DiagramRuns.

Import s2delaunay.

Variable ConvexHull : list r3.Vector -> bool -> bool -> float -> list Z.

Lemma vertexPass_Ok (ch : list Z) vertices dt :
  builtFrom ch vertices dt ->
  exists vs,
    forRange (len (Triangles dt)) (s2voronoi.vertexStep dt)
      (make (s2.mkPoint (r3.mkVector 0 0 0)) (len (Triangles dt))) = Ok vs.
Proof.
  intros Hb.
  destruct (forRange_Ok (fun _ (vs : s2.PointVector) =>
                           len vs = len (Triangles dt))
              (s2voronoi.vertexStep dt) (len (Triangles dt))
              (make (s2.mkPoint (r3.mkVector 0 0 0)) (len (Triangles dt))))
    as (vs & E & _).
  - unfold len; lia.
  - unfold len. rewrite make_length; lia.
  - intros i vs Hi Hl.
    destruct (builtFrom_TriangleVertices _ _ _ i Hb Hi)
      as (tri & p0 & p1 & p2 & _ & _ & _ & _ & _ & _ & _ & E).
    unfold s2voronoi.vertexStep. rewrite E. simpl.
    rewrite store_lt by lia. eexists. split; [reflexivity|].
    unfold len in *. now rewrite length_insert.
  - eauto.
Qed.

Lemma neighborPass_Ok (ch : list Z) vertices dt :
  builtFrom ch vertices dt ->
  csrOf ch (len vertices) (IncidentTriangleIndices dt) ->
  exists nb,
    forRange (len vertices) (s2voronoi.cellStep dt)
      (make 0 (len (IncidentTriangleIndices dt))) = Ok nb.
Proof.
  intros Hb Hcsr.
  destruct (forRange_Ok (fun _ (nb : list Z) =>
                           len nb = len (IncidentTriangleIndices dt))
              (s2voronoi.cellStep dt) (len vertices)
              (make 0 (len (IncidentTriangleIndices dt))))
    as (nb & E & _).
  - unfold len; lia.
  - unfold len. rewrite make_length; lia.
  - intros v nb Hv Hl.
    pose proof (builtFrom_IncidentTriangles _ _ _ _ Hb Hv) as Hit.
    destruct (builtFrom_incident_length _ _ _ _ _ Hb Hv Hit)
      as (Hlen & Hlo & Hhi & Htop & _).
    assert (Hoff : index (IncidentTriangleOffsets dt) v = Ok (below ch v)).
    { destruct Hb as (_ & _ & _ & _ & _ & _ & _ & Hoff & _).
      apply index_Ok; [lia|]. apply Hoff. lia. }
    unfold s2voronoi.cellStep. rewrite Hoff. simpl. rewrite Hit. simpl.
    unfold forEach.
    destruct (forEachFrom_Ok (fun _ (x : list Z) =>
                                len x = len (IncidentTriangleIndices dt))
                (s2voronoi.neighborStep dt v (below ch v))
                (seg ch v (IncidentTriangleIndices dt)) 0%nat 0 nb Hl)
      as (nb' & E' & Hl'); [|eauto].
    intros k x st Hk Hst.
    assert (Hinc : incident (Triangles dt) v x).
    { apply (builtFrom_incident ch vertices dt v x Hb).
      apply (Hcsr v Hv). eapply list_elem_of_lookup_2; eauto. }
    destruct (incident_NextVertex _ _ _ Hinc) as (tri & n & Etri & En).
    apply lookup_lt_Some in Hk. fold (seg ch v (IncidentTriangleIndices dt)) in Hlen.
    unfold s2voronoi.neighborStep. rewrite Etri. simpl. rewrite En. simpl.
    rewrite store_lt by (unfold len in *; lia).
    eexists. split; [reflexivity|]. unfold len in *. now rewrite length_insert.
  - eauto.
Qed.

(** X12: the diagram builder adds no failure of its own: it returns a
    diagram whenever the triangulation of the sites, built with the
    tolerance it passes on, is returned, and otherwise it ends as the
    triangulation builder does, with the same error or with a panic. *)
Theorem diagram_fails_as_triangulation (sites : s2.PointVector) (eps : float) :
  match NewTriangulation ConvexHull sites [WithEps (effectiveEps eps)] with
  | Ok _ => exists d, s2voronoi.NewDiagram ConvexHull sites eps = Ok d
  | Err e => s2voronoi.NewDiagram ConvexHull sites eps = Err e
  | Panic => s2voronoi.NewDiagram ConvexHull sites eps = Panic
  end.
Proof.
  unfold s2voronoi.NewDiagram. fold (effectiveEps eps).
  destruct (NewTriangulation ConvexHull sites [WithEps (effectiveEps eps)])
    as [dt|e|] eqn:E; [|reflexivity|reflexivity].
  destruct (NewTriangulation_csr ConvexHull _ _ _ E)
    as (opts & inds0 & _ & Hb & Hl & Hput & Hperm & _).
  set (ch := ConvexHull (map s2.Vector sites) true true (Eps opts)) in *.
  assert (Hcsr : csrOf ch (len sites) (IncidentTriangleIndices dt)).
  { intros v Hv x. rewrite (Hperm v Hv).
    exact (placedBy_csrOf ch (len sites) inds0 Hl Hput v Hv x). }
  destruct (vertexPass_Ok _ _ _ Hb) as (vs & Evs).
  destruct (neighborPass_Ok _ _ _ Hb Hcsr) as (nb & Enb).
  pose proof Hb as (_ & _ & Hv & _). simpl. rewrite Evs. simpl.
  rewrite Hv, Enb. simpl. eauto.
Qed.

Lemma builtFrom_triangles_range (ch : list Z) vertices dt :
  builtFrom ch vertices dt ->
  Forall (fun tri => forall x, vertexOf tri x -> 0 <= x < len vertices)
         (Triangles dt).
Proof.
  intros Hb. apply Forall_lookup. intros i tri Hi.
  pose proof (lookup_lt_Some _ _ _ Hi) as Hil.
  destruct (builtFrom_TriangleVertices _ _ _ (Z.of_nat i) Hb
              ltac:(unfold len; lia))
    as (tri' & _ & _ & _ & Htri & _ & _ & _ & R0 & R1 & R2 & _).
  rewrite Nat2Z.id in Htri. assert (tri' = tri) as -> by congruence.
  intros x [ -> | [ -> | -> ] ]; assumption.
Qed.

Lemma NextVertex_result_vertexOf (tri : int3) (v n : Z) :
  NextVertex tri v = Ok n -> vertexOf tri n.
Proof.
  unfold NextVertex, vertexOf.
  destruct (v =? at0 tri); [intros [= <-]; auto|].
  destruct (v =? at1 tri); [intros [= <-]; auto|].
  destruct (v =? at2 tri); [intros [= <-]; auto|discriminate].
Qed.

(** X13: in a diagram that was built, every entry of [CellNeighbors] is
    the index of a cell, and every entry of [CellVertices] is the index of
    a vertex of the diagram. *)
Theorem diagram_indices_in_range (sites : s2.PointVector) (eps : float)
  (d : s2voronoi.Diagram) :
  s2voronoi.NewDiagram ConvexHull sites eps = Ok d ->
  Forall (fun n => 0 <= n < s2voronoi.NumCells d) (s2voronoi.CellNeighbors d) /\
  Forall (fun k => 0 <= k < len (s2voronoi.Vertices d))
         (s2voronoi.CellVertices d).
Proof.
  intros H. apply NewDiagram_Ok_inv in H
    as (dt & Hdt & Hs & Hcv & Hco & Hvs & Hnb).
  pose proof (incidence_perm ConvexHull _ _ _ Hdt) as [_ Hrange].
  destruct (NewTriangulation_builtFrom _ _ _ _ Hdt) as (opts & _ & Hb).
  set (ch := ConvexHull (map s2.Vector sites) true true (Eps opts)) in *.
  pose proof (builtFrom_offsets _ _ _ Hb) as (H0 & Htop & _).
  pose proof Hb as (HN & Hch & Hv & Ht & Hi & _).
  apply vertexPass_spec in Hvs as [Hvl _]; [|unfold len; lia].
  split; [|rewrite Hcv, Hvl; exact Hrange].
  rewrite Hv in Hnb.
  pose proof (neighborPass_spec ch _ _ _ Hb Hnb) as [Hnl Hnb'].
  unfold s2voronoi.NumCells. rewrite Hs, Hv.
  pose proof (segs_Forall (fun n => 0 <= n < len sites) ch
                (s2voronoi.CellNeighbors d) (Z.to_nat (len sites)) H0) as Hall.
  rewrite Z2Nat.id in Hall by lia.
  rewrite take_ge in Hall by (unfold len in *; lia).
  apply Hall. intros v Hvr. apply Forall_lookup. intros i n Hin.
  pose proof (builtFrom_IncidentTriangles _ _ _ _ Hb Hvr) as Hit.
  fold (seg ch v (IncidentTriangleIndices dt)) in Hit.
  pose proof (below_succ ch v) as Hsucc. pose proof (below_nonneg ch v) as Hge.
  pose proof (Hmono := below_mono ch (v + 1) (len sites) ltac:(lia)).
  pose proof (seg_length ch v (s2voronoi.CellNeighbors d) ltac:(lia)) as Hsl.
  pose proof (seg_length ch v (IncidentTriangleIndices dt) ltac:(lia)) as Hsl'.
  pose proof (lookup_lt_Some _ _ _ Hin) as Hil.
  destruct (lookup_lt_is_Some_2 (seg ch v (IncidentTriangleIndices dt)) i
              ltac:(unfold len in *; lia)) as [tIdx HtIdx].
  destruct (Hnb' v _ i tIdx Hvr Hit HtIdx) as (tri & n' & Htri & Hn & Hat).
  rewrite seg_lookup in Hin
    by (pose proof (countIf_nonneg (Z.eqb v) ch); fold (occ ch v) in *;
        unfold len in *; lia).
  assert (n' = n) as -> by congruence.
  pose proof (proj1 (Forall_lookup _ _) (builtFrom_triangles_range _ _ _ Hb)
                _ _ Htri) as Hr.
  apply Hr. eapply NextVertex_result_vertexOf; eauto.
Qed.

(** X14: a diagram that was built keeps the sites it was given: its cells
    are the sites, there are at least 4 of them, and it has [2*(N-2)]
    vertices for [N] cells. *)
Theorem diagram_keeps_sites (sites : s2.PointVector) (eps : float)
  (d : s2voronoi.Diagram) :
  s2voronoi.NewDiagram ConvexHull sites eps = Ok d ->
  s2voronoi.Sites d = sites /\
  s2voronoi.NumCells d = len sites /\
  4 <= s2voronoi.NumCells d /\
  len (s2voronoi.Vertices d) = 2 * (s2voronoi.NumCells d - 2).
Proof.
  intros H. apply NewDiagram_Ok_inv in H
    as (dt & Hdt & Hs & Hcv & Hco & Hvs & Hnb).
  destruct (NewTriangulation_builtFrom _ _ _ _ Hdt) as (opts & _ & Hb).
  destruct Hb as (HN & _ & Hv & Ht & _).
  apply vertexPass_spec in Hvs as [Hvl _]; [|unfold len; lia].
  unfold s2voronoi.NumCells. rewrite Hs, Hv. repeat split; auto; lia.
Qed.

End DiagramRuns.

(** ** Edges of the incidence sort, and the cycle of a triangle *)

Section SortEdges.

Import s2delaunay.

(** X3: on a slice whose entries are all indices of triangles that have
    [v] as a vertex, the incidence sort ends normally: no index is out of
    range and no vertex lookup fails. *)
Theorem sort_runs_on_incident (tris : list int3) (v : Z) (s : list Z) :
  Forall (incident tris v) s ->
  exists s', sortIncidentTriangleIndicesCCW v s tris = Ok s'.
Proof. apply sort_Ok. Qed.

(** X15: short slices.  A slice of at most one entry is returned as it
    is, whatever the triangles.  A slice of two entries is never
    reordered, yet the triangle of its first entry is read: the sort
    returns the slice if [v] is a vertex of that triangle and panics
    otherwise. *)
Theorem sort_short_slice (tris : list int3) (v : Z) :
  (forall s, len s <= 1 -> sortIncidentTriangleIndicesCCW v s tris = Ok s) /\
  (forall a b, incident tris v a ->
               sortIncidentTriangleIndicesCCW v [a; b] tris = Ok [a; b]) /\
  (forall a b, ~ incident tris v a ->
               sortIncidentTriangleIndicesCCW v [a; b] tris = Panic).
Proof.
  split; [|split].
  - intros [|a [|b s]] Hs; [reflexivity|reflexivity|].
    unfold len in Hs. simpl in Hs. lia.
  - intros a b Hinc.
    destruct (incident_NextVertex _ _ _ Hinc) as (tri & n & Etri & En).
    unfold sortIncidentTriangleIndicesCCW, sortStep. simpl.
    rewrite Etri. simpl. rewrite En. reflexivity.
  - intros a b Hinc.
    unfold sortIncidentTriangleIndicesCCW, sortStep. simpl.
    destruct (index tris a) as [tri| |] eqn:Etri; simpl; try reflexivity.
    + destruct (NextVertex tri v) as [n| |] eqn:En; simpl; try reflexivity.
      exfalso. apply Hinc. exists tri. split; [exact Etri|].
      eapply NextVertex_Ok_vertexOf; eauto.
    + now apply index_not_Err in Etri.
Qed.

(** X16: on a triangle with three different entries, [NextVertex] goes
    round the three vertices: from a vertex [v] it gives a second vertex
    [n], from [n] the third one [p], which is [PrevVertex] of [v], and
    from [p] it gives [v] again.  Swapping the last two entries of the
    triangle, as the orientation pass does, exchanges the two functions. *)
Theorem triangle_cycle (t : int3) (v : Z) :
  distinct3 t -> vertexOf t v ->
  exists n p,
    NextVertex t v = Ok n /\ PrevVertex t v = Ok p /\
    n <> v /\ p <> v /\ n <> p /\
    NextVertex t n = Ok p /\ NextVertex t p = Ok v /\
    NextVertex (mkInt3 (at0 t) (at2 t) (at1 t)) v = Ok p /\
    PrevVertex (mkInt3 (at0 t) (at2 t) (at1 t)) v = Ok n.
Proof.
  destruct t as [a b c]. unfold distinct3, vertexOf, NextVertex, PrevVertex.
  simpl. intros (Hab & Hbc & Hac) [ -> | [ -> | -> ] ].
  - exists b, c. rewrite !Z.eqb_refl.
    destruct (Z.eqb_spec b a); [congruence|].
    destruct (Z.eqb_spec c a); [congruence|].
    destruct (Z.eqb_spec c b); [congruence|]. repeat split; congruence.
  - exists c, a. rewrite !Z.eqb_refl.
    destruct (Z.eqb_spec b a); [congruence|].
    destruct (Z.eqb_spec c a); [congruence|].
    destruct (Z.eqb_spec b c); [congruence|]. 
    destruct (Z.eqb_spec c b); [congruence|]. repeat split; congruence.
  - exists a, b. rewrite !Z.eqb_refl.
    destruct (Z.eqb_spec c a); [congruence|].
    destruct (Z.eqb_spec b a); [congruence|].
    destruct (Z.eqb_spec c b); [congruence|]. repeat split; congruence.
Qed.

End SortEdges.

(** ** The test helper [cyclicEqual] *)

Section CyclicEqual.

Import s2delaunay_test.

Variables (a b : list Z) (n : Z).
Hypothesis Ha : len a = n.
Hypothesis Hb : len b = n.

Lemma matchFrom_spec (i : Z) :
  0 <= i < n ->
  forall (k : nat) (j : Z),
    0 <= j -> j + Z.of_nat k = n ->
    exists r, matchFrom a b n i j k = Ok r /\ (r = true <-> readFrom a b n i j).
Proof.
  intros Hi. induction k as [|k IH]; intros j Hj Hjk.
  - exists true. split; [reflexivity|]. split; [|reflexivity].
    intros _ d Hd. lia.
  - simpl. rewrite Z.rem_mod_nonneg by lia.
    pose proof (Z.mod_pos_bound (i + j) n ltac:(lia)) as Hm.
    destruct (index_lt a ((i + j) mod n) ltac:(lia)) as (x & -> & Ex).
    destruct (index_lt b j ltac:(lia)) as (y & -> & Ey). simpl.
    destruct (Z.eqb_spec x y) as [->|Hne]; simpl.
    + destruct (IH (j + 1) ltac:(lia) ltac:(lia)) as (r & -> & Hr).
      exists r. split; [reflexivity|]. rewrite Hr. split.
      * intros H d Hd. destruct (Z.eq_dec (Z.of_nat d) j) as [<-|Hdj].
        -- rewrite Nat2Z.id in Ey. congruence.
        -- apply H. lia.
      * intros H d Hd. apply H. lia.
    + exists false. split; [reflexivity|]. split; [discriminate|].
      intros H. specialize (H (Z.to_nat j) ltac:(lia)).
      rewrite Z2Nat.id in H by lia. congruence.
Qed.

Lemma scanFrom_spec :
  forall (k : nat) (i : Z),
    0 <= i -> i + Z.of_nat k = n ->
    exists r, scanFrom a b n i k = Ok r /\
              (r = true <-> exists i', i <= i' < n /\ readFrom a b n i' 0).
Proof.
  induction k as [|k IH]; intros i Hi Hik.
  - exists false. split; [reflexivity|]. split; [discriminate|].
    intros (i' & Hi' & _). lia.
  - simpl.
    destruct (index_lt b 0 ltac:(lia)) as (b0 & -> & Eb0).
    destruct (index_lt a i ltac:(lia)) as (ai & -> & Eai). simpl.
    destruct (IH (i + 1) ltac:(lia) ltac:(lia)) as (r & Er & Hr).
    assert (Hlater : (exists i', i <= i' < n /\ readFrom a b n i' 0) <->
                     readFrom a b n i 0 \/ exists i', i + 1 <= i' < n /\ readFrom a b n i' 0).
    { split.
      - intros (i' & Hi' & H). destruct (Z.eq_dec i' i) as [->|Hne]; [auto|].
        right. exists i'. split; [lia|exact H].
      - intros [H|(i' & Hi' & H)]; [exists i|exists i']; split; auto; lia. }
    destruct (Z.eqb_spec b0 ai) as [->|Hne]; simpl.
    + destruct (matchFrom_spec i ltac:(lia) (Z.to_nat n) 0 ltac:(lia)
                  ltac:(lia)) as (eq & -> & Heq). simpl.
      destruct eq.
      * exists true. split; [reflexivity|]. rewrite Hlater.
        split; [|reflexivity]. intros _. left. now apply Heq.
      * exists r. split; [exact Er|]. rewrite Hlater, Hr. split; [auto|].
        intros [H|H]; [|exact H]. apply Heq in H. discriminate.
    + exists r. split; [exact Er|]. rewrite Hlater, Hr. split; [auto|].
      intros [H|H]; [|exact H]. exfalso.
      specialize (H 0%nat ltac:(lia)). change (Z.of_nat 0) with 0 in H.
      rewrite Z.add_0_r, Z.mod_small in H by lia. simpl in H.
      change 0%nat with (Z.to_nat 0) in H. congruence.
Qed.

Lemma readFrom_rotate (i : nat) :
  Z.of_nat i < n -> readFrom a b n (Z.of_nat i) 0 <-> rotate i a = b.
Proof.
  intros Hi. unfold len in *. split.
  - intros H. apply list_eq. intros d.
    destruct (decide (d < length a)%nat) as [Hd|Hd].
    + rewrite lookup_rotate_r by exact Hd. rewrite <- (H d ltac:(lia)).
      unfold rotate_nat_add. now rewrite <- Ha.
    + rewrite !lookup_ge_None_2; [reflexivity|lia|rewrite length_rotate; lia].
  - intros <- d Hd. rewrite lookup_rotate_r by lia.
    unfold rotate_nat_add. now rewrite <- Ha.
Qed.

End CyclicEqual.

(** X17: the helper [cyclicEqual] of the tests always returns, and it
    answers [true] exactly when the slices are not empty and the second
    is a rotation of the first; two empty slices are not cyclically
    equal. *)
Theorem cyclicEqual_spec (a b : list Z) :
  exists r,
    s2delaunay_test.cyclicEqual a b = Ok r /\
    (r = true <->
     a <> [] /\ exists k : nat, (k < length a)%nat /\ rotate k a = b).
Proof.
  unfold s2delaunay_test.cyclicEqual.
  destruct (Z.eqb_spec (len a) (len b)) as [Hl|Hl]; simpl.
  - destruct (scanFrom_spec a b (len a) eq_refl (eq_sym Hl)
                (Z.to_nat (len a)) 0 ltac:(lia) ltac:(unfold len; lia))
      as (r & Er & Hr).
    exists r. split; [exact Er|]. rewrite Hr. split.
    + intros (i & Hi & H). split.
      * intros ->. unfold len in Hi. simpl in Hi. lia.
      * exists (Z.to_nat i). split; [unfold len in Hi; lia|].
        apply (readFrom_rotate a b (len a) eq_refl (eq_sym Hl)).
        -- lia.
        -- now rewrite Z2Nat.id by lia.
    + intros (_ & k & Hk & H). exists (Z.of_nat k).
      split; [unfold len; lia|].
      apply (readFrom_rotate a b (len a) eq_refl (eq_sym Hl));
        [unfold len; lia|exact H].
  - exists false. split; [reflexivity|]. split; [discriminate|].
    intros (_ & k & _ & <-). unfold len in Hl. now rewrite length_rotate in Hl.
Qed.

(** ** More runs on the tetrahedron *)

Section MoreRuns.

Import s2delaunay Examples.

Lemma tetra_site (v : Z) : 0 <= v < 4 -> 0 <= v < len tetra.
Proof. unfold len. simpl. lia. Qed.

(** Sorting [[0; 2; 1]] around site 0 gives [[0; 1; 2]]. *)
Lemma sort_permutes_witness :
  [0; 1; 2] ≡ₚ [0; 2; 1] /\ head [0; 1; 2] = head [0; 2; 1].
Proof.
  apply (sort_permutes (Triangles tetraTriangulation) 0 [0; 2; 1] [0; 1; 2]).
  vm_compute. reflexivity.
Defined.

Lemma sort_fixed_point_witness :
  sortIncidentTriangleIndicesCCW 0 [0; 1; 2] (Triangles tetraTriangulation)
    = Ok [0; 1; 2].
Proof.
  apply (sort_fixed_point (Triangles tetraTriangulation) 0 [0; 1; 2]).
  - intros [|[|k]] x y Hx Hy; simpl in Hx, Hy; try discriminate;
      injection Hx as <-; injection Hy as <-.
    + exists 1. split; reflexivity.
    + exists 3. split; reflexivity.
  - vm_compute. repeat constructor; intros Hin;
      repeat (apply elem_of_cons in Hin as [Hin|Hin]; [discriminate|]);
      now apply elem_of_nil in Hin.
Defined.

Lemma sort_runs_on_incident_witness :
  exists s',
    sortIncidentTriangleIndicesCCW 0 [0; 2; 1] (Triangles tetraTriangulation)
      = Ok s'.
Proof.
  apply (sort_runs_on_incident (Triangles tetraTriangulation) 0 [0; 2; 1]).
  repeat (constructor;
          [eexists; split; [reflexivity|unfold vertexOf; simpl; lia]|]).
  constructor.
Defined.

Lemma triangle_cycle_witness :
  exists n p,
    NextVertex (mkInt3 1 2 3) 2 = Ok n /\ PrevVertex (mkInt3 1 2 3) 2 = Ok p /\
    n <> 2 /\ p <> 2 /\ n <> p /\
    NextVertex (mkInt3 1 2 3) n = Ok p /\ NextVertex (mkInt3 1 2 3) p = Ok 2 /\
    NextVertex (mkInt3 1 3 2) 2 = Ok p /\
    PrevVertex (mkInt3 1 3 2) 2 = Ok n.
Proof.
  apply (triangle_cycle (mkInt3 1 2 3) 2).
  - unfold distinct3; simpl; lia.
  - unfold vertexOf; simpl; lia.
Defined.

Lemma last_tolerance_wins_witness :
  NewTriangulation tetraHull tetra (map WithEps ([1e-9] ++ [1e-12]))%float =
  NewTriangulation tetraHull tetra [WithEps 1e-12%float].
Proof.
  apply (last_tolerance_wins tetraHull tetra [1e-9]%float 1e-12%float).
  repeat constructor.
Defined.

(** With [strayHull] the placement pass reads past the four sites. *)
Lemma stray_index_panics_witness :
  NewTriangulation strayHull tetra [] = Panic.
Proof.
  apply (stray_index_panics strayHull tetra [] (mkOptions defaultEps)).
  - reflexivity.
  - exact tetra_four_sites.
  - reflexivity.
  - intros H.
    pose proof (proj1 (Forall_lookup _ _) H 11%nat 4 eq_refl) as H4.
    unfold len in H4. simpl in H4. lia.
Defined.

Lemma incidence_sound_complete_witness :
  exists s,
    IncidentTriangles tetraTriangulation 1 = Ok s /\
    forall x, x ∈ s <->
              exists tri, index (Triangles tetraTriangulation) x = Ok tri /\
                          vertexOf tri 1.
Proof.
  exact (incidence_sound_complete tetraHull tetra [] tetraTriangulation 1
           tetra_triangulation (tetra_site 1 ltac:(lia))).
Defined.

Lemma incident_no_duplicates_witness : NoDup [0; 3; 1].
Proof.
  apply (incident_no_duplicates tetraHull tetra [] tetraTriangulation 1
           [0; 3; 1]).
  - exact tetra_triangulation.
  - apply tetra_site. lia.
  - vm_compute. reflexivity.
  - repeat (constructor; [unfold distinct3; simpl; lia|]). constructor.
Defined.

Lemma incidence_three_per_triangle_witness :
  IncidentTriangleIndices tetraTriangulation
    ≡ₚ map (fun m : nat => Z.of_nat m / 3)
           (seq 0 (3 * length (Triangles tetraTriangulation))) /\
  Forall (fun x => 0 <= x < len (Triangles tetraTriangulation))
         (IncidentTriangleIndices tetraTriangulation).
Proof.
  exact (incidence_three_per_triangle tetraHull tetra [] tetraTriangulation
           tetra_triangulation).
Defined.

(** At [maxInt] the tetrahedron's triangulation panics. *)
Lemma incident_triangles_bounds_witness :
  ((exists s, IncidentTriangles tetraTriangulation maxInt = Ok s) <->
   0 <= maxInt < len tetra) /\
  (IncidentTriangles tetraTriangulation maxInt = Err ErrIncidentTriangles <->
   maxInt < 0 \/ len tetra <= maxInt < maxInt) /\
  (IncidentTriangles tetraTriangulation maxInt = Panic <-> maxInt = maxInt).
Proof.
  apply (incident_triangles_bounds tetraHull tetra [] tetraTriangulation maxInt
           tetra_triangulation).
  unfold minInt, maxInt. lia.
Defined.

Lemma triangle_vertices_bounds_witness :
  (TriangleVertices tetraTriangulation 3 = Err ErrTriangleVertices <->
   ~ 0 <= 3 < 2 * (len tetra - 2)) /\
  (0 <= 3 < 2 * (len tetra - 2) ->
   exists tri p0 p1 p2,
     Triangles tetraTriangulation !! Z.to_nat 3 = Some tri /\
     tetra !! Z.to_nat (at0 tri) = Some p0 /\
     tetra !! Z.to_nat (at1 tri) = Some p1 /\
     tetra !! Z.to_nat (at2 tri) = Some p2 /\
     TriangleVertices tetraTriangulation 3 = Ok (p0, p1, p2)).
Proof.
  exact (triangle_vertices_bounds tetraHull tetra [] tetraTriangulation 3
           tetra_triangulation).
Defined.

Lemma diagram_indices_in_range_witness :
  Forall (fun n => 0 <= n < s2voronoi.NumCells tetraDiagram)
         (s2voronoi.CellNeighbors tetraDiagram) /\
  Forall (fun k => 0 <= k < len (s2voronoi.Vertices tetraDiagram))
         (s2voronoi.CellVertices tetraDiagram).
Proof.
  exact (diagram_indices_in_range tetraHull tetra 0 tetraDiagram tetra_diagram).
Defined.

Lemma diagram_keeps_sites_witness :
  s2voronoi.Sites tetraDiagram = tetra /\
  s2voronoi.NumCells tetraDiagram = len tetra /\
  4 <= s2voronoi.NumCells tetraDiagram /\
  len (s2voronoi.Vertices tetraDiagram)
    = 2 * (s2voronoi.NumCells tetraDiagram - 2).
Proof.
  exact (diagram_keeps_sites tetraHull tetra 0 tetraDiagram tetra_diagram).
Defined.

(** The first corner at site 3 is entry 5 of the hull output, a corner of
    triangle 1. *)
Lemma first_incident_triangle_witness :
  exists s, IncidentTriangles tetraTriangulation 3 = Ok s /\
            head s = Some (Z.of_nat 5 / 3).
Proof.
  apply (first_incident_triangle tetraHull tetra [] (mkOptions defaultEps)
           tetraTriangulation 3 5).
  - reflexivity.
  - exact tetra_triangulation.
  - reflexivity.
  - simpl. intros Hin.
    repeat (apply elem_of_cons in Hin as [Hin|Hin]; [discriminate|]).
    now apply elem_of_nil in Hin.
Defined.

End MoreRuns.
